(** * Kuin.py: the pyparsing grammar of [kuin/parser.py] and the AST nodes of
    [kuin/nodes.py], with the properties of the parser's specification.

    The grammar of [parser.py] is a tree of pyparsing elements built when the
    module is imported; parsing is pyparsing's [_parse] walking that tree.
    The development keeps this shape: [pe] is the class hierarchy of the
    elements the grammar uses, [parse] is [ParserElement._parse], the
    definitions of module [Grammar] are the assignments of [parser.py] in
    source order, and module [Nodes] holds the constructors and the [parse]
    class methods of [nodes.py]. *)

From Stdlib Require Import List String Ascii ZArith QArith Bool Arith Lia.
Import ListNotations.
Local Open Scope string_scope.
Local Open Scope list_scope.

(** ** Python values *)

(** Exceptions that can leave a parse: pyparsing's two parse errors and the
    Python errors raised inside parse actions. *)
Inductive exn : Type :=
| ParseException
| ParseFatalException
| ValueError
| TypeError
| AssertionError
| IndexError.

(** The result of running Python code that may raise.  [OutOfFuel] is the
    model's own: the interpreter's recursion bound was too small. *)
Inductive res (A : Type) : Type :=
| Ok (a : A)
| Raise (e : exn)
| OutOfFuel.
Arguments Ok {A} a.
Arguments Raise {A} e.
Arguments OutOfFuel {A}.

Definition bind {A B : Type} (m : res A) (f : A -> res B) : res B :=
  match m with
  | Ok a => f a
  | Raise e => Raise e
  | OutOfFuel => OutOfFuel
  end.

Notation "x <- m ;; k" := (bind m (fun x => k))
  (at level 61, m at next level, right associativity).
Notation "' p <- m ;; k" := (bind m (fun x => match x with p => k end))
  (at level 61, p pattern, m at next level, right associativity).

(** Python objects that occur as parse tokens: literals' values, tuples,
    nested [ParseResults] (tokens and named results), and one constructor per
    node class of [nodes.py], fields in the order of the class's attributes.
    A [float] is represented by the exact rational it approximates; rounding
    is not modelled. *)
#[warnings="-register-all"]
Inductive pyval : Type :=
| PNone
| PBool (b : bool)
| PInt (z : Z)
| PFloat (q : Q)
| PStr (s : string)
| PTuple (items : list pyval)
| PResults (toks : list pyval) (named : list (string * (bool * pyval)))
| SymbolNode (symbol : string)
| ExprNode (operator : pyval) (operands : list pyval)
| ValueNode (range : list pyval)
| ArrayNode (array index : pyval)
| NewNode (type : pyval)
| IfNode (clauses : list pyval) (block_name : pyval)
| SwitchNode (target : pyval) (case : list pyval) (block_name : pyval)
| WhileNode (cond skip : pyval) (body : list pyval)
| ForNode (start end_ step block_name : pyval) (body : list pyval)
| ForeachNode (items block_name : pyval) (body : list pyval)
| TryNode (block_name ignore_value : pyval) (body : list pyval)
          (catch_value : pyval) (catch_body finally_body : list pyval)
| IfdefNode (mode block_name : pyval) (body : list pyval)
| BlockNode (block_name : pyval) (body : list pyval)
| DoNode (expr : pyval)
| BreakNode (block_name : pyval)
| ContinueNode (block_name : pyval)
| ReturnNode (value : pyval)
| AssertNode (expr : pyval)
| ThrowNode (code message : pyval)
| FuncNode (funcname : pyval) (args : list pyval)
| VarNode (varname typename value : pyval)
| ConstNode (varname typename value : pyval)
| AliasNode (alias typename : pyval)
| CollectionTypeNode
| DictTypeNode
| FuncTypeNode
| ArrayTypeNode (base_type : pyval) (size : list pyval)
| ClassNode (name parent : pyval) (members : list pyval)
| ClassMember (member visibility : pyval) (override : bool)
| EnumNode (name : pyval) (member : list (pyval * pyval)).

(** [ParseResults]: the token list and the named results, in the order they
    were added.  The flag of a named result says whether the name was given
    with a trailing [*] (listAllMatches). *)
Record results : Type := mkResults {
  toks : list pyval;
  named : list (string * (bool * pyval))
}.

Definition no_results : results := mkResults [] [].
Definition one_token (v : pyval) : results := mkResults [v] [].

(** [ParseResults.__iadd__]. *)
Definition add_results (a b : results) : results :=
  mkResults (toks a ++ toks b) (named a ++ named b).

(** All values stored under a name, oldest first. *)
Fixpoint values_of (k : string) (d : list (string * (bool * pyval))) : list (bool * pyval) :=
  match d with
  | [] => []
  | (k', v) :: d' => if String.eqb k k' then v :: values_of k d' else values_of k d'
  end.

(** [ParseResults.__getitem__] on a name: the last value, or the list of all
    values for a listAllMatches name. *)
Definition get_named (k : string) (d : list (string * (bool * pyval))) : option pyval :=
  match values_of k d with
  | [] => None
  | (acc, v) :: vs =>
      if existsb fst ((acc, v) :: vs)
      then Some (PResults (map snd ((acc, v) :: vs)) [])
      else Some (snd (last vs (acc, v)))
  end.

(** [r.get(k)] and [r.get(k, default)]. *)
Definition r_get (r : results) (k : string) (default : pyval) : pyval :=
  match get_named k (named r) with Some v => v | None => default end.

(** [r[k]]: a missing name raises [KeyError], which no caller here can
    observe; it is folded into [IndexError]. *)
Definition r_item (r : results) (k : string) : res pyval :=
  match get_named k (named r) with Some v => Ok v | None => Raise IndexError end.

(** [ParseResults.keys()], each name once, in first-insertion order. *)
Fixpoint keys_of (d : list (string * (bool * pyval))) (seen : list string) : list string :=
  match d with
  | [] => []
  | (k, _) :: d' =>
      if existsb (String.eqb k) seen then keys_of d' seen
      else k :: keys_of d' (k :: seen)
  end.

(** The keyword arguments of a call [cls( **r )]. *)
Definition kwargs_of (r : results) : list (string * pyval) :=
  map (fun k => (k, r_get r k PNone)) (keys_of (named r) []).

(** ** Characters, the input cursor and regular expressions *)

Definition in_range (lo hi c : ascii) : bool :=
  (N_of_ascii lo <=? N_of_ascii c)%N && (N_of_ascii c <=? N_of_ascii hi)%N.

Definition chr (n : nat) : ascii := ascii_of_nat n.

(** The position [loc] in [instring] is kept as the unread suffix [rest],
    together with the character before it, [instring[loc-1]], which
    [Keyword] inspects. *)
Record cursor : Type := mkCursor {
  prev : option ascii;
  rest : list ascii
}.

Fixpoint advance (n : nat) (c : cursor) : cursor :=
  match n, rest c with
  | S n', a :: l => advance n' (mkCursor (Some a) l)
  | _, _ => c
  end.

(** The regular expressions of [parser.py] use character sets, sequence,
    alternation, [*], [+] and [?].  [RSet neg ranges] is [[...]] or [[^...]]
    over inclusive ranges. *)
Inductive regex : Type :=
| REps
| RSet (neg : bool) (ranges : list (ascii * ascii))
| RSeq (r1 r2 : regex)
| RAlt (r1 r2 : regex)
| RStar (r : regex).

Definition RChr (c : ascii) : regex := RSet false [(c, c)].
(** [.] matches any character except a newline. *)
Definition RAny : regex := RSet true [(chr 10, chr 10)].
Definition RPlus (r : regex) : regex := RSeq r (RStar r).
Definition ROpt (r : regex) : regex := RAlt r REps.

Definition in_set (neg : bool) (ranges : list (ascii * ascii)) (c : ascii) : bool :=
  xorb neg (existsb (fun p => in_range (fst p) (snd p) c) ranges).

(** The loop of [r*]: match [r] once more and go on, or else stop.  An
    iteration must consume input; [n] bounds the number of iterations by
    the length of the input. *)
Fixpoint star_loop {A : Type}
    (step : list ascii -> (list ascii -> option A) -> option A)
    (k : list ascii -> option A) (n : nat) (l : list ascii) : option A :=
  match n with
  | O => k l
  | S n' =>
      match step l (fun l' => if (List.length l' <? List.length l)%nat
                              then star_loop step k n' l' else None) with
      | Some x => Some x
      | None => k l
      end
  end.

(** Python's [re] is a backtracking matcher: alternatives are tried left to
    right, [*] is greedy, and the first way to match the whole pattern wins.
    [k] is the continuation the rest of the pattern must satisfy. *)
Fixpoint re_match {A : Type} (r : regex) (l : list ascii)
    (k : list ascii -> option A) {struct r} : option A :=
  match r with
  | REps => k l
  | RSet neg ranges =>
      match l with
      | c :: l' => if in_set neg ranges c then k l' else None
      | [] => None
      end
  | RSeq r1 r2 => re_match r1 l (fun l' => re_match r2 l' k)
  | RAlt r1 r2 =>
      match re_match r1 l k with
      | Some x => Some x
      | None => re_match r2 l k
      end
  | RStar r' => star_loop (re_match r') k (S (List.length l)) l
  end.

(** [re.match(instring, loc)]: the matched text and the cursor after it. *)
Definition regex_match (r : regex) (c : cursor) : option (string * cursor) :=
  match re_match r (rest c) (fun l' => Some l') with
  | Some l' =>
      let n := (List.length (rest c) - List.length l')%nat in
      Some (string_of_list_ascii (firstn n (rest c)), advance n c)
  | None => None
  end.

Fixpoint starts_with (p l : list ascii) : bool :=
  match p, l with
  | [], _ => true
  | a :: p', b :: l' => Ascii.eqb a b && starts_with p' l'
  | _ :: _, [] => false
  end.

(** pyparsing's default whitespace characters, [" \n\t\r"]. *)
Definition is_white (c : ascii) : bool :=
  Ascii.eqb c " " || Ascii.eqb c (chr 10) || Ascii.eqb c (chr 9) || Ascii.eqb c (chr 13).

Fixpoint skip_white (p : option ascii) (l : list ascii) : cursor :=
  match l with
  | a :: l' => if is_white a then skip_white (Some a) l' else mkCursor p l
  | [] => mkCursor p l
  end.

(** [Keyword.DEFAULT_KEYWORD_CHARS]: [alphanums + "_$"]. *)
Definition is_identchar (c : ascii) : bool :=
  in_range "a" "z" c || in_range "A" "Z" c || in_range "0" "9" c
  || Ascii.eqb c "_" || Ascii.eqb c "$".

(** [str.expandtabs()], which [parseString] applies to its input: a tab
    becomes spaces up to the next multiple of 8 columns. *)
Fixpoint expandtabs_from (col : nat) (l : list ascii) : list ascii :=
  match l with
  | [] => []
  | a :: l' =>
      if Ascii.eqb a (chr 9)
      then repeat " "%char (8 - col mod 8) ++ expandtabs_from 0 l'
      else if Ascii.eqb a (chr 10) || Ascii.eqb a (chr 13)
      then a :: expandtabs_from 0 l'
      else a :: expandtabs_from (S col mod 8) l'
  end.
Definition expandtabs (l : list ascii) : list ascii := expandtabs_from 0 l.

(** ** pyparsing elements *)

(** The [Forward] objects of [parser.py]: the six named ones, and the
    [thisExpr] of each call of [make_unary_expr] and [make_binary_expr]. *)
Inductive fwd : Type :=
| FSentences | FExpr | FType | FNumber | FComment | FClass
| FUnary | FMul | FAdd | FConcat | FCompare | FLogical | FAssign.

(** A parse action receives the element's results and returns new tokens,
    [None] to keep them, or raises. *)
Definition action : Type := results -> res (option (list pyval)).

(** The element classes.  [ResultsName] and [ParseAction] stand for
    [setResultsName] and [setParseAction] on the element they wrap;
    [asList] is the element's [saveAsList] (true for [Group], for a named
    repetition and for a named [And] without a parse action).  [Shared e]
    marks an element object that the comment grammar shares with the
    expression grammar, so that it carries the ignore expression and skips
    whitespace whatever the context. *)
#[warnings="-register-all"]
Inductive pe : Type :=
| Literal (s : string)
| Keyword (s : string)
| Regex (r : regex)
| OneOf (syms : list string)
| And (es : list pe)
| MatchFirst (es : list pe)
| Optional (e : pe)
| ZeroOrMore (e : pe)
| OneOrMore (e : pe)
| NotAny (e : pe)
| FollowedBy (e : pe)
| Group (e : pe)
| Suppress (e : pe)
| Combine (e : pe)
| ResultsName (name : string) (asList : bool) (e : pe)
| ParseAction (f : action) (e : pe)
| Forward (f : fwd)
| Shared (e : pe).

(** What an element skips before it matches: [Full] is whitespace and
    comments (every element that [Sentences.ignore(Comment)] reaches),
    [WsOnly] whitespace alone (the elements of the comment grammar itself),
    [Adjacent] nothing (the copies [Combine] makes with [leaveWhitespace]). *)
Inductive mode : Type := Full | WsOnly | Adjacent.

Definition skips_comments (m : mode) : bool :=
  match m with Full => true | _ => false end.
Definition skips_white (m : mode) : bool :=
  match m with Adjacent => false | _ => true end.

(** [skipWhitespace] of an element: [NotAny] turns it off for itself, an
    [And] and the enhancing elements copy it from their (first) operand. *)
Fixpoint skipWhitespace (e : pe) : bool :=
  match e with
  | NotAny _ => false
  | And (e1 :: _) => skipWhitespace e1
  | Optional e1 | ZeroOrMore e1 | OneOrMore e1 | FollowedBy e1
  | Group e1 | Suppress e1 | ResultsName _ _ e1 | ParseAction _ e1 => skipWhitespace e1
  | _ => true
  end.

(** [oneOf] orders its symbols so that none hides a longer one: among the
    symbols that match, the longest is taken. *)
Fixpoint one_of_match (syms : list string) (l : list ascii) : option string :=
  match syms with
  | [] => None
  | s :: syms' =>
      let other := one_of_match syms' l in
      if starts_with (list_ascii_of_string s) l
      then match other with
           | Some s' => if (String.length s <? String.length s')%nat then Some s' else Some s
           | None => Some s
           end
      else other
  end.

Definition keyword_match (s : string) (c : cursor) : bool :=
  starts_with (list_ascii_of_string s) (rest c)
  && match skipn (String.length s) (rest c) with
     | a :: _ => negb (is_identchar a)
     | [] => true
     end
  && match prev c with
     | Some a => negb (is_identchar a)
     | None => true
     end.

(** [str(token)], as [Combine] applies it to the tokens it joins: a string
    is itself, a [SymbolNode] has no [__str__] and prints as its [__repr__],
    the symbol between backquotes.  No other kind of token occurs inside a
    [Combine] of this grammar. *)
Fixpoint as_string (v : pyval) : option string :=
  match v with
  | PStr s => Some s
  | SymbolNode s => Some ("`" ++ s ++ "`")%string
  | PResults t _ =>
      (fix join (l : list pyval) : option string :=
         match l with
         | [] => Some EmptyString
         | x :: l' =>
             match as_string x, join l' with
             | Some a, Some b => Some (a ++ b)%string
             | _, _ => None
             end
         end) t
  | _ => None
  end.

Definition combine_tokens (r : results) : res results :=
  match as_string (PResults (toks r) []) with
  | Some s => Ok (mkResults [PStr s] (named r))
  | None => Raise TypeError
  end.

Definition ends_with_star (name : string) : bool :=
  match rev (list_ascii_of_string name) with
  | a :: _ => Ascii.eqb a "*"
  | [] => false
  end.

Definition strip_star (name : string) : string :=
  if ends_with_star name
  then string_of_list_ascii (removelast (list_ascii_of_string name))
  else name.

(** [ParseResults(tokens, name, asList)]: what is stored under the name. *)
Definition set_name (name : string) (asList : bool) (e : pe) (r : results) : results :=
  let v :=
    if asList
    then match e, toks r with
         | Group _, [g] => g
         | _, _ => PResults (toks r) (named r)
         end
    else match toks r with
         | t :: _ => t
         | [] => PResults [] []
         end in
  mkResults (toks r) (named r ++ [(strip_star name, (ends_with_star name, v))]).

(** ** [ParserElement._parse] *)

Section Interpreter.

(** The definition of each [Forward], and the expression that
    [ignore(...)] registered. *)
Variable defs : fwd -> pe.
Variable ignoreExpr : pe.

(** A parse failure that alternation and repetition recover from. *)
Definition recoverable (e : exn) : bool :=
  match e with
  | ParseException | IndexError => true
  | _ => false
  end.

(** The recursive calls of one step of the interpreter. *)
Record calls : Type := mkCalls {
  call_parse : mode -> bool -> pe -> cursor -> res (cursor * results);
  call_many : mode -> bool -> pe -> cursor -> results -> res (cursor * results);
  call_skip : cursor -> res cursor
}.

(** [preParse]: skip the ignorable expressions, then the whitespace. *)
Definition preParse (k : calls) (m : mode) (white : bool) (c : cursor) : res cursor :=
  c1 <- (if skips_comments m then call_skip k c else Ok c) ;;
  Ok (if white && skips_white m then skip_white (prev c1) (rest c1) else c1).

(** [And.parseImpl]. *)
Fixpoint parse_seq (k : calls) (m : mode) (doActions : bool) (es : list pe)
    (c : cursor) (acc : results) : res (cursor * results) :=
  match es with
  | [] => Ok (c, acc)
  | e1 :: es' =>
      '(c1, r) <- call_parse k m doActions e1 c ;;
      parse_seq k m doActions es' c1 (add_results acc r)
  end.

(** [MatchFirst.parseImpl]. *)
Fixpoint parse_alt (k : calls) (m : mode) (doActions : bool) (es : list pe)
    (c : cursor) : res (cursor * results) :=
  match es with
  | [] => Raise ParseException
  | e1 :: es' =>
      match call_parse k m doActions e1 c with
      | Raise x => if recoverable x then parse_alt k m doActions es' c else Raise x
      | r => r
      end
  end.

(** [parse_step] is [_parseNoCache]: [preParse], the class's [parseImpl]
    and [postParse], the results name and the parse action.  Elements whose
    own [preParse] is always followed by the same [preParse] of their first
    operand ([And], [MatchFirst], [OneOrMore], [Group], [Suppress],
    [Forward], the copies made by [setResultsName]) leave it to the operand:
    skipping twice from the same place stops at the same place.
    [doActions] is false below [FollowedBy] and [NotAny] ([tryParse]). *)
Definition parse_step (k : calls) (m : mode) (doActions : bool) (e : pe) (c : cursor)
    : res (cursor * results) :=
  match e with
  | Literal s =>
      c1 <- preParse k m true c ;;
      if starts_with (list_ascii_of_string s) (rest c1)
      then Ok (advance (String.length s) c1, one_token (PStr s))
      else Raise ParseException
  | Keyword s =>
      c1 <- preParse k m true c ;;
      if keyword_match s c1
      then Ok (advance (String.length s) c1, one_token (PStr s))
      else Raise ParseException
  | Regex r =>
      c1 <- preParse k m true c ;;
      match regex_match r c1 with
      | Some (s, c2) => Ok (c2, one_token (PStr s))
      | None => Raise ParseException
      end
  | OneOf syms =>
      c1 <- preParse k m true c ;;
      match one_of_match syms (rest c1) with
      | Some s => Ok (advance (String.length s) c1, one_token (PStr s))
      | None => Raise ParseException
      end
  | And es => parse_seq k m doActions es c no_results
  | MatchFirst es => parse_alt k m doActions es c
  | Optional e1 =>
      c1 <- preParse k m (skipWhitespace e1) c ;;
      match call_parse k m doActions e1 c1 with
      | Raise x => if recoverable x then Ok (c1, no_results) else Raise x
      | r => r
      end
  | ZeroOrMore e1 =>
      c1 <- preParse k m (skipWhitespace e1) c ;;
      match call_parse k m doActions e1 c1 with
      | Ok (c2, r) => call_many k m doActions e1 c2 r
      | Raise x => if recoverable x then Ok (c1, no_results) else Raise x
      | OutOfFuel => OutOfFuel
      end
  | OneOrMore e1 =>
      '(c2, r) <- call_parse k m doActions e1 c ;;
      call_many k m doActions e1 c2 r
  | NotAny e1 =>
      c1 <- preParse k m false c ;;
      match call_parse k m false e1 c1 with
      | Ok _ => Raise ParseException
      | Raise x =>
          match x with
          | ParseException | IndexError | ParseFatalException => Ok (c1, no_results)
          | _ => Raise x
          end
      | OutOfFuel => OutOfFuel
      end
  | FollowedBy e1 =>
      c1 <- preParse k m (skipWhitespace e1) c ;;
      match call_parse k m false e1 c1 with
      | Ok _ => Ok (c1, no_results)
      | Raise ParseFatalException => Raise ParseException
      | Raise x => Raise x
      | OutOfFuel => OutOfFuel
      end
  | Group e1 =>
      '(c1, r) <- call_parse k m doActions e1 c ;;
      Ok (c1, one_token (PResults (toks r) (named r)))
  | Suppress e1 =>
      '(c1, _) <- call_parse k m doActions e1 c ;;
      Ok (c1, no_results)
  | Combine e1 =>
      c1 <- preParse k m true c ;;
      '(c2, r) <- call_parse k Adjacent doActions e1 c1 ;;
      r' <- combine_tokens r ;;
      Ok (c2, r')
  | ResultsName name asList e1 =>
      '(c1, r) <- call_parse k m doActions e1 c ;;
      Ok (c1, set_name name asList e1 r)
  | ParseAction f e1 =>
      '(c1, r) <- call_parse k m doActions e1 c ;;
      if doActions
      then o <- f r ;;
           match o with
           | Some l => Ok (c1, mkResults l [])
           | None => Ok (c1, r)
           end
      else Ok (c1, r)
  | Forward f => call_parse k m doActions (defs f) c
  | Shared e1 => call_parse k Full doActions e1 c
  end.

(** The loop of [ZeroOrMore] and [OneOrMore] after the first match: skip
    the ignorable expressions, match once more, and stop at the first
    failure, at the place reached before it. *)
Definition many_step (k : calls) (m : mode) (doActions : bool) (e : pe) (c : cursor)
    (acc : results) : res (cursor * results) :=
  c1 <- (if skips_comments m then call_skip k c else Ok c) ;;
  match call_parse k m doActions e c1 with
  | Ok (c2, r) => call_many k m doActions e c2 (add_results acc r)
  | Raise x => if recoverable x then Ok (c, acc) else Raise x
  | OutOfFuel => OutOfFuel
  end.

(** [_skipIgnorables]: match the ignore expression as often as it
    matches. *)
Definition skip_step (k : calls) (c : cursor) : res cursor :=
  match call_parse k WsOnly true ignoreExpr c with
  | Ok (c1, _) => call_skip k c1
  | Raise ParseException => Ok c
  | Raise x => Raise x
  | OutOfFuel => OutOfFuel
  end.

(** The interpreter with a bound on the depth of its calls. *)
Fixpoint run (fuel : nat) : calls :=
  match fuel with
  | O => mkCalls (fun _ _ _ _ => OutOfFuel) (fun _ _ _ _ _ => OutOfFuel) (fun _ => OutOfFuel)
  | S n =>
      let k := run n in
      mkCalls (parse_step k) (many_step k) (skip_step k)
  end.

Definition parse (fuel : nat) := call_parse (run fuel).
Definition many (fuel : nat) := call_many (run fuel).
Definition skipIgnorables (fuel : nat) := call_skip (run fuel).

(** [parseString(text, parseAll=True)]: expand tabs, parse from the start,
    then [preParse] once more and require [StringEnd]. *)
Definition parseString (fuel : nat) (e : pe) (text : string) : res results :=
  '(c1, r) <- parse fuel Full true e (mkCursor None (expandtabs (list_ascii_of_string text))) ;;
  c2 <- skipIgnorables fuel c1 ;;
  match rest (skip_white (prev c2) (rest c2)) with
  | [] => Ok r
  | _ :: _ => Raise ParseException
  end.

End Interpreter.

(** ** Python operations used by the parse actions *)

(** Truth value of an object; a [ParseResults] is true when it has tokens,
    a node object is always true. *)
Definition truthy (v : pyval) : bool :=
  match v with
  | PNone => false
  | PBool b => b
  | PInt z => negb (z =? 0)%Z
  | PFloat q => negb (Qeq_bool q 0)
  | PStr s => negb (String.eqb s EmptyString)
  | PTuple l => match l with [] => false | _ => true end
  | PResults t _ => match t with [] => false | _ => true end
  | _ => true
  end.

Definition chars_of (s : string) : list pyval :=
  map (fun a => PStr (String a EmptyString)) (list_ascii_of_string s).

(** Iteration ([tuple(x)], [for ... in x], unpacking): the items of a
    sequence, [TypeError] for an object that is not iterable. *)
Definition py_iter (v : pyval) : res (list pyval) :=
  match v with
  | PTuple l => Ok l
  | PResults t _ => Ok t
  | PStr s => Ok (chars_of s)
  | _ => Raise TypeError
  end.

(** [a, b, ... = v] with [n] targets: [ValueError] when the number of
    items differs. *)
Definition unpack (n : nat) (v : pyval) : res (list pyval) :=
  l <- py_iter v ;;
  if (List.length l =? n)%nat then Ok l else Raise ValueError.

(** [v[i]] for a non-negative index. *)
Definition py_index (v : pyval) (i : nat) : res pyval :=
  match v with
  | PTuple l | PResults l _ =>
      match nth_error l i with Some x => Ok x | None => Raise IndexError end
  | PStr s =>
      match nth_error (chars_of s) i with Some x => Ok x | None => Raise IndexError end
  | _ => Raise TypeError
  end.

(** [len(v)]. *)
Definition py_len (v : pyval) : res nat :=
  match v with
  | PTuple l | PResults l _ => Ok (List.length l)
  | PStr s => Ok (String.length s)
  | _ => Raise TypeError
  end.

(** [v + 1] ([v += 1] on an immutable number): [bool] is a subclass of
    [int]; anything that is not a number raises [TypeError]. *)
Definition py_add1 (v : pyval) : res pyval :=
  match v with
  | PInt z => Ok (PInt (z + 1))
  | PBool b => Ok (PInt ((if b then 1 else 0) + 1))
  | PFloat q => Ok (PFloat (q + 1))
  | _ => Raise TypeError
  end.

(** [x or []] followed by [tuple(...)], as in [tuple(body or [])]. *)
Definition tuple_or_empty (v : pyval) : res (list pyval) :=
  if truthy v then py_iter v else Ok [].

(** Keyword arguments: [kw_get] is the value bound to a parameter, with its
    default; [bind_kwargs] raises [TypeError] for an unexpected keyword or
    a missing required parameter, as the call [cls( **r )] does. *)
Fixpoint kw_find (k : string) (kw : list (string * pyval)) : option pyval :=
  match kw with
  | [] => None
  | (k', v) :: kw' => if String.eqb k k' then Some v else kw_find k kw'
  end.

Definition kw_get (kw : list (string * pyval)) (k : string) (default : pyval) : pyval :=
  match kw_find k kw with Some v => v | None => default end.

Definition bind_kwargs (required optional : list string) (kw : list (string * pyval))
    : res unit :=
  if forallb (fun p => existsb (String.eqb (fst p)) (required ++ optional)) kw
     && forallb (fun k => match kw_find k kw with Some _ => true | None => false end) required
  then Ok tt
  else Raise TypeError.

(** [zip] of two and of three sequences. *)
Fixpoint zip2 (a b : list pyval) : list pyval :=
  match a, b with
  | x :: a', y :: b' => PTuple [x; y] :: zip2 a' b'
  | _, _ => []
  end.

Fixpoint zip3 (a b c : list pyval) : list (pyval * pyval * pyval) :=
  match a, b, c with
  | x :: a', y :: b', z :: c' => (x, y, z) :: zip3 a' b' c'
  | _, _, _ => []
  end.

(** [mapM] over a list, stopping at the first exception. *)
Fixpoint mapM {A B : Type} (f : A -> res B) (l : list A) : res (list B) :=
  match l with
  | [] => Ok []
  | x :: l' => y <- f x ;; ys <- mapM f l' ;; Ok (y :: ys)
  end.

(** ** [nodes.py] *)

Module Nodes.

Definition kwargs : Type := list (string * pyval).

(** [assert_symbol]. *)
Definition assert_symbol (obj : pyval) : res unit :=
  match obj with
  | PNone | SymbolNode _ => Ok tt
  | _ => Raise AssertionError
  end.

(** [Node.parse]: build the node from the named results; a [TypeError]
    raised by the call becomes the failure of [assert False]. *)
Definition Node_parse (init : kwargs -> res pyval) : action :=
  fun r =>
    match init (kwargs_of r) with
    | Ok v => Ok (Some [v])
    | Raise TypeError => Raise AssertionError
    | Raise e => Raise e
    | OutOfFuel => OutOfFuel
    end.

Definition guard_TypeError {A : Type} (m : res A) : res A :=
  match m with
  | Raise TypeError => Raise AssertionError
  | _ => m
  end.

(** [SymbolNode.parse] and [SymbolNode.__init__]. *)
Definition SymbolNode_parse : action :=
  fun r =>
    match toks r with
    | SymbolNode s :: _ => Ok (Some [SymbolNode s])
    | PStr s :: _ => Ok (Some [SymbolNode s])
    | _ :: _ => Raise AssertionError
    | [] => Raise IndexError
    end.

(** [ExprNode.ternary_op]. *)
Definition ternary_op : pyval := SymbolNode "?()".

(** [ExprNode.parse_as_unary], [parse_as_binary], [parse_as_ternary]: the
    unpacking of [r[0]] raises [ValueError] when the group does not have
    exactly the expected number of tokens, which the [except TypeError]
    clause does not catch. *)
Definition first_token (r : results) : res pyval :=
  match toks r with
  | t :: _ => Ok t
  | [] => Raise IndexError
  end.

Definition parse_as_unary : action :=
  fun r =>
    g <- first_token r ;;
    l <- guard_TypeError (unpack 2 g) ;;
    match l with
    | [op; expr] => Ok (Some [ExprNode op [expr]])
    | _ => Raise ValueError
    end.

Definition parse_as_binary : action :=
  fun r =>
    g <- first_token r ;;
    l <- guard_TypeError (unpack 3 g) ;;
    match l with
    | [left_; op; right_] => Ok (Some [ExprNode op [left_; right_]])
    | _ => Raise ValueError
    end.

Definition parse_as_ternary : action :=
  fun r =>
    g <- first_token r ;;
    l <- guard_TypeError (unpack 3 g) ;;
    match l with
    | [cond; true_body; false_body] =>
        Ok (Some [ExprNode ternary_op [cond; true_body; false_body]])
    | _ => Raise ValueError
    end.

(** [ValueNode.parse]: [cls(r)], with [range = tuple(r)]. *)
Definition ValueNode_parse : action :=
  fun r => Ok (Some [ValueNode (toks r)]).

Definition ArrayNode_init (kw : kwargs) : res pyval :=
  _ <- bind_kwargs ["array"; "index"] [] kw ;;
  Ok (ArrayNode (kw_get kw "array" PNone) (kw_get kw "index" PNone)).

Definition NewNode_init (kw : kwargs) : res pyval :=
  _ <- bind_kwargs ["type"] [] kw ;;
  Ok (NewNode (kw_get kw "type" PNone)).

Definition IfNode_init (kw : kwargs) : res pyval :=
  _ <- bind_kwargs ["then_cond"]
         ["then_body"; "elif_cond"; "elif_body"; "else_body"; "block_name"] kw ;;
  let then_cond := kw_get kw "then_cond" PNone in
  let then_body := kw_get kw "then_body" PNone in
  let elif_cond := kw_get kw "elif_cond" PNone in
  let elif_body := kw_get kw "elif_body" PNone in
  let else_body := kw_get kw "else_body" PNone in
  let block_name := kw_get kw "block_name" PNone in
  _ <- assert_symbol block_name ;;
  tb <- tuple_or_empty then_body ;;
  let clauses := [PTuple [then_cond; PTuple tb]] in
  clauses <-
    (if truthy elif_cond && truthy elif_body
     then lc <- py_len elif_cond ;;
          lb <- py_len elif_body ;;
          if (lc =? lb)%nat
          then cs <- py_iter elif_cond ;;
               bs <- py_iter elif_body ;;
               Ok (clauses ++ zip2 cs bs)
          else Raise AssertionError
     else match elif_cond, elif_body with
          | PNone, PNone => Ok clauses
          | _, _ => Raise AssertionError
          end) ;;
  clauses <-
    (if truthy else_body
     then eb <- py_iter else_body ;; Ok (clauses ++ [PTuple [PNone; PTuple eb]])
     else Ok clauses) ;;
  Ok (IfNode clauses block_name).

Definition SwitchNode_init (kw : kwargs) : res pyval :=
  _ <- bind_kwargs ["target"] ["case"; "block_name"] kw ;;
  let block_name := kw_get kw "block_name" PNone in
  _ <- assert_symbol block_name ;;
  cases <- py_iter (kw_get kw "case" PNone) ;;
  cs <- mapM (fun c =>
                c0 <- py_index c 0 ;;
                v <- py_index c0 0 ;;
                b <- py_index c0 1 ;;
                bt <- py_iter b ;;
                Ok (PTuple [v; PTuple bt])) cases ;;
  Ok (SwitchNode (kw_get kw "target" PNone) cs block_name).

(** [WhileNode.__init__(self, cond, skip=None, body=None)]: there is no
    [block_name] parameter. *)
Definition WhileNode_init (kw : kwargs) : res pyval :=
  _ <- bind_kwargs ["cond"] ["skip"; "body"] kw ;;
  body <- tuple_or_empty (kw_get kw "body" PNone) ;;
  Ok (WhileNode (kw_get kw "cond" PNone) (kw_get kw "skip" PNone) body).

Definition ForNode_init (kw : kwargs) : res pyval :=
  _ <- bind_kwargs ["start"; "end"] ["step"; "block_name"; "body"] kw ;;
  let block_name := kw_get kw "block_name" PNone in
  _ <- assert_symbol block_name ;;
  body <- tuple_or_empty (kw_get kw "body" PNone) ;;
  Ok (ForNode (kw_get kw "start" PNone) (kw_get kw "end" PNone)
              (kw_get kw "step" PNone) block_name body).

Definition ForeachNode_init (kw : kwargs) : res pyval :=
  _ <- bind_kwargs ["items"] ["block_name"; "body"] kw ;;
  let block_name := kw_get kw "block_name" PNone in
  _ <- assert_symbol block_name ;;
  body <- tuple_or_empty (kw_get kw "body" PNone) ;;
  Ok (ForeachNode (kw_get kw "items" PNone) block_name body).

Definition TryNode_init (kw : kwargs) : res pyval :=
  _ <- bind_kwargs []
         ["block_name"; "ignore_value"; "body"; "catch_value"; "catch_body";
          "finally_body"] kw ;;
  let block_name := kw_get kw "block_name" PNone in
  _ <- assert_symbol block_name ;;
  body <- tuple_or_empty (kw_get kw "body" PNone) ;;
  catch_body <- tuple_or_empty (kw_get kw "catch_body" PNone) ;;
  finally_body <- tuple_or_empty (kw_get kw "finally_body" PNone) ;;
  Ok (TryNode block_name (kw_get kw "ignore_value" PNone) body
              (kw_get kw "catch_value" PNone) catch_body finally_body).

(** [IfdefNode.release] and [IfdefNode.debug]. *)
Definition release : pyval := SymbolNode "release".
Definition debug : pyval := SymbolNode "debug".

Definition IfdefNode_init (kw : kwargs) : res pyval :=
  _ <- bind_kwargs ["mode"] ["block_name"; "body"] kw ;;
  let block_name := kw_get kw "block_name" PNone in
  _ <- assert_symbol block_name ;;
  body <- tuple_or_empty (kw_get kw "body" PNone) ;;
  Ok (IfdefNode (kw_get kw "mode" PNone) block_name body).

Definition BlockNode_init (kw : kwargs) : res pyval :=
  _ <- bind_kwargs [] ["block_name"; "body"] kw ;;
  let block_name := kw_get kw "block_name" PNone in
  _ <- assert_symbol block_name ;;
  body <- tuple_or_empty (kw_get kw "body" PNone) ;;
  Ok (BlockNode block_name body).

Definition DoNode_init (kw : kwargs) : res pyval :=
  _ <- bind_kwargs ["expr"] [] kw ;;
  Ok (DoNode (kw_get kw "expr" PNone)).

Definition BreakNode_init (kw : kwargs) : res pyval :=
  _ <- bind_kwargs [] ["block_name"] kw ;;
  let block_name := kw_get kw "block_name" PNone in
  _ <- assert_symbol block_name ;;
  Ok (BreakNode block_name).

Definition ContinueNode_init (kw : kwargs) : res pyval :=
  _ <- bind_kwargs [] ["block_name"] kw ;;
  let block_name := kw_get kw "block_name" PNone in
  _ <- assert_symbol block_name ;;
  Ok (ContinueNode block_name).

Definition ReturnNode_init (kw : kwargs) : res pyval :=
  _ <- bind_kwargs [] ["value"] kw ;;
  Ok (ReturnNode (kw_get kw "value" PNone)).

Definition AssertNode_init (kw : kwargs) : res pyval :=
  _ <- bind_kwargs ["expr"] [] kw ;;
  Ok (AssertNode (kw_get kw "expr" PNone)).

Definition ThrowNode_init (kw : kwargs) : res pyval :=
  _ <- bind_kwargs ["code"] ["message"] kw ;;
  Ok (ThrowNode (kw_get kw "code" PNone) (kw_get kw "message" PNone)).

Definition FuncNode_init (kw : kwargs) : res pyval :=
  _ <- bind_kwargs ["funcname"] ["args"] kw ;;
  args <- tuple_or_empty (kw_get kw "args" PNone) ;;
  Ok (FuncNode (kw_get kw "funcname" PNone) args).

Definition VarNode_init (kw : kwargs) : res pyval :=
  _ <- bind_kwargs ["varname"; "typename"] ["value"] kw ;;
  let varname := kw_get kw "varname" PNone in
  _ <- assert_symbol varname ;;
  Ok (VarNode varname (kw_get kw "typename" PNone) (kw_get kw "value" PNone)).

Definition ConstNode_init (kw : kwargs) : res pyval :=
  _ <- bind_kwargs ["varname"; "typename"; "value"] [] kw ;;
  Ok (ConstNode (kw_get kw "varname" PNone) (kw_get kw "typename" PNone)
                (kw_get kw "value" PNone)).

Definition AliasNode_init (kw : kwargs) : res pyval :=
  _ <- bind_kwargs ["alias"; "typename"] [] kw ;;
  Ok (AliasNode (kw_get kw "alias" PNone) (kw_get kw "typename" PNone)).

(** The three [__init__(self, **kw): pass] classes accept any keywords. *)
Definition CollectionTypeNode_init (kw : kwargs) : res pyval := Ok CollectionTypeNode.
Definition DictTypeNode_init (kw : kwargs) : res pyval := Ok DictTypeNode.
Definition FuncTypeNode_init (kw : kwargs) : res pyval := Ok FuncTypeNode.

Definition ArrayTypeNode_init (kw : kwargs) : res pyval :=
  _ <- bind_kwargs ["base_type"; "size"] [] kw ;;
  size <- py_iter (kw_get kw "size" PNone) ;;
  Ok (ArrayTypeNode (kw_get kw "base_type" PNone) size).

(** [ClassNode.Member.__init__]. *)
Definition Member_init (m v o : pyval) : pyval :=
  ClassMember m (if truthy v then v else PStr EmptyString)
              (match o with PNone => false | _ => true end).

Definition ClassNode_init (kw : kwargs) : res pyval :=
  _ <- bind_kwargs ["name"] ["parent"; "member"; "visibility"; "override"] kw ;;
  let member := kw_get kw "member" PNone in
  members <-
    (if truthy member
     then ms <- py_iter member ;;
          n <- py_len member ;;
          vs <- match kw_get kw "visibility" PNone with
                | PNone => Ok (repeat PNone n)
                | v => py_iter v
                end ;;
          os <- match kw_get kw "override" PNone with
                | PNone => Ok (repeat PNone n)
                | o => py_iter o
                end ;;
          Ok (map (fun t => match t with (m, v, o) => Member_init m v o end)
                  (zip3 ms vs os))
     else Ok []) ;;
  Ok (ClassNode (kw_get kw "name" PNone) (kw_get kw "parent" PNone) members).

(** The loop of [EnumNode.__init__], from the current counter: a member
    without a value takes the counter; a member with a value sets the
    counter to it; the counter is then advanced by [current_value += 1].
    Each key is a fresh [SymbolNode] object, so the ordered dictionary
    gains one entry per member. *)
Fixpoint enum_members (current_value : pyval) (member : list pyval)
    : res (list (pyval * pyval)) :=
  match member with
  | [] => Ok []
  | kv :: member' =>
      l <- unpack 2 kv ;;
      match l with
      | [key; value] =>
          let value' := match value with PNone => current_value | _ => value end in
          next <- py_add1 value' ;;
          tl <- enum_members next member' ;;
          Ok ((key, value') :: tl)
      | _ => Raise ValueError
      end
  end.

Definition EnumNode_init (kw : kwargs) : res pyval :=
  _ <- bind_kwargs ["name"; "member"] [] kw ;;
  member <- py_iter (kw_get kw "member" PNone) ;;
  ms <- enum_members (PInt 0) member ;;
  Ok (EnumNode (kw_get kw "name" PNone) ms).

End Nodes.

(** ** [parser.py] *)

Module Grammar.

Import Nodes.

Definition str (s : string) : list ascii := list_ascii_of_string s.
Definition dquote : ascii := chr 34.
Definition squote : ascii := chr 39.
Definition backslash : ascii := chr 92.

(** *** Punctuation *)

Definition LPAREN : pe := Suppress (Literal "(").
Definition RPAREN : pe := Suppress (Literal ")").
Definition LBRACK : pe := Suppress (Literal "[").
Definition RBRACK : pe := Suppress (Literal "]").
Definition LABRACK : pe := Suppress (Literal "<").
Definition RABRACK : pe := Suppress (Literal ">").
Definition COMMA : pe := Suppress (Literal ",").
Definition COLON : pe := Suppress (Literal ":").
Definition DCOLON : pe := Suppress (Literal "::").

Definition keyword_list : list string :=
  [ "if"; "elif"; "else";
    "switch"; "case"; "default";
    "while"; "for"; "foreach";
    "try"; "catch"; "finally";
    "ifdef"; "release"; "debug";
    "block"; "end";
    "break"; "continue";
    "return"; "do"; "throw";
    "func"; "class"; "enum";
    "var"; "const"; "alias";
    "import"; "assert";
    "true"; "false" ].

(** [KEYWORDS = oneOf([...])]: a match of any keyword at the position,
    whatever follows it. *)
Definition KEYWORDS : pe := OneOf keyword_list.

(** *** Identifiers *)

Definition letters_ : list (ascii * ascii) :=
  [("A", "Z"); ("a", "z"); ("_", "_")]%char.
Definition alnum_ : list (ascii * ascii) :=
  [("0", "9"); ("A", "Z"); ("a", "z"); ("_", "_")]%char.

(** [[A-Za-z_][0-9A-Za-z_]*] *)
Definition name_re : regex := RSeq (RSet false letters_) (RStar (RSet false alnum_)).

Definition Name : pe :=
  ParseAction SymbolNode_parse (And [NotAny KEYWORDS; Regex name_re]).

(** [[^\x20\x09-\x0D]+] *)
Definition SourceName : pe :=
  Regex (RPlus (RSet true [(" "%char, " "%char); (chr 9, chr 13)])).

(** [setName] returns the element itself: the seven names below are the
    one object [Name]. *)
Definition BlockName : pe := Name.
Definition CName : pe := Name.
Definition FName : pe := Name.
Definition VName : pe := Name.
Definition EName : pe := Name.
Definition ConstName : pe := Name.

Definition ClassName : pe :=
  ParseAction SymbolNode_parse
    (Combine (And [Optional (And [SourceName; Literal "@"]);
                   ZeroOrMore (And [CName; Literal "."]);
                   CName])).

Definition FunctionName : pe :=
  ParseAction SymbolNode_parse
    (Combine (And [Optional (And [ClassName; Literal "."]); FName])).

Definition VariableName : pe :=
  ParseAction SymbolNode_parse
    (Combine (And [Optional (And [ClassName; Literal "."]); VName])).

Definition EnumName : pe :=
  ParseAction SymbolNode_parse
    (Combine (And [Optional (And [ClassName; Literal "#"]); EName])).

Definition ConstantName : pe :=
  ParseAction SymbolNode_parse
    (MatchFirst
       [Combine (And [Optional (And [ClassName; Literal "."]); ConstName]);
        Combine (And [EnumName; Literal "#"; ConstName])]).

(** *** Types *)

Definition PrimitiveType : pe :=
  ParseAction SymbolNode_parse
    (MatchFirst [OneOf ["int"; "float"; "char"; "bool"];
                 OneOf ["byte8"; "byte16"; "byte32"; "byte64"];
                 OneOf ["sbyte8"; "sbyte16"; "sbyte32"; "sbyte64"]]).

Definition Type_ : pe := Forward FType.
Definition Expr : pe := Forward FExpr.
Definition Sentences : pe := Forward FSentences.

Definition ListType : pe :=
  ParseAction (Node_parse CollectionTypeNode_init)
    (And [Keyword "list"; LABRACK; ResultsName "item_type" false Type_; RABRACK]).

Definition StackType : pe :=
  ParseAction (Node_parse CollectionTypeNode_init)
    (And [Keyword "stack"; LABRACK; ResultsName "item_type" false Type_; RABRACK]).

Definition QueueType : pe :=
  ParseAction (Node_parse CollectionTypeNode_init)
    (And [Keyword "queue"; LABRACK; ResultsName "item_type" false Type_; RABRACK]).

Definition DictType : pe :=
  ParseAction (Node_parse DictTypeNode_init)
    (And [Keyword "dict"; LABRACK; ResultsName "keytype" false Type_; COMMA;
          ResultsName "valtype" false Type_; RABRACK]).

(** [delimitedList(expr)]: [expr + ZeroOrMore(Suppress(",") + expr)]. *)
Definition delimitedList (e : pe) : pe :=
  And [e; ZeroOrMore (And [Suppress (Literal ","); e])].

Definition FuncType : pe :=
  ParseAction (Node_parse FuncTypeNode_init)
    (And [Keyword "func"; LABRACK; LPAREN;
          ResultsName "argtype*" true (delimitedList Type_); RPAREN;
          COLON; ResultsName "rettype" false Type_; RABRACK]).

Definition array_size_action : action :=
  fun r =>
    match toks r with
    | [] => Ok (Some [PNone])
    | [x] => Ok (Some [x])
    | _ => Raise AssertionError
    end.

Definition ArrayType : pe :=
  ParseAction (Node_parse ArrayTypeNode_init)
    (And [ResultsName "size" true
            (OneOrMore (ParseAction array_size_action
                          (And [LBRACK; Optional Expr; RBRACK])));
          ResultsName "base_type" false Type_]).

Definition Type_def : pe :=
  MatchFirst [PrimitiveType; EnumName; ClassName;
              ListType; StackType; QueueType; DictType;
              FuncType; ArrayType].

(** *** Literals *)

(** [re.sub(r'\\(.)', repl, s)]: a backslash and the character after it
    (any but a newline) become what the escape stands for. *)
Definition repl (esc : ascii) : ascii :=
  if Ascii.eqb esc "n" then chr 10
  else if Ascii.eqb esc "r" then chr 13
  else esc.

Fixpoint unescape (l : list ascii) : list ascii :=
  match l with
  | [] => []
  | a :: l1 =>
      if Ascii.eqb a backslash
      then match l1 with
           | c :: l2 => if Ascii.eqb c (chr 10) then a :: unescape l1
                        else repl c :: unescape l2
           | [] => [a]
           end
      else a :: unescape l1
  end.

(** [string_action]: [r[0][1:-1]] unescaped. *)
Definition string_action : action :=
  fun r =>
    match toks r with
    | PStr s :: _ =>
        Ok (Some [PStr (string_of_list_ascii
                          (unescape (removelast (tl (list_ascii_of_string s)))))])
    | _ :: _ => Raise TypeError
    | [] => Raise IndexError
    end.

Definition char_action : action := string_action.

(** A double quote, then [(\\.|[^Q])*] where [Q] is the double quote, then
    a double quote. *)
Definition string_re : regex :=
  RSeq (RChr dquote)
       (RSeq (RStar (RAlt (RSeq (RChr backslash) RAny) (RSet true [(dquote, dquote)])))
             (RChr dquote)).

(** ['(\\.|[^'])'] *)
Definition char_re : regex :=
  RSeq (RChr squote)
       (RSeq (RAlt (RSeq (RChr backslash) RAny) (RSet true [(squote, squote)]))
             (RChr squote)).

Definition String_ : pe := ParseAction string_action (Regex string_re).
Definition Char : pe := ParseAction char_action (Regex char_re).

Definition Boolean : pe :=
  MatchFirst [ParseAction (fun _ => Ok (Some [PBool true])) (Keyword "true");
              ParseAction (fun _ => Ok (Some [PBool false])) (Keyword "false")].

(** Python's [int(text, radix)] on the text the number regexes let through
    (digits and capital letters, no sign, no blanks): the value in that
    radix, [None] for [ValueError].  As Python does, it skips a base prefix
    [0b], [0o] or [0x] (either case) when the radix is 2, 8 or 16. *)
Definition digit_value (c : ascii) : option Z :=
  let n := Z.of_N (N_of_ascii c) in
  if in_range "0" "9" c then Some (n - 48)%Z
  else if in_range "A" "Z" c then Some (n - 55)%Z
  else if in_range "a" "z" c then Some (n - 87)%Z
  else None.

Fixpoint digits_value (radix : Z) (l : list ascii) (acc : Z) : option Z :=
  match l with
  | [] => Some acc
  | c :: l' =>
      match digit_value c with
      | Some d => if (d <? radix)%Z then digits_value radix l' (acc * radix + d)%Z else None
      | None => None
      end
  end.

Definition is_base_prefix (radix : Z) (c : ascii) : bool :=
  ((radix =? 2)%Z && (Ascii.eqb c "b" || Ascii.eqb c "B"))
  || ((radix =? 8)%Z && (Ascii.eqb c "o" || Ascii.eqb c "O"))
  || ((radix =? 16)%Z && (Ascii.eqb c "x" || Ascii.eqb c "X")).

Definition py_int (text : list ascii) (radix : Z) : option Z :=
  let digits :=
    match text with
    | z :: c :: l' =>
        if Ascii.eqb z "0" && is_base_prefix radix c then l' else text
    | _ => text
    end in
  match digits with
  | [] => None
  | _ => digits_value radix digits 0
  end.

(** [s.split(sep, 1)] when [sep] occurs in [s]. *)
Fixpoint split_once (sep : ascii) (l : list ascii) : option (list ascii * list ascii) :=
  match l with
  | [] => None
  | a :: l' =>
      if Ascii.eqb a sep then Some ([], l')
      else match split_once sep l' with
           | Some (x, y) => Some (a :: x, y)
           | None => None
           end
  end.

(** [int(x)] of a number: a float is truncated towards zero. *)
Definition int_of (v : pyval) : res Z :=
  match v with
  | PInt z => Ok z
  | PBool b => Ok (if b then 1 else 0)%Z
  | PFloat q => Ok (Z.quot (Qnum q) (Zpos (Qden q)))
  | _ => Raise TypeError
  end.

Definition float_of (v : pyval) : Q :=
  match v with
  | PInt z => inject_Z z
  | PFloat q => q
  | _ => 0
  end.

Definition negate (v : pyval) : pyval :=
  match v with
  | PInt z => PInt (- z)
  | PFloat q => PFloat (- q)
  | _ => v
  end.

(** [number_action].  [math.pow] is exact here; its overflow is not
    modelled. *)
Definition number_action : action :=
  fun r =>
    let sign := r_get r "sign" (PStr EmptyString) in
    body <- r_item r "body" ;;
    let precision := r_get r "precision" (PStr EmptyString) in
    match body with
    | PStr body =>
        let body := list_ascii_of_string body in
        '(radix, body) <-
          match split_once "#" body with
          | Some (radix, body) =>
              match radix with
              | [] => Ok (16%Z, body)
              | _ =>
                  match py_int radix 10 with
                  | Some radix =>
                      if negb ((2 <=? radix)%Z && (radix <=? 36)%Z)
                         || (radix =? 10)%Z || (radix =? 16)%Z
                      then Raise ParseFatalException
                      else Ok (radix, body)
                  | None => Raise ValueError
                  end
              end
          | None => Ok (10%Z, body)
          end ;;
        num <-
          match split_once "." body with
          | Some (ipart, fpart) =>
              match py_int ipart radix, py_int fpart radix with
              | Some i, Some f =>
                  Ok (PFloat (inject_Z i
                              + inject_Z f / Qpower (inject_Z radix)
                                                    (Z.of_nat (List.length fpart))))
              | _, _ => Raise ParseFatalException
              end
          | None =>
              match py_int body radix with
              | Some n => Ok (PInt n)
              | None => Raise ParseFatalException
              end
          end ;;
        num <-
          (if truthy precision
           then p <- int_of precision ;;
                Ok (PFloat (float_of num * Qpower (inject_Z radix) p))
           else Ok num) ;;
        Ok (Some [if match sign with PStr s => String.eqb s "-" | _ => false end
                  then negate num else num])
    | _ => Raise TypeError
    end.

Definition digit09 : regex := RSet false [("0", "9")]%char.
Definition digit0Z : regex := RSet false [("0", "9"); ("A", "Z")]%char.
Definition digit0F : regex := RSet false [("0", "9"); ("A", "F")]%char.

(** [([1-9][0-9]?)#([0-9A-Z]+)(?:\.([0-9A-Z]+))?] *)
Definition BaseX : pe :=
  Regex (RSeq (RSeq (RSet false [("1", "9")]%char) (ROpt digit09))
              (RSeq (RChr "#")
                    (RSeq (RPlus digit0Z) (ROpt (RSeq (RChr ".") (RPlus digit0Z)))))).

(** [([0-9]+)(?:\.([0-9]+))?] *)
Definition Base10 : pe :=
  Regex (RSeq (RPlus digit09) (ROpt (RSeq (RChr ".") (RPlus digit09)))).

(** [#([0-9A-F]+)(?:\.([0-9A-F]+))?] *)
Definition Base16 : pe :=
  Regex (RSeq (RChr "#")
              (RSeq (RPlus digit0F) (ROpt (RSeq (RChr ".") (RPlus digit0F))))).

Definition NonNegativeNumber : pe := MatchFirst [BaseX; Base10; Base16].

Definition Number : pe := Forward FNumber.

Definition Number_def : pe :=
  ParseAction number_action
    (And [Optional (ResultsName "sign" false (Regex (RSet false [("+", "+"); ("-", "-")]%char)));
          ResultsName "body" false NonNegativeNumber;
          Optional (And [Literal "e"; ResultsName "precision" false Number])]).

(** *** Value lists *)

Definition value_item_action : action :=
  fun r =>
    g <- first_token r ;;
    match g with
    | PResults t d =>
        start <- r_item (mkResults t d) "start" ;;
        Ok (Some [PTuple [start; r_get (mkResults t d) "end" PNone]])
    | _ => Raise TypeError
    end.

Definition Value : pe :=
  ParseAction ValueNode_parse
    (delimitedList
       (ParseAction value_item_action
          (Group (And [ResultsName "start" false Expr;
                       Optional (And [Suppress (Keyword "@to");
                                      ResultsName "end" false Expr])])))).

(** *** Expressions *)

Inductive opAssoc : Type := LEFT | RIGHT.

(** [make_unary_expr], called with [opAssoc.RIGHT] only: [opExpr] is
    wrapped in [Optional], and the result is what [thisExpr] is bound to. *)
Definition make_unary_expr (thisExpr lastExpr opExpr : pe) (rightLeftAssoc : opAssoc) : pe :=
  let matchExpr :=
    match rightLeftAssoc with
    | LEFT =>
        And [FollowedBy (And [lastExpr; opExpr]);
             Group (And [lastExpr; OneOrMore opExpr])]
    | RIGHT =>
        And [FollowedBy (And [opExpr; thisExpr]);
             Group (And [Optional opExpr; thisExpr])]
    end in
  MatchFirst [ParseAction parse_as_unary matchExpr; lastExpr].

(** [make_binary_expr]: the four branches on the associativity and on
    whether an operator is given. *)
Definition make_binary_expr (thisExpr lastExpr : pe) (opExpr : option pe)
    (rightLeftAssoc : opAssoc) : pe :=
  let matchExpr :=
    match rightLeftAssoc, opExpr with
    | LEFT, Some opExpr =>
        And [FollowedBy (And [lastExpr; opExpr; lastExpr]);
             Group (And [lastExpr; OneOrMore (And [opExpr; lastExpr])])]
    | RIGHT, Some opExpr =>
        And [FollowedBy (And [lastExpr; opExpr; thisExpr]);
             Group (And [lastExpr; OneOrMore (And [opExpr; thisExpr])])]
    | LEFT, None =>
        And [FollowedBy (And [lastExpr; lastExpr]);
             Group (And [lastExpr; OneOrMore lastExpr])]
    | RIGHT, None =>
        And [FollowedBy (And [lastExpr; thisExpr]);
             Group (And [lastExpr; OneOrMore thisExpr])]
    end in
  MatchFirst [ParseAction parse_as_binary matchExpr; lastExpr].

Definition op (syms : list string) : pe := ParseAction SymbolNode_parse (OneOf syms).

Definition BaseExpr : pe :=
  MatchFirst [String_; Char; Boolean; VariableName; ConstantName; BlockName].

Definition NestedExpr : pe := And [LPAREN; Expr; RPAREN].

Definition tmp_expr_atom : pe := MatchFirst [BaseExpr; NestedExpr].

(** 2: function call *)
Definition tmp_expr_call : pe :=
  MatchFirst
    [ParseAction (Node_parse FuncNode_init)
       (And [FollowedBy (And [FunctionName; LPAREN]);
             ResultsName "funcname" false FunctionName; LPAREN;
             Optional (ResultsName "args" true (delimitedList Expr)); RPAREN]);
     tmp_expr_atom].

(** 2: array access *)
Definition tmp_expr_index : pe :=
  MatchFirst
    [ParseAction (Node_parse ArrayNode_init)
       (And [FollowedBy (And [VariableName; LBRACK]);
             ResultsName "array" false VariableName;
             LBRACK; ResultsName "index" false Expr; RBRACK]);
     tmp_expr_call].

(** 3: [@new] *)
Definition tmp_expr_new : pe :=
  MatchFirst
    [ParseAction (Node_parse NewNode_init)
       (And [FollowedBy (And [Literal "@new"; Type_]);
             And [Suppress (Literal "@new"); ResultsName "type" false Type_]]);
     tmp_expr_index].

(** 3: unary operators; [Number] is tried before them. *)
Definition unary_def : pe :=
  make_unary_expr (Forward FUnary) tmp_expr_new (op ["+"; "-"; "!"]) RIGHT.

Definition tmp_expr_unary : pe := MatchFirst [Number; Forward FUnary].

(** 4: class check ([@is], [@nis]) *)
Definition class_check_op : pe := op ["@is"; "@nis"].

Definition tmp_expr_class_check : pe :=
  MatchFirst
    [And [FollowedBy (And [tmp_expr_unary; class_check_op; ClassName]);
          ParseAction parse_as_binary
            (Group (And [tmp_expr_unary; OneOrMore (And [class_check_op; ClassName])]))];
     tmp_expr_unary].

(** 5: cast ([$]) *)
Definition cast_op : pe := ParseAction SymbolNode_parse (Literal "$").

Definition tmp_expr_cast : pe :=
  MatchFirst
    [And [FollowedBy (And [tmp_expr_class_check; cast_op; Type_]);
          ParseAction parse_as_binary
            (Group (And [tmp_expr_class_check; cast_op; Type_]))];
     tmp_expr_class_check].

(** 7: multiplication, division, remainder *)
Definition mul_def : pe :=
  make_binary_expr (Forward FMul) tmp_expr_cast (Some (op ["*"; "/"; "%"])) LEFT.

(** 8: addition, subtraction *)
Definition add_def : pe :=
  make_binary_expr (Forward FAdd) (Forward FMul) (Some (op ["+"; "-"])) LEFT.

(** 9: array concatenation *)
Definition concat_def : pe :=
  make_binary_expr (Forward FConcat) (Forward FAdd)
    (Some (ParseAction SymbolNode_parse (Literal "~"))) LEFT.

(** 10: equality and comparison *)
Definition compare_def : pe :=
  make_binary_expr (Forward FCompare) (Forward FConcat)
    (Some (op ["="; "<>"; "<"; ">"; "<="; ">="])) LEFT.

(** 11, 12: logical and, logical or *)
Definition logical_def : pe :=
  make_binary_expr (Forward FLogical) (Forward FCompare) (Some (op ["&"; "|"])) LEFT.

(** 13: conditional operator *)
Definition tmp_expr_ternary : pe :=
  let tmp_expr := Forward FLogical in
  MatchFirst
    [And [FollowedBy (And [tmp_expr; Combine (And [Literal "?"; LPAREN]);
                           tmp_expr; COMMA; tmp_expr; RPAREN]);
          ParseAction parse_as_ternary
            (Group (And [tmp_expr; Suppress (Combine (And [Literal "?"; LPAREN]));
                         tmp_expr; COMMA; tmp_expr; RPAREN]))];
     tmp_expr].

(** 14: assignment operators *)
Definition assign_def : pe :=
  make_binary_expr (Forward FAssign) tmp_expr_ternary
    (Some (op ["::"; ":+"; ":-"; ":*"; ":/"; ":%"; ":^"; ":~"])) RIGHT.

Definition Expr_def : pe := Forward FAssign.

(** *** Block statements *)

Definition end_ (kw : string) : pe := Suppress (And [Keyword "end"; Keyword kw]).
Definition body_ (name : string) : pe := Optional (ResultsName name true (Group Sentences)).
Definition block_name_ : pe := Optional (ResultsName "block_name" false BlockName).

Definition If : pe :=
  ParseAction (Node_parse IfNode_init)
    (And [Suppress (Keyword "if");
          block_name_;
          LPAREN; ResultsName "then_cond" false Expr; RPAREN;
          body_ "then_body";
          ZeroOrMore (And [Suppress (Keyword "elif");
                           LPAREN; ResultsName "elif_cond*" false Expr; RPAREN;
                           body_ "elif_body*"]);
          Optional (And [Suppress (Keyword "else"); body_ "else_body"]);
          end_ "if"]).

Definition SwitchCase : pe :=
  ParseAction (fun r => v <- r_item r "value" ;; Ok (Some [PTuple [v; r_get r "body" PNone]]))
    (And [Suppress (Keyword "case"); ResultsName "value" false Value; body_ "body"]).

Definition SwitchDefault : pe :=
  ParseAction (fun r => Ok (Some [PTuple [PNone; r_get r "body" PNone]]))
    (And [Suppress (Keyword "default"); body_ "body"]).

Definition Switch : pe :=
  ParseAction (Node_parse SwitchNode_init)
    (And [Suppress (Keyword "switch");
          block_name_;
          LPAREN; ResultsName "target" false Expr; RPAREN;
          ZeroOrMore (ResultsName "case*" true (Group SwitchCase));
          Optional (ResultsName "case*" true (Group SwitchDefault));
          end_ "switch"]).

Definition While : pe :=
  ParseAction (Node_parse WhileNode_init)
    (And [Suppress (Keyword "while");
          block_name_;
          LPAREN; ResultsName "cond" false Expr;
          Optional (And [COMMA; ResultsName "skip" false Expr]); RPAREN;
          body_ "body";
          end_ "while"]).

Definition For : pe :=
  ParseAction (Node_parse ForNode_init)
    (And [Suppress (Keyword "for");
          block_name_;
          LPAREN; ResultsName "start" false Expr; COMMA; ResultsName "end" false Expr;
          Optional (And [COMMA; ResultsName "step" false Expr]); RPAREN;
          body_ "body";
          end_ "for"]).

Definition Foreach : pe :=
  ParseAction (Node_parse ForeachNode_init)
    (And [Suppress (Keyword "foreach");
          block_name_;
          LPAREN; ResultsName "items" false Expr; RPAREN;
          body_ "body";
          end_ "foreach"]).

Definition Try : pe :=
  ParseAction (Node_parse TryNode_init)
    (And [Suppress (Keyword "try");
          block_name_;
          LPAREN; Optional (ResultsName "ignore_value" false Value); RPAREN;
          body_ "body";
          Optional (And [Suppress (Keyword "catch");
                         Optional (ResultsName "catch_value" false Value);
                         body_ "catch_body"]);
          Optional (And [Suppress (Keyword "finally"); body_ "finally_body"]);
          end_ "try"]).

Definition IfdefMode : pe :=
  MatchFirst [ParseAction (fun _ => Ok (Some [release])) (Keyword "release");
              ParseAction (fun _ => Ok (Some [debug])) (Keyword "debug")].

Definition Ifdef : pe :=
  ParseAction (Node_parse IfdefNode_init)
    (And [Suppress (Keyword "ifdef");
          block_name_;
          LPAREN; ResultsName "mode" false IfdefMode; RPAREN;
          body_ "body";
          end_ "ifdef"]).

Definition Block : pe :=
  ParseAction (Node_parse BlockNode_init)
    (And [Suppress (Keyword "block");
          block_name_;
          body_ "body";
          end_ "block"]).

(** *** Simple statements *)

Definition Do : pe :=
  ParseAction (Node_parse DoNode_init)
    (And [Suppress (Keyword "do"); ResultsName "expr" false Expr]).

Definition Import : pe := And [Suppress (Keyword "import"); SourceName].

Definition Break : pe :=
  ParseAction (Node_parse BreakNode_init)
    (And [Suppress (Keyword "break"); block_name_]).

Definition Continue : pe :=
  ParseAction (Node_parse ContinueNode_init)
    (And [Suppress (Keyword "continue"); block_name_]).

Definition Return : pe :=
  ParseAction (Node_parse ReturnNode_init)
    (And [Suppress (Keyword "return"); Optional (ResultsName "value" false Expr)]).

Definition Assert : pe :=
  ParseAction (Node_parse AssertNode_init)
    (And [Suppress (Keyword "assert"); ResultsName "expr" false Expr]).

Definition Throw : pe :=
  ParseAction (Node_parse ThrowNode_init)
    (And [Suppress (Keyword "throw");
          ResultsName "code" false Expr;
          COMMA; ResultsName "message" false Expr]).

(** *** Definitions *)

(** [Func] has no parse action: its tokens stay in the enclosing results. *)
Definition Func : pe :=
  And [Suppress (Keyword "func"); FName;
       LPAREN;
       Optional (And [VName; COLON; Type_;
                      ZeroOrMore (And [COMMA; VName; COLON; Type_])]);
       RPAREN;
       Optional (And [COLON; Type_]);
       Optional (Group Sentences);
       end_ "func"].

Definition Var : pe :=
  ParseAction (Node_parse VarNode_init)
    (And [Suppress (Keyword "var"); ResultsName "varname" false VName;
          COLON; ResultsName "typename" false Type_;
          Optional (And [DCOLON; ResultsName "value" false Expr])]).

Definition Const : pe :=
  ParseAction (Node_parse ConstNode_init)
    (And [Suppress (Keyword "const"); ResultsName "varname" false VName;
          COLON; ResultsName "typename" false Type_;
          DCOLON; ResultsName "value" false Expr]).

Definition Alias : pe :=
  ParseAction (Node_parse AliasNode_init)
    (And [Suppress (Keyword "alias"); ResultsName "alias" false Name;
          COLON; ResultsName "typename" false Type_]).

Definition EnumMember : pe :=
  ParseAction (fun r => k <- r_item r "key" ;; Ok (Some [PTuple [k; r_get r "value" PNone]]))
    (And [ResultsName "key" false ConstName;
          Optional (And [DCOLON; ResultsName "value" false Expr])]).

Definition Enum : pe :=
  ParseAction (Node_parse EnumNode_init)
    (And [Suppress (Keyword "enum"); ResultsName "name" false EName;
          ResultsName "member" true (OneOrMore EnumMember);
          end_ "enum"]).

Definition Class : pe := Forward FClass.

Definition ClassMember_ : pe := MatchFirst [Func; Var; Const; Alias; Class; Enum].

Definition Class_def : pe :=
  ParseAction (Node_parse ClassNode_init)
    (And [Suppress (Keyword "class"); ResultsName "name" false CName;
          Optional (And [COLON; ResultsName "parent" false ClassName]);
          ZeroOrMore (And [Optional (ResultsName "visibility*" false (OneOf ["+"; "-"]));
                           Optional (ResultsName "override*" false (Literal "*"));
                           ResultsName "member*" false ClassMember_]);
          end_ "class"]).

(** *** Comments *)

Definition Comment : pe := Forward FComment.

(** [String] and [Char] are the objects of the expression grammar, which
    [Sentences.ignore(Comment)] has reached; the other elements of a
    comment are its own.  The last alternative is the regular expression
    for a run of characters other than quotes and braces. *)
Definition Comment_def : pe :=
  And [Literal "{";
       ZeroOrMore (MatchFirst [Shared String_; Shared Char; Comment;
                               Regex (RPlus (RSet true [(dquote, dquote); (squote, squote);
                                                        ("{", "{"); ("}", "}")]%char))]);
       Literal "}"].

(** *** Sentences *)

Definition BlockStatement : pe :=
  MatchFirst [If; Switch; While; For; Foreach; Try; Ifdef; Block].

Definition SimpleSentence : pe :=
  MatchFirst [Do; Import; Break; Continue; Return; Assert; Throw].

Definition Definition_ : pe := MatchFirst [Func; Var; Const; Alias; Class; Enum].

Definition Sentence : pe := MatchFirst [BlockStatement; SimpleSentence; Definition_].

Definition Sentences_def : pe := ZeroOrMore Sentence.

(** What each [Forward] was bound to with [<<]. *)
Definition defs (f : fwd) : pe :=
  match f with
  | FSentences => Sentences_def
  | FExpr => Expr_def
  | FType => Type_def
  | FNumber => Number_def
  | FComment => Comment_def
  | FClass => Class_def
  | FUnary => unary_def
  | FMul => mul_def
  | FAdd => add_def
  | FConcat => concat_def
  | FCompare => compare_def
  | FLogical => logical_def
  | FAssign => assign_def
  end.

(** The ignore expression that [Sentences << ZeroOrMore(Sentence).ignore(Comment)]
    spreads over the sentence, expression and type grammars. *)
Definition ignoreExpr : pe := Suppress Comment.

(** [parse_expr(text)]: [Expr.parseString(text, parseAll=True)[0]]. *)
Definition parse_expr (fuel : nat) (text : string) : res pyval :=
  r <- parseString defs ignoreExpr fuel Expr text ;;
  first_token r.

(** [parse_stmt(text)]: [Sentences.parseString(text, parseAll=True)], of
    which the token list is the sequence of sentences. *)
Definition parse_stmt (fuel : nat) (text : string) : res (list pyval) :=
  r <- parseString defs ignoreExpr fuel Sentences text ;;
  Ok (toks r).

End Grammar.

Import Nodes Grammar.


(** What a computation that needs fuel evaluates to: the result it gives,
    and keeps giving, from some depth bound on. *)
Definition evaluates {A : Type} (f : nat -> res A) (r : res A) : Prop :=
  r <> OutOfFuel /\ exists n, forall fuel, (n <= fuel)%nat -> f fuel = r.

(** [parse_expression] and [parse_program] of the specification are
    [parse_expr] and [parse_stmt]. *)
Definition parse_expression (text : string) (r : res pyval) : Prop :=
  evaluates (fun fuel => parse_expr fuel text) r.

Definition parse_program (text : string) (r : res (list pyval)) : Prop :=
  evaluates (fun fuel => parse_stmt fuel text) r.

(** The results the grammar hands to [number_action] for a literal with
    the given sign, body and exponent. *)
Definition number_results (sign : option string) (body : string)
    (precision : option pyval) : results :=
  let s := match sign with Some x => [("sign", (false, PStr x))] | None => [] end in
  let p := match precision with Some x => [("precision", (false, x))] | None => [] end in
  mkResults ((match sign with Some x => [PStr x] | None => [] end)
             ++ [PStr body]
             ++ match precision with Some x => [PStr "e"; x] | None => [] end)
            (s ++ [("body", (false, PStr body))] ++ p).

(** The results the grammar hands to [EnumNode.parse]: the name, and the
    members as pairs of a key and a value ([None] without [:: Expr]). *)
Definition enum_results (name : pyval) (members : list (pyval * pyval)) : results :=
  let ms := map (fun kv => PTuple [fst kv; snd kv]) members in
  mkResults (name :: ms)
            [("name", (false, name)); ("member", (false, PResults ms []))].

(** A Python number: [int], [float], or [bool], which is an [int]. *)
Definition is_number (v : pyval) : bool :=
  match v with
  | PInt _ | PFloat _ | PBool _ => true
  | _ => false
  end.

(** Ordering of results by fuel: running out of fuel is below everything. *)
Definition le_res {A : Type} (r1 r2 : res A) : Prop :=
  r1 = OutOfFuel \/ r1 = r2.

(** The calls of [k2] agree with those of [k1] that did not run out of fuel. *)
Record calls_le (k1 k2 : calls) : Prop := mkCallsLe {
  le_parse : forall m da e c, le_res (call_parse k1 m da e c) (call_parse k2 m da e c);
  le_many : forall m da e c acc,
      le_res (call_many k1 m da e c acc) (call_many k2 m da e c acc);
  le_skip : forall c, le_res (call_skip k1 c) (call_skip k2 c)
}.


(** ** A comment appended to the text *)

Definition all_white (l : list ascii) : bool := forallb is_white l.

(** The cursor [c], with [cm] appended to the text. *)
Definition ext (cm : list ascii) (c : cursor) : cursor :=
  mkCursor (prev c) (rest c ++ cm).

(** [pat] occurs in [l]. *)
Fixpoint contains (pat l : list ascii) : bool :=
  starts_with pat l
  || match l with
     | [] => false
     | _ :: l' => contains pat l'
     end.

Definition is_quote (a : ascii) : bool := Ascii.eqb a dquote || Ascii.eqb a squote.
Definition quote_free (l : list ascii) : bool := forallb (fun a => negb (is_quote a)) l.
Definition tab_free (l : list ascii) : bool := forallb (fun a => negb (Ascii.eqb a (chr 9))) l.

Definition is_suffix (l' l : list ascii) : Prop := exists j, l' = skipn j l.

(** The calls of [k] only move forward in the text. *)
Record calls_suffix (k : calls) : Prop := mkCallsSuffix {
  suffix_parse : forall m da e c d r,
      call_parse k m da e c = Ok (d, r) -> is_suffix (rest d) (rest c);
  suffix_many : forall m da e c acc d r,
      call_many k m da e c acc = Ok (d, r) -> is_suffix (rest d) (rest c);
  suffix_skip : forall c d, call_skip k c = Ok d -> is_suffix (rest d) (rest c)
}.

Definition brace : ascii := "{"%char.

Definition no_brace (s : list ascii) : bool :=
  forallb (fun a => negb (Ascii.eqb a brace)) s.

(** A regular expression that cannot read an opening brace. *)
Fixpoint brace_blind (r : regex) : bool :=
  match r with
  | REps => true
  | RSet neg rs => negb (in_set neg rs brace)
  | RSeq r1 r2 | RAlt r1 r2 => brace_blind r1 && brace_blind r2
  | RStar r1 => brace_blind r1
  end.

Fixpoint nullable (r : regex) : bool :=
  match r with
  | REps => true
  | RSet _ _ => false
  | RSeq r1 r2 => nullable r1 && nullable r2
  | RAlt r1 r2 => nullable r1 || nullable r2
  | RStar _ => true
  end.

(** A regular expression that opens and closes with the same quote
    character. *)
Definition quoted (r : regex) : bool :=
  match r with
  | RSeq (RSet false [(q1, q2)]) (RSeq _ (RSet false [(q3, q4)])) =>
      is_quote q1 && Ascii.eqb q1 q2 && Ascii.eqb q1 q3 && Ascii.eqb q1 q4
  | _ => false
  end.

(** [r] matches on [l] followed by the comment [brace :: t] as it does on
    [l]: it cannot read the brace, or it must close on a quote and the
    comment or the text has none. *)
Definition regex_ext_ok (t : list ascii) (r : regex) (l : list ascii) : Prop :=
  brace_blind r = true
  \/ (quoted r = true /\ (quote_free (brace :: t) = true \/ quote_free l = true)).

(** The elements of the comment grammar. *)
Definition c_open : pe := Literal "{".
Definition c_close : pe := Literal "}".
Definition c_text : pe :=
  Regex (RPlus (RSet true [(dquote, dquote); (squote, squote);
                           ("{", "{"); ("}", "}")]%char)).
Definition c_alts : pe := MatchFirst [Shared String_; Shared Char; Comment; c_text].
Definition c_body : pe := ZeroOrMore c_alts.

(** The comment grammar matches the text [x] to its end. *)
Definition comment_text (x : list ascii) : Prop :=
  exists n p' r,
    parse defs ignoreExpr n WsOnly true Comment (mkCursor None x)
    = Ok (mkCursor p' [], r).

(** [c] is a comment: it starts with a brace and, wherever it stands in a
    line, the comment grammar matches its text, with the tabs expanded as
    [parseString] does, to its end. *)
Definition is_comment (c : list ascii) : Prop :=
  (exists t, c = brace :: t)
  /\ forall col, comment_text (expandtabs_from col c).

Definition lit_ok (s : string) : bool :=
  negb (String.eqb s EmptyString) && no_brace (list_ascii_of_string s).

Definition regex_ok (r : regex) : bool :=
  negb (nullable r) && (brace_blind r || quoted r).

(** [import NAME]: a sequence that starts with the keyword [import]. *)
Definition is_import (es : list pe) : bool :=
  match es with
  | Suppress (Keyword k) :: _ => String.eqb k "import"
  | _ => false
  end.

(** [SourceName + "@"]: a greedy run of characters that include [@],
    followed by [@]. *)
Definition is_src_at (es : list pe) : bool :=
  match es with
  | [Regex (RSeq (RSet _ _) (RStar (RSet neg rs))); Literal a] =>
      String.eqb a "@" && in_set neg rs "@"
  | _ => false
  end.

Definition is_FComment (f : fwd) : bool :=
  match f with FComment => true | _ => false end.

(** The elements for which appending a comment to the input is harmless:
    tokens cannot read a brace or must close on a quote, [Forward]s are not
    the comment, and [adj] says whether the element is inside a
    [Combine]. *)
Fixpoint wf (adj : bool) (e : pe) : bool :=
  match e with
  | Literal s | Keyword s => lit_ok s
  | Regex r => regex_ok r
  | OneOf syms => forallb lit_ok syms
  | And es => is_import es || (adj && is_src_at es) || forallb (wf adj) es
  | MatchFirst es => forallb (wf adj) es
  | Optional e1 | ZeroOrMore e1 | OneOrMore e1 | NotAny e1 | FollowedBy e1
  | Group e1 | Suppress e1 | ResultsName _ _ e1 | ParseAction _ e1 => wf adj e1
  | Combine e1 => wf true e1
  | Forward f => negb adj && negb (is_FComment f)
  | Shared _ => false
  end.

Definition is_adj (m : mode) : bool :=
  match m with Adjacent => true | _ => false end.


(** How the cursor on the text followed by the comment [cm] relates to the
    cursor on the text alone: it is the same place, or both are at the end
    (the comment has been skipped, and only whitespace was left). *)
Definition rel_adj (cm : list ascii) (c c' : cursor) : Prop :=
  c' = ext cm c \/ (rest c = [] /\ rest c' = []).

Definition rel_full (cm : list ascii) (c c' : cursor) : Prop :=
  c' = ext cm c \/ (all_white (rest c) = true /\ rest c' = []).

Definition rel_skipped (cm : list ascii) (d d' : cursor) : Prop :=
  (d' = ext cm d /\ all_white (rest d) = false)
  \/ (all_white (rest d) = true /\ rest d' = []).

Definition rel (cm : list ascii) (m : mode) : cursor -> cursor -> Prop :=
  if is_adj m then rel_adj cm else rel_full cm.

(** The text has no [import], and it or the comment has no quote. *)
Definition good (cm l : list ascii) : Prop :=
  contains (str "import") l = false
  /\ (quote_free cm = true \/ quote_free l = true).

Definition sim_ok (cm : list ascii) (m : mode) (R R' : res (cursor * results)) : Prop :=
  match R with
  | Ok (d, r) => exists d', R' = Ok (d', r) /\ rel cm m d d'
  | Raise x => R' = Raise x
  | OutOfFuel => True
  end.

Definition skip_ok (cm : list ascii) (R R' : res cursor) : Prop :=
  match R with
  | Ok d => exists d', R' = Ok d' /\ rel_skipped cm d d'
  | Raise x => R' = Raise x
  | OutOfFuel => True
  end.

(** A token: on success the same text is read before the comment. *)
Definition tok_ok (cm : list ascii) (R R' : res (cursor * results)) : Prop :=
  match R with
  | Ok (d, r) => R' = Ok (ext cm d, r)
  | Raise x => x = ParseException /\ R' = Raise x
  | OutOfFuel => True
  end.

(** The elements of the comment grammar, by what the appended comment can
    change at the end of the text. *)
Inductive kind : Type := Opener | StrictPE | Strict | Exact | Loose.

Inductive celem : pe -> kind -> Prop :=
| ce_open : celem c_open Opener
| ce_close : celem c_close StrictPE
| ce_text : celem c_text StrictPE
| ce_string : celem (Shared String_) Strict
| ce_char : celem (Shared Char) Strict
| ce_body : celem c_body Strict
| ce_def : celem Comment_def Exact
| ce_fwd : celem Comment Exact
| ce_ignore : celem ignoreExpr Exact
| ce_alts : celem c_alts Loose.

Definition csim_ok (cm : list ascii) (kd : kind) (c c' : cursor)
    (R R' : res (cursor * results)) : Prop :=
  match R with
  | Ok (d, _) =>
      (exists d' r', R' = Ok (d', r') /\ rel_full cm d d')
      /\ (kd = Opener -> all_white (rest c) = false)
  | Raise x =>
      if all_white (rest c)
      then match kd with
           | Opener => x = ParseException /\ (rest c' = [] -> R' = Raise x)
           | StrictPE => x = ParseException /\ R' = Raise x
           | Strict => R' = Raise x
           | Exact =>
               x = ParseException
               /\ (c' = ext cm c -> exists d' r', R' = Ok (d', r') /\ rest d' = [])
               /\ (rest c' = [] -> R' = Raise x)
           | Loose =>
               R' = Raise x
               \/ (recoverable x = true /\ exists d' r', R' = Ok (d', r') /\ rest d' = [])
           end
      else R' = Raise x
  | OutOfFuel => True
  end.

Definition cmany_ok (cm : list ascii) (R R' : res (cursor * results)) : Prop :=
  match R with
  | Ok (d, _) => exists d' r', R' = Ok (d', r') /\ rel_full cm d d'
  | Raise x => R' = Raise x
  | OutOfFuel => True
  end.

(** The calls of [k'], on the text followed by the comment, follow those
    of [k] on the text. *)
Record sim (cm : list ascii) (k k' : calls) : Prop := mkSim {
  sim_parse : forall m da e c c',
      m <> WsOnly -> wf (is_adj m) e = true -> good cm (rest c) -> rel cm m c c' ->
      sim_ok cm m (call_parse k m da e c) (call_parse k' m da e c');
  sim_many : forall m da e c c' acc,
      m <> WsOnly -> wf (is_adj m) e = true -> good cm (rest c) -> rel cm m c c' ->
      sim_ok cm m (call_many k m da e c acc) (call_many k' m da e c' acc);
  sim_skip : forall c c',
      good cm (rest c) -> rel_full cm c c' ->
      skip_ok cm (call_skip k c) (call_skip k' c');
  sim_celem : forall e kd c c',
      celem e kd -> good cm (rest c) -> rel_full cm c c' ->
      csim_ok cm kd c c' (call_parse k WsOnly true e c) (call_parse k' WsOnly true e c');
  sim_cmany : forall c c' acc acc',
      good cm (rest c) -> rel_full cm c c' ->
      cmany_ok cm (call_many k WsOnly true c_alts c acc)
                  (call_many k' WsOnly true c_alts c' acc')
}.

(** A double quote and a backslash, as strings. *)
Definition quote_str : string := String dquote EmptyString.
Definition backslash_str : string := String backslash EmptyString.


(** ** Further properties: what their statements need *)

(** The character before the cursor is none or whitespace. *)
Definition after_blank (p : option ascii) : Prop :=
  p = None \/ exists a, p = Some a /\ is_white a = true.

(** The text at the cursor starts with a character that is neither
    whitespace nor an opening brace. *)
Definition at_word (c : cursor) : bool :=
  match rest c with
  | a :: _ => negb (is_white a) && negb (Ascii.eqb a brace)
  | [] => false
  end.

(** A character that is neither a quote nor a brace. *)
Definition comment_char (a : ascii) : bool :=
  negb (is_quote a) && negb (Ascii.eqb a "{") && negb (Ascii.eqb a "}").

(** The character set of the last alternative of a comment's body. *)
Definition text_set : list (ascii * ascii) :=
  [(dquote, dquote); (squote, squote); ("{", "{"); ("}", "}")]%char.

(** The text at the cursor starts with a character that is not a quote. *)
Definition no_quote_ahead (c : cursor) : bool :=
  match rest c with
  | a :: _ => negb (is_quote a)
  | [] => false
  end.

Definition no_char (a : ascii) (l : list ascii) : bool :=
  forallb (fun b => negb (Ascii.eqb b a)) l.

(** A radix that [number_action] refuses after [#]. *)
Definition bad_radix (n : Z) : bool :=
  negb ((2 <=? n)%Z && (n <=? 36)%Z) || (n =? 10)%Z || (n =? 16)%Z.

(** The constructors that [Node.parse] calls with the named results as
    keyword arguments, each with the names of its required parameters and
    of those that have a default. *)
Definition signatures : list ((kwargs -> res pyval) * (list string * list string)) :=
  [ (ArrayNode_init, (["array"; "index"], []));
    (NewNode_init, (["type"], []));
    (IfNode_init, (["then_cond"],
                   ["then_body"; "elif_cond"; "elif_body"; "else_body"; "block_name"]));
    (SwitchNode_init, (["target"], ["case"; "block_name"]));
    (WhileNode_init, (["cond"], ["skip"; "body"]));
    (ForNode_init, (["start"; "end"], ["step"; "block_name"; "body"]));
    (ForeachNode_init, (["items"], ["block_name"; "body"]));
    (TryNode_init, ([], ["block_name"; "ignore_value"; "body"; "catch_value";
                         "catch_body"; "finally_body"]));
    (IfdefNode_init, (["mode"], ["block_name"; "body"]));
    (BlockNode_init, ([], ["block_name"; "body"]));
    (DoNode_init, (["expr"], []));
    (BreakNode_init, ([], ["block_name"]));
    (ContinueNode_init, ([], ["block_name"]));
    (ReturnNode_init, ([], ["value"]));
    (AssertNode_init, (["expr"], []));
    (ThrowNode_init, (["code"], ["message"]));
    (FuncNode_init, (["funcname"], ["args"]));
    (VarNode_init, (["varname"; "typename"], ["value"]));
    (ConstNode_init, (["varname"; "typename"; "value"], []));
    (AliasNode_init, (["alias"; "typename"], []));
    (ArrayTypeNode_init, (["base_type"; "size"], []));
    (ClassNode_init, (["name"], ["parent"; "member"; "visibility"; "override"]));
    (EnumNode_init, (["name"; "member"], [])) ].

(** The members of an enum that give no value, as [EnumMember] hands them
    over, and the values the counter gives them from [c] on. *)
Definition plain_members (keys : list pyval) : list pyval :=
  map (fun key => PTuple [key; PNone]) keys.

Fixpoint numbered (c : Z) (keys : list pyval) : list (pyval * pyval) :=
  match keys with
  | [] => []
  | key :: keys' => (key, PInt c) :: numbered (c + 1) keys'
  end.


(** * Properties of the interpreter *)

(** ** More fuel does not change a result *)

Lemma le_res_refl {A : Type} (r : res A) : le_res r r.
Proof. now right. Qed.

Lemma le_res_trans {A : Type} (r1 r2 r3 : res A) :
  le_res r1 r2 -> le_res r2 r3 -> le_res r1 r3.
Proof.
  intros [H1 | H1] [H2 | H2]; subst; unfold le_res; auto.
Qed.

Lemma le_res_bind {A B : Type} (m1 m2 : res A) (f1 f2 : A -> res B) :
  le_res m1 m2 -> (forall a, le_res (f1 a) (f2 a)) ->
  le_res (bind m1 f1) (bind m2 f2).
Proof.
  intros [H | H] Hf; subst.
  - now left.
  - destruct m2; simpl; auto using le_res_refl.
Qed.

Section Monotone.

Variable defs : fwd -> pe.
Variable ignoreExpr : pe.
Variables k1 k2 : calls.
Hypothesis Hk : calls_le k1 k2.

(** Replace the next call of [k1] by the call of [k2], or finish because
    it ran out of fuel. *)
Ltac next_call :=
  match goal with
  | |- le_res (bind (call_parse k1 ?m ?da ?e ?c) _) _ =>
      apply le_res_bind; [apply (le_parse _ _ Hk) | intros [? ?]]
  | |- le_res (bind (call_skip k1 ?c) _) _ =>
      apply le_res_bind; [apply (le_skip _ _ Hk) | intros ?]
  | |- le_res (match call_parse k1 ?m ?da ?e ?c with _ => _ end) _ =>
      destruct (le_parse _ _ Hk m da e c) as [-> | ->];
      [now left | destruct (call_parse k2 m da e c) as [[? ?] | ? | ]]
  end.

Lemma preParse_le m white c :
  le_res (preParse k1 m white c) (preParse k2 m white c).
Proof.
  unfold preParse. destruct (skips_comments m).
  - next_call. apply le_res_refl.
  - apply le_res_refl.
Qed.

Lemma parse_seq_le m da es : forall c acc,
  le_res (parse_seq k1 m da es c acc) (parse_seq k2 m da es c acc).
Proof.
  induction es as [| e es IH]; intros c acc; simpl.
  - apply le_res_refl.
  - next_call. apply IH.
Qed.

Lemma parse_alt_le m da es c :
  le_res (parse_alt k1 m da es c) (parse_alt k2 m da es c).
Proof.
  induction es as [| e es IH]; simpl.
  - apply le_res_refl.
  - next_call; try apply le_res_refl.
    destruct (recoverable _); [apply IH | apply le_res_refl].
Qed.

Ltac pre_parse :=
  apply le_res_bind; [apply preParse_le | intros ?].

Lemma parse_step_le m da e c :
  le_res (parse_step defs k1 m da e c) (parse_step defs k2 m da e c).
Proof.
  destruct e; simpl;
    try (pre_parse; apply le_res_refl);
    try apply parse_seq_le; try apply parse_alt_le;
    try (apply (le_parse _ _ Hk)).
  - (* Optional *)
    pre_parse. next_call; apply le_res_refl.
  - (* ZeroOrMore *)
    pre_parse. next_call; try apply le_res_refl. apply (le_many _ _ Hk).
  - (* OneOrMore *)
    next_call. apply (le_many _ _ Hk).
  - (* NotAny *)
    pre_parse. next_call; apply le_res_refl.
  - (* FollowedBy *)
    pre_parse. next_call; apply le_res_refl.
  - (* Group *)
    next_call. apply le_res_refl.
  - (* Suppress *)
    next_call. apply le_res_refl.
  - (* Combine *)
    pre_parse. next_call. apply le_res_refl.
  - (* ResultsName *)
    next_call. apply le_res_refl.
  - (* ParseAction *)
    next_call. apply le_res_refl.
Qed.

Lemma many_step_le m da e c acc :
  le_res (many_step k1 m da e c acc) (many_step k2 m da e c acc).
Proof.
  unfold many_step. destruct (skips_comments m).
  - next_call. next_call; try apply le_res_refl. apply (le_many _ _ Hk).
  - simpl. next_call; try apply le_res_refl. apply (le_many _ _ Hk).
Qed.

Lemma skip_step_le c :
  le_res (skip_step ignoreExpr k1 c) (skip_step ignoreExpr k2 c).
Proof.
  unfold skip_step. next_call; try apply le_res_refl. apply (le_skip _ _ Hk).
Qed.

End Monotone.

Section Fuel.

Variable defs : fwd -> pe.
Variable ignoreExpr : pe.

Lemma run_le_S (n : nat) :
  calls_le (run defs ignoreExpr n) (run defs ignoreExpr (S n)).
Proof.
  induction n as [| n IH].
  - split; intros; now left.
  - split; intros; cbn [run call_parse call_many call_skip].
    + now apply parse_step_le.
    + now apply many_step_le.
    + now apply skip_step_le.
Qed.

Lemma calls_le_trans (a b c : calls) :
  calls_le a b -> calls_le b c -> calls_le a c.
Proof.
  intros [P1 M1 S1] [P2 M2 S2]; split; intros; eapply le_res_trans; eauto.
Qed.

Lemma run_le (n n' : nat) :
  (n <= n')%nat -> calls_le (run defs ignoreExpr n) (run defs ignoreExpr n').
Proof.
  induction 1 as [| n' _ IH].
  - split; intros; apply le_res_refl.
  - eapply calls_le_trans; [exact IH | apply run_le_S].
Qed.

Lemma parseString_le (n n' : nat) (e : pe) (text : string) :
  (n <= n')%nat ->
  le_res (parseString defs ignoreExpr n e text) (parseString defs ignoreExpr n' e text).
Proof.
  intros Hn. unfold parseString, parse, skipIgnorables.
  apply le_res_bind; [apply (le_parse _ _ (run_le n n' Hn)) | intros [c1 r]].
  apply le_res_bind; [apply (le_skip _ _ (run_le n n' Hn)) | intros c2].
  apply le_res_refl.
Qed.

End Fuel.

Lemma parse_expr_le (n n' : nat) (text : string) :
  (n <= n')%nat -> le_res (parse_expr n text) (parse_expr n' text).
Proof.
  intros Hn. unfold parse_expr.
  apply le_res_bind; [now apply parseString_le | intros r; apply le_res_refl].
Qed.

Lemma parse_stmt_le (n n' : nat) (text : string) :
  (n <= n')%nat -> le_res (parse_stmt n text) (parse_stmt n' text).
Proof.
  intros Hn. unfold parse_stmt.
  apply le_res_bind; [now apply parseString_le | intros r; apply le_res_refl].
Qed.

(** A result computed with some fuel is what the parse evaluates to. *)
Lemma parse_expr_evaluates (n : nat) (text : string) (r : res pyval) :
  parse_expr n text = r -> r <> OutOfFuel ->
  evaluates (fun fuel => parse_expr fuel text) r.
Proof.
  intros E Hr. split; [exact Hr | exists n; intros fuel Hf].
  destruct (parse_expr_le n fuel text Hf) as [H | H]; congruence.
Qed.

Lemma parse_stmt_evaluates (n : nat) (text : string) (r : res (list pyval)) :
  parse_stmt n text = r -> r <> OutOfFuel ->
  evaluates (fun fuel => parse_stmt fuel text) r.
Proof.
  intros E Hr. split; [exact Hr | exists n; intros fuel Hf].
  destruct (parse_stmt_le n fuel text Hf) as [H | H]; congruence.
Qed.

(** What a parse evaluates to is unique. *)
Lemma evaluates_unique {A : Type} (f : nat -> res A) (r1 r2 : res A) :
  evaluates f r1 -> evaluates f r2 -> r1 = r2.
Proof.
  intros [_ [n1 H1]] [_ [n2 H2]].
  rewrite <- (H1 (Nat.max n1 n2)), <- (H2 (Nat.max n1 n2)); [reflexivity | lia | lia].
Qed.

(** ** The parser only moves forward *)

Lemma is_suffix_refl l : is_suffix l l.
Proof. now exists 0%nat. Qed.

Lemma is_suffix_trans l1 l2 l3 : is_suffix l1 l2 -> is_suffix l2 l3 -> is_suffix l1 l3.
Proof.
  intros [i ->] [j ->]. exists (j + i)%nat. now rewrite skipn_skipn, Nat.add_comm.
Qed.

Lemma is_suffix_tl a l' l : is_suffix (a :: l') l -> is_suffix l' l.
Proof.
  intros H. apply (is_suffix_trans _ (a :: l')); [now exists 1%nat | exact H].
Qed.

Lemma is_suffix_length l' l : is_suffix l' l -> (List.length l' <= List.length l)%nat.
Proof. intros [j ->]. rewrite length_skipn. lia. Qed.

Lemma skip_white_suffix p l : is_suffix (rest (skip_white p l)) l.
Proof.
  revert p. induction l as [| a l IH]; intros p; simpl.
  - apply is_suffix_refl.
  - destruct (is_white a); [| apply is_suffix_refl].
    eapply is_suffix_trans; [apply IH | now exists 1%nat].
Qed.

Lemma advance_rest n : forall c, rest (advance n c) = skipn n (rest c).
Proof.
  induction n as [| n IH]; intros [p l]; simpl.
  - destruct l; reflexivity.
  - destruct l as [| a l]; [reflexivity |]. now rewrite IH.
Qed.

Lemma advance_suffix n c : is_suffix (rest (advance n c)) (rest c).
Proof. rewrite advance_rest. now exists n. Qed.

Lemma star_loop_inv {A : Type} step (k : list ascii -> option A) :
  (forall l k' y, step l k' = Some y -> exists l', k' l' = Some y /\ is_suffix l' l) ->
  forall n l y, star_loop step k n l = Some y ->
                exists l', k l' = Some y /\ is_suffix l' l.
Proof.
  intros Hstep. induction n as [| n IH]; intros l y H; simpl in H.
  - exists l. split; [exact H | apply is_suffix_refl].
  - destruct (step l _) as [x |] eqn:E.
    + injection H as ->. apply Hstep in E. destruct E as (l1 & E & S1).
      destruct (List.length l1 <? List.length l)%nat; [| discriminate].
      apply IH in E. destruct E as (l2 & E & S2).
      exists l2. split; [exact E | eapply is_suffix_trans; eauto].
    + exists l. split; [exact H | apply is_suffix_refl].
Qed.

Lemma re_match_inv {A : Type} (r : regex) :
  forall l (k : list ascii -> option A) y,
    re_match r l k = Some y -> exists l', k l' = Some y /\ is_suffix l' l.
Proof.
  induction r as [| neg rs | r1 IH1 r2 IH2 | r1 IH1 r2 IH2 | r IH]; intros l k y H;
    cbn [re_match] in H.
  - exists l. split; [exact H | apply is_suffix_refl].
  - destruct l as [| c l]; [discriminate |].
    destruct (in_set neg rs c); [| discriminate].
    exists l. split; [exact H | now exists 1%nat].
  - apply IH1 in H. destruct H as (l1 & H & S1).
    apply IH2 in H. destruct H as (l2 & H & S2).
    exists l2. split; [exact H | eapply is_suffix_trans; eauto].
  - destruct (re_match r1 l k) as [x |] eqn:E.
    + injection H as ->. now apply IH1.
    + now apply IH2.
  - eapply star_loop_inv; [| exact H]. intros; now apply IH.
Qed.

Lemma regex_match_suffix r c s c' :
  regex_match r c = Some (s, c') -> is_suffix (rest c') (rest c).
Proof.
  unfold regex_match. destruct (re_match r (rest c) _) as [l' |] eqn:E; [| discriminate].
  intros H. injection H as _ <-. apply advance_suffix.
Qed.

Lemma bind_Ok {A B : Type} (m : res A) (f : A -> res B) (y : B) :
  bind m f = Ok y -> exists a, m = Ok a /\ f a = Ok y.
Proof. destruct m; simpl; [eauto | discriminate | discriminate]. Qed.

Section Suffix.

Variable defs : fwd -> pe.
Variable ignoreExpr : pe.
Variable k : calls.
Hypothesis Hk : calls_suffix k.

Lemma preParse_suffix m w c c1 :
  preParse k m w c = Ok c1 -> is_suffix (rest c1) (rest c).
Proof.
  unfold preParse. intros H. apply bind_Ok in H. destruct H as (c0 & H0 & H).
  injection H as <-.
  assert (S0 : is_suffix (rest c0) (rest c)).
  { destruct (skips_comments m).
    - now apply (suffix_skip _ Hk).
    - injection H0 as <-. apply is_suffix_refl. }
  destruct (w && skips_white m); [| exact S0].
  eapply is_suffix_trans; [apply skip_white_suffix | exact S0].
Qed.

Lemma parse_seq_suffix m da es : forall c acc d r,
  parse_seq k m da es c acc = Ok (d, r) -> is_suffix (rest d) (rest c).
Proof.
  induction es as [| e es IH]; intros c acc d r H; simpl in H.
  - injection H as <- _. apply is_suffix_refl.
  - apply bind_Ok in H. destruct H as ([c1 r1] & H1 & H).
    apply (suffix_parse _ Hk) in H1. apply IH in H.
    eapply is_suffix_trans; eauto.
Qed.

Lemma parse_alt_suffix m da es c d r :
  parse_alt k m da es c = Ok (d, r) -> is_suffix (rest d) (rest c).
Proof.
  induction es as [| e es IH]; simpl; intros H.
  - discriminate.
  - destruct (call_parse k m da e c) as [[c1 r1] | x |] eqn:E.
    + injection H as <- <-. now apply (suffix_parse _ Hk) in E.
    + destruct (recoverable x); [now apply IH | discriminate].
    + discriminate.
Qed.

Ltac pre H c1 :=
  apply bind_Ok in H; destruct H as (c1 & ?Hpre & H); apply preParse_suffix in Hpre.
Ltac call H c1 r1 :=
  apply bind_Ok in H;
  let E := fresh "E" in
  destruct H as ([c1 r1] & E & H); apply (suffix_parse _ Hk) in E.

Lemma parse_step_suffix m da e c d r :
  parse_step defs k m da e c = Ok (d, r) -> is_suffix (rest d) (rest c).
Proof.
  destruct e; simpl; intros H.
  - pre H c1. destruct (starts_with _ _); [| discriminate].
    injection H as <- _. eapply is_suffix_trans; [apply advance_suffix | eauto].
  - pre H c1. destruct (keyword_match _ _); [| discriminate].
    injection H as <- _. eapply is_suffix_trans; [apply advance_suffix | eauto].
  - pre H c1. destruct (regex_match r0 c1) as [[s c2] |] eqn:E; [| discriminate].
    injection H as <- _. apply regex_match_suffix in E.
    eapply is_suffix_trans; eauto.
  - pre H c1. destruct (one_of_match _ _); [| discriminate].
    injection H as <- _. eapply is_suffix_trans; [apply advance_suffix | eauto].
  - now apply parse_seq_suffix in H.
  - now apply parse_alt_suffix in H.
  - (* Optional *)
    pre H c1. destruct (call_parse k m da e c1) as [[c2 r2] | x |] eqn:E.
    + injection H as <- _. apply (suffix_parse _ Hk) in E.
      eapply is_suffix_trans; eauto.
    + destruct (recoverable x); [| discriminate]. now injection H as <- _.
    + discriminate.
  - (* ZeroOrMore *)
    pre H c1. destruct (call_parse k m da e c1) as [[c2 r2] | x |] eqn:E.
    + apply (suffix_parse _ Hk) in E. apply (suffix_many _ Hk) in H.
      eapply is_suffix_trans; [| eauto]. eapply is_suffix_trans; eauto.
    + destruct (recoverable x); [| discriminate]. now injection H as <- _.
    + discriminate.
  - (* OneOrMore *)
    call H c1 r1. apply (suffix_many _ Hk) in H. eapply is_suffix_trans; eauto.
  - (* NotAny *)
    pre H c1. destruct (call_parse k m false e c1) as [[c2 r2] | x |]; try discriminate.
    destruct x; try discriminate; now injection H as <- _.
  - (* FollowedBy *)
    pre H c1. destruct (call_parse k m false e c1) as [[c2 r2] | x |]; try discriminate.
    + now injection H as <- _.
    + destruct x; discriminate.
  - call H c1 r1. injection H as <- _. exact E.
  - call H c1 r1. injection H as <- _. exact E.
  - (* Combine *)
    pre H c1. call H c2 r2. apply bind_Ok in H. destruct H as (r' & _ & H).
    injection H as <- _. eapply is_suffix_trans; eauto.
  - call H c1 r1. injection H as <- _. exact E.
  - (* ParseAction *)
    call H c1 r1. destruct da.
    + apply bind_Ok in H. destruct H as (o & _ & H).
      destruct o; injection H as <- _; exact E.
    + injection H as <- _. exact E.
  - now apply (suffix_parse _ Hk) in H.
  - now apply (suffix_parse _ Hk) in H.
Qed.

Lemma many_step_suffix m da e c acc d r :
  many_step k m da e c acc = Ok (d, r) -> is_suffix (rest d) (rest c).
Proof.
  unfold many_step. intros H. apply bind_Ok in H. destruct H as (c1 & H1 & H).
  assert (S1 : is_suffix (rest c1) (rest c)).
  { destruct (skips_comments m).
    - now apply (suffix_skip _ Hk).
    - injection H1 as <-. apply is_suffix_refl. }
  destruct (call_parse k m da e c1) as [[c2 r2] | x |] eqn:E.
  - apply (suffix_parse _ Hk) in E. apply (suffix_many _ Hk) in H.
    eapply is_suffix_trans; [| eauto]. eapply is_suffix_trans; eauto.
  - destruct (recoverable x); [| discriminate]. injection H as <- _. apply is_suffix_refl.
  - discriminate.
Qed.

Lemma skip_step_suffix c d :
  skip_step ignoreExpr k c = Ok d -> is_suffix (rest d) (rest c).
Proof.
  unfold skip_step. intros H.
  destruct (call_parse k WsOnly true ignoreExpr c) as [[c1 r1] | x |] eqn:E.
  - apply (suffix_parse _ Hk) in E. apply (suffix_skip _ Hk) in H.
    eapply is_suffix_trans; eauto.
  - destruct x; try discriminate. injection H as <-. apply is_suffix_refl.
  - discriminate.
Qed.

End Suffix.

Lemma run_suffix defs ignoreExpr (n : nat) : calls_suffix (run defs ignoreExpr n).
Proof.
  induction n as [| n IH].
  - split; intros; discriminate.
  - split; intros *; cbn [run call_parse call_many call_skip].
    + now apply parse_step_suffix.
    + now apply many_step_suffix.
    + now apply skip_step_suffix.
Qed.

(** ** Regular expressions on a text followed by a comment *)

Lemma length_list_ascii_of_string (s : string) :
  List.length (list_ascii_of_string s) = String.length s.
Proof. induction s as [| a s IH]; simpl; [reflexivity | now rewrite IH]. Qed.

Lemma list_ascii_of_string_app (s1 s2 : string) :
  list_ascii_of_string (s1 ++ s2)
  = list_ascii_of_string s1 ++ list_ascii_of_string s2.
Proof. induction s1 as [| a s1 IH]; simpl; [reflexivity | now rewrite IH]. Qed.

Section Extension.

Variable t : list ascii.
Let cm : list ascii := brace :: t.

Lemma starts_with_ext s : forall l,
  no_brace s = true -> starts_with s (l ++ cm) = starts_with s l.
Proof.
  induction s as [| a s IH]; intros l Hs; [reflexivity |].
  simpl in Hs. apply andb_prop in Hs. destruct Hs as [Ha Hs].
  destruct l as [| b l]; simpl.
  - apply negb_true_iff in Ha. now rewrite Ha.
  - now rewrite IH.
Qed.

Lemma starts_with_length s : forall l,
  starts_with s l = true -> (List.length s <= List.length l)%nat.
Proof.
  induction s as [| a s IH]; intros [| b l] H; simpl in *; try lia; try discriminate.
  apply andb_prop in H. destruct H as [_ H]. apply IH in H. lia.
Qed.

Lemma skip_white_ext l : forall p,
  skip_white p (l ++ cm) = ext cm (skip_white p l).
Proof.
  induction l as [| a l IH]; intros p; simpl.
  - reflexivity.
  - destruct (is_white a); [apply IH | reflexivity].
Qed.

Lemma advance_ext n : forall c,
  (n <= List.length (rest c))%nat -> advance n (ext cm c) = ext cm (advance n c).
Proof.
  induction n as [| n IH]; intros [p l] H; simpl in *.
  - destruct l; reflexivity.
  - destruct l as [| a l]; simpl in *; [lia |].
    rewrite <- IH by (simpl; lia). reflexivity.
Qed.

Lemma keyword_match_ext s c :
  no_brace (list_ascii_of_string s) = true ->
  keyword_match s (ext cm c) = keyword_match s c.
Proof.
  intros Hs. unfold keyword_match. cbn [rest prev ext].
  rewrite starts_with_ext by exact Hs.
  destruct (starts_with (list_ascii_of_string s) (rest c)) eqn:E; [| reflexivity].
  apply starts_with_length in E. rewrite length_list_ascii_of_string in E.
  rewrite skipn_app.
  replace (String.length s - List.length (rest c))%nat with 0%nat by lia.
  cbn [skipn]. destruct (skipn (String.length s) (rest c)); reflexivity.
Qed.

Lemma one_of_match_ext syms l :
  forallb (fun s => no_brace (list_ascii_of_string s)) syms = true ->
  one_of_match syms (l ++ cm) = one_of_match syms l.
Proof.
  induction syms as [| s syms IH]; intros H; [reflexivity |].
  simpl in H. apply andb_prop in H. destruct H as [Hs H].
  simpl. rewrite starts_with_ext by exact Hs. now rewrite IH.
Qed.

Lemma one_of_match_prefix syms l s :
  one_of_match syms l = Some s -> starts_with (list_ascii_of_string s) l = true.
Proof.
  revert s. induction syms as [| s0 syms IH]; intros s H; simpl in H; [discriminate |].
  destruct (starts_with (list_ascii_of_string s0) l) eqn:E.
  - destruct (one_of_match syms l) as [s' |].
    + destruct (String.length s0 <? String.length s')%nat;
        injection H as <-; [now apply IH | exact E].
    + now injection H as <-.
  - now apply IH.
Qed.

(** *** Regular expressions that cannot read a brace *)

Section Blind.

Context {A B : Type}.
Variable g : A -> B.

Lemma star_loop_blind step
  (Hstep : forall l (k : list ascii -> option A) (k' : list ascii -> option B),
      (forall l1, k' (l1 ++ cm) = option_map g (k l1)) ->
      step B (l ++ cm) k' = option_map g (step A l k)) :
  forall n n' l k k',
    (List.length l < n)%nat -> (List.length (l ++ cm) < n')%nat ->
    (forall l1, k' (l1 ++ cm) = option_map g (k l1)) ->
    star_loop (step B) k' n' (l ++ cm) = option_map g (star_loop (step A) k n l).
Proof.
  induction n as [| n IH]; intros n' l k k' Hn Hn' Hk; [lia |].
  destruct n' as [| n']; [lia |]. cbn [star_loop].
  rewrite (Hstep l (fun l' => if (List.length l' <? List.length l)%nat
                              then star_loop (step A) k n l' else None)).
  - destruct (step A l _); [reflexivity | apply Hk].
  - intros l1. rewrite !length_app.
    destruct (List.length l1 <? List.length l)%nat eqn:E.
    + apply Nat.ltb_lt in E.
      replace (List.length l1 + List.length cm <? List.length l + List.length cm)%nat
        with true by (symmetry; apply Nat.ltb_lt; lia).
      apply IH; [lia | rewrite length_app in *; lia | exact Hk].
    + apply Nat.ltb_ge in E.
      replace (List.length l1 + List.length cm <? List.length l + List.length cm)%nat
        with false by (symmetry; apply Nat.ltb_ge; lia).
      reflexivity.
Qed.

End Blind.

Lemma re_match_blind {A B : Type} (g : A -> B) (r : regex) :
  brace_blind r = true ->
  forall l (k : list ascii -> option A) (k' : list ascii -> option B),
    (forall l1, k' (l1 ++ cm) = option_map g (k l1)) ->
    re_match r (l ++ cm) k' = option_map g (re_match r l k).
Proof.
  induction r as [| neg rs | r1 IH1 r2 IH2 | r1 IH1 r2 IH2 | r IH];
    intros Hb l k k' Hk; cbn [re_match brace_blind] in *.
  - apply Hk.
  - destruct l as [| c l]; simpl.
    + apply negb_true_iff in Hb. fold brace. now rewrite Hb.
    + destruct (in_set neg rs c); [apply Hk | reflexivity].
  - apply andb_prop in Hb. destruct Hb as [Hb1 Hb2].
    apply IH1; [exact Hb1 |]. intros l1. now apply IH2.
  - apply andb_prop in Hb. destruct Hb as [Hb1 Hb2].
    rewrite (IH1 Hb1 l k k' Hk), (IH2 Hb2 l k k' Hk).
    destruct (re_match r1 l k); reflexivity.
  - apply (star_loop_blind g (fun X => @re_match X r)); try lia; try exact Hk.
    intros; now apply IH.
Qed.

End Extension.

(** *** Regular expressions that must end on a quote *)

Lemma star_loop_dead {A : Type} (step : list ascii -> (list ascii -> option A) -> option A)
  (Hstep : forall l k, (forall l', is_suffix l' l -> k l' = None) -> step l k = None) :
  forall n l k, (forall l', is_suffix l' l -> k l' = None) -> star_loop step k n l = None.
Proof.
  induction n as [| n IH]; intros l k Hk; cbn [star_loop].
  - apply Hk, is_suffix_refl.
  - rewrite Hstep.
    + apply Hk, is_suffix_refl.
    + intros l' Hl'. destruct (_ <? _)%nat; [| reflexivity].
      apply IH. intros l'' Hl''. apply Hk. eapply is_suffix_trans; eauto.
Qed.

(** A match whose continuation refuses every position of the text fails. *)
Lemma re_match_dead {A : Type} (r : regex) :
  forall l (k : list ascii -> option A),
    (forall l', is_suffix l' l -> k l' = None) -> re_match r l k = None.
Proof.
  induction r as [| neg rs | r1 IH1 r2 IH2 | r1 IH1 r2 IH2 | r IH];
    intros l k Hk; cbn [re_match].
  - apply Hk, is_suffix_refl.
  - destruct l as [| c l]; [reflexivity |].
    destruct (in_set neg rs c); [| reflexivity]. apply Hk. now exists 1%nat.
  - apply IH1. intros l' Hl'. apply IH2. intros l'' Hl''.
    apply Hk. eapply is_suffix_trans; eauto.
  - rewrite IH1 by exact Hk. now apply IH2.
  - apply star_loop_dead; [| exact Hk]. intros; now apply IH.
Qed.

Lemma is_suffix_nil l : is_suffix l [] -> l = [].
Proof. intros [j ->]. now destruct j. Qed.

Lemma nullable_none {A : Type} (r : regex) :
  nullable r = false -> forall (k : list ascii -> option A), re_match r [] k = None.
Proof.
  induction r as [| neg rs | r1 IH1 r2 IH2 | r1 IH1 r2 IH2 | r IH];
    intros Hn k; cbn [re_match nullable] in *; try discriminate.
  - reflexivity.
  - destruct (nullable r1).
    + apply re_match_dead. intros l' Hl'. apply is_suffix_nil in Hl'. subst.
      now apply IH2.
    + now apply IH1.
  - apply orb_false_elim in Hn. destruct Hn as [H1 H2].
    rewrite IH1 by exact H1. now apply IH2.
Qed.

Section Closed.

Variable t : list ascii.
Let cm : list ascii := brace :: t.

Lemma star_loop_closed {A B : Type} (g : A -> B)
  (step : forall X, list ascii -> (list ascii -> option X) -> option X)
  (Hdead : forall l (k : list ascii -> option B),
      (forall l', is_suffix l' l -> k l' = None) -> step B l k = None)
  (Hstep : forall l (k : list ascii -> option A) (k' : list ascii -> option B),
      (forall l1, k' (l1 ++ cm) = option_map g (k l1)) ->
      (forall t', is_suffix t' t -> k' t' = None) ->
      step B (l ++ cm) k' = option_map g (step A l k)) :
  forall n n' l k k',
    (List.length l < n)%nat -> (List.length (l ++ cm) < n')%nat ->
    (forall l1, k' (l1 ++ cm) = option_map g (k l1)) ->
    (forall t', is_suffix t' t -> k' t' = None) ->
    star_loop (step B) k' n' (l ++ cm) = option_map g (star_loop (step A) k n l).
Proof.
  induction n as [| n IH]; intros n' l k k' Hn Hn' Hk Hin; [lia |].
  destruct n' as [| n']; [lia |]. cbn [star_loop].
  rewrite (Hstep l (fun l' => if (List.length l' <? List.length l)%nat
                              then star_loop (step A) k n l' else None)).
  - destruct (step A l _); [reflexivity | apply Hk].
  - intros l1. rewrite !length_app.
    destruct (List.length l1 <? List.length l)%nat eqn:E.
    + apply Nat.ltb_lt in E.
      replace (List.length l1 + List.length cm <? List.length l + List.length cm)%nat
        with true by (symmetry; apply Nat.ltb_lt; lia).
      apply IH; [lia | rewrite length_app in *; lia | exact Hk | exact Hin].
    + apply Nat.ltb_ge in E.
      replace (List.length l1 + List.length cm <? List.length l + List.length cm)%nat
        with false by (symmetry; apply Nat.ltb_ge; lia).
      reflexivity.
  - intros t' Ht'. destruct (_ <? _)%nat; [| reflexivity].
    apply star_loop_dead; [exact Hdead |].
    intros l' Hl'. apply Hin. eapply is_suffix_trans; eauto.
Qed.

(** If the continuation refuses every position inside the appended text,
    the match cannot end there: it is the match on the text before it. *)
Lemma re_match_closed {A B : Type} (g : A -> B) (r : regex) :
  forall l (k : list ascii -> option A) (k' : list ascii -> option B),
    (forall l1, k' (l1 ++ cm) = option_map g (k l1)) ->
    (forall t', is_suffix t' t -> k' t' = None) ->
    re_match r (l ++ cm) k' = option_map g (re_match r l k).
Proof.
  induction r as [| neg rs | r1 IH1 r2 IH2 | r1 IH1 r2 IH2 | r IH];
    intros l k k' Hk Hin; cbn [re_match].
  - apply Hk.
  - destruct l as [| c l]; simpl.
    + destruct (in_set neg rs brace); [| reflexivity]. apply Hin, is_suffix_refl.
    + destruct (in_set neg rs c); [apply Hk | reflexivity].
  - apply IH1.
    + intros l1. now apply IH2.
    + intros t' Ht'. apply re_match_dead. intros l' Hl'.
      apply Hin. eapply is_suffix_trans; eauto.
  - rewrite (IH1 l k k' Hk Hin), (IH2 l k k' Hk Hin).
    destruct (re_match r1 l k); reflexivity.
  - apply (star_loop_closed g (fun X => @re_match X r)); try lia; try assumption;
      intros; first [now apply re_match_dead | now apply IH].
Qed.

End Closed.

Section RegexExt.

Variable t : list ascii.
Let cm : list ascii := brace :: t.

Lemma in_range_same (q a : ascii) : in_range q q a = true -> a = q.
Proof.
  unfold in_range. intros H. apply andb_prop in H. destruct H as [H1 H2].
  apply N.leb_le in H1, H2.
  rewrite <- (ascii_N_embedding a), <- (ascii_N_embedding q).
  f_equal. lia.
Qed.

Lemma is_quote_not_brace (q : ascii) :
  is_quote q = true -> in_set false [(q, q)] brace = false.
Proof.
  unfold is_quote. intros H. apply orb_prop in H.
  destruct H as [H | H]; apply Ascii.eqb_eq in H; subst; reflexivity.
Qed.

Lemma quoted_shape (r : regex) :
  quoted r = true ->
  exists q body,
    r = RSeq (RSet false [(q, q)]) (RSeq body (RSet false [(q, q)]))
    /\ is_quote q = true.
Proof.
  destruct r as [| | r1 r2 | |]; try discriminate.
  destruct r1 as [| neg1 rs1 | | |]; try discriminate.
  destruct neg1; try discriminate.
  destruct rs1 as [| [q1 q2] rs1]; try discriminate.
  destruct rs1; try discriminate.
  destruct r2 as [| | body r3 | |]; try discriminate.
  destruct r3 as [| neg3 rs3 | | |]; try discriminate.
  destruct neg3; try discriminate.
  destruct rs3 as [| [q3 q4] rs3]; try discriminate.
  destruct rs3; try discriminate.
  cbn [quoted]. intros H.
  apply andb_prop in H. destruct H as [H H4].
  apply andb_prop in H. destruct H as [H H3].
  apply andb_prop in H. destruct H as [H H2].
  apply Ascii.eqb_eq in H2, H3, H4. subst q2 q3 q4.
  exists q1, body. now split.
Qed.

Lemma not_quote_in_set (q a : ascii) :
  is_quote q = true -> is_quote a = false -> in_set false [(q, q)] a = false.
Proof.
  intros Hq Ha. unfold in_set. cbn [existsb fst snd xorb].
  destruct (in_range q q a) eqn:E; [| reflexivity].
  apply in_range_same in E. subst. congruence.
Qed.

Lemma quote_free_suffix l' l :
  is_suffix l' l -> quote_free l = true -> quote_free l' = true.
Proof.
  intros [j ->]. revert l. induction j as [| j IH]; intros l H; [exact H |].
  destruct l as [| a l]; [exact H |]. simpl in H. apply andb_prop in H.
  apply IH, H.
Qed.

Lemma re_match_quoted_closed (r : regex) (l : list ascii) :
  quoted r = true -> quote_free cm = true ->
  re_match r (l ++ cm) (fun x => Some x)
  = option_map (fun x => x ++ cm) (re_match r l (fun x => Some x)).
Proof.
  intros Hr Hcm. destruct (quoted_shape r Hr) as (q & body & -> & Hq).
  set (close := RSet false [(q, q)]).
  change (re_match (RSeq (RSet false [(q, q)]) body) (l ++ cm)
            (fun y => re_match close y (fun x => Some x))
          = option_map (fun x => x ++ cm)
              (re_match (RSeq (RSet false [(q, q)]) body) l
                 (fun y => re_match close y (fun x => Some x)))).
  apply re_match_closed.
  - subst close. intros [| a l1]; unfold cm; cbn [app re_match].
    + now rewrite (is_quote_not_brace q Hq).
    + destruct (in_set false [(q, q)] a); reflexivity.
  - subst close. intros t' Ht'. destruct t' as [| a t'']; [reflexivity |].
    cbn [re_match].
    rewrite not_quote_in_set; [reflexivity | exact Hq |].
    assert (Hqt : quote_free (a :: t'') = true).
    { apply (quote_free_suffix _ t Ht'). exact Hcm. }
    simpl in Hqt. apply andb_prop in Hqt. destruct Hqt as [Ha _].
    now apply negb_true_iff in Ha.
Qed.

Lemma re_match_quoted_free {A : Type} (r : regex) (l : list ascii)
    (k : list ascii -> option A) :
  quoted r = true -> quote_free l = true ->
  (l = [] \/ exists a l', l = a :: l') ->
  re_match r l k = None /\ forall (k' : list ascii -> option A), re_match r (l ++ cm) k' = None.
Proof.
  intros Hr Hl _. destruct (quoted_shape r Hr) as (q & body & -> & Hq).
  cbn [re_match]. destruct l as [| a l]; unfold cm; cbn [app].
  - split; [reflexivity |]. intros k'. now rewrite (is_quote_not_brace q Hq).
  - simpl in Hl. apply andb_prop in Hl. destruct Hl as [Ha _].
    apply negb_true_iff in Ha. rewrite (not_quote_in_set q a Hq Ha). now split.
Qed.

Lemma re_match_ext (r : regex) (l : list ascii) :
  regex_ext_ok t r l ->
  re_match r (l ++ cm) (fun x => Some x)
  = option_map (fun x => x ++ cm) (re_match r l (fun x => Some x)).
Proof.
  intros [Hb | (Hq & [Hc | Hl])].
  - now apply re_match_blind.
  - now apply re_match_quoted_closed.
  - destruct (re_match_quoted_free r l (fun x => Some x) Hq Hl) as [E1 E2].
    + destruct l; eauto.
    + now rewrite E1, E2.
Qed.

Lemma regex_match_ext (r : regex) (c : cursor) :
  regex_ext_ok t r (rest c) ->
  regex_match r (ext cm c)
  = option_map (fun p => (fst p, ext cm (snd p))) (regex_match r c).
Proof.
  intros Hr. unfold regex_match.
  change (rest (ext cm c)) with (rest c ++ cm).
  rewrite (re_match_ext r (rest c) Hr).
  destruct (re_match r (rest c) (fun x => Some x)) as [l' |] eqn:E; [| reflexivity].
  cbn [option_map fst snd].
  apply re_match_inv in E. destruct E as (l1 & E & S1). injection E as ->.
  apply is_suffix_length in S1.
  rewrite !length_app.
  replace (List.length (rest c) + List.length cm - (List.length l' + List.length cm))%nat
    with (List.length (rest c) - List.length l')%nat by lia.
  rewrite firstn_app.
  replace (List.length (rest c) - List.length l' - List.length (rest c))%nat
    with 0%nat by lia.
  cbn [firstn]. rewrite app_nil_r.
  unfold cm. rewrite advance_ext by lia. reflexivity.
Qed.

End RegexExt.

(** ** The comment grammar *)


Lemma Comment_def_shape : Comment_def = And [c_open; c_body; c_close].
Proof. reflexivity. Qed.

Lemma wf_defs (f : fwd) : is_FComment f = false -> wf false (defs f) = true.
Proof. destruct f; intros H; try discriminate; vm_compute; reflexivity. Qed.

Lemma wf_Sentences : wf false Sentences = true.
Proof. reflexivity. Qed.

Lemma wf_String : wf false String_ = true /\ wf false Char = true.
Proof. split; reflexivity. Qed.

(** ** Facts about single elements *)

Lemma starts_with_contains p l : starts_with p l = true -> contains p l = true.
Proof. intros H. destruct l; simpl; rewrite H; reflexivity. Qed.

Lemma contains_suffix p l' l :
  is_suffix l' l -> contains p l' = true -> contains p l = true.
Proof.
  intros [j ->]. revert l. induction j as [| j IH]; intros l H; [exact H |].
  destruct l as [| a l]; [exact H |].
  cbn [skipn] in H. apply IH in H. cbn [contains]. rewrite H. apply orb_true_r.
Qed.

Lemma all_white_suffix l' l :
  is_suffix l' l -> all_white l = true -> all_white l' = true.
Proof.
  intros [j ->]. revert l. induction j as [| j IH]; intros l H; [exact H |].
  destruct l as [| a l]; [exact H |]. simpl in H. apply andb_prop in H.
  apply IH, H.
Qed.

Lemma skip_white_all_white l : forall p,
  all_white l = true -> rest (skip_white p l) = [].
Proof.
  induction l as [| a l IH]; intros p H; simpl in *; [reflexivity |].
  apply andb_prop in H. destruct H as [Ha H]. rewrite Ha. now apply IH.
Qed.

Lemma skip_white_not_all_white l : forall p,
  all_white l = false -> all_white (rest (skip_white p l)) = false.
Proof.
  induction l as [| a l IH]; intros p H; simpl in *; [discriminate |].
  destruct (is_white a) eqn:Ea; simpl in *.
  - now apply IH.
  - now rewrite Ea.
Qed.

Section Facts.

Variable defs0 : fwd -> pe.
Variable ig0 : pe.

(** A keyword that matched is in the text. *)
Lemma kw_contains j m da s c d r :
  parse defs0 ig0 j m da (Suppress (Keyword s)) c = Ok (d, r) ->
  contains (list_ascii_of_string s) (rest c) = true.
Proof.
  unfold parse. destruct j as [| [| j]];
    [intros H; discriminate H | intros H; discriminate H |].
  - cbn [run call_parse parse_step]. intros H.
    apply bind_Ok in H. destruct H as ([c1 r1] & H1 & _).
    apply bind_Ok in H1. destruct H1 as (c0 & Hp & H1).
    apply (preParse_suffix _ (run_suffix defs0 ig0 j)) in Hp.
    destruct (keyword_match s c0) eqn:E; [| discriminate].
    unfold keyword_match in E. apply andb_prop in E. destruct E as [E _].
    apply andb_prop in E. destruct E as [E _].
    eapply contains_suffix; [exact Hp | now apply starts_with_contains].
Qed.

Lemma re_match_set_cons {A : Type} neg rs a l (k : list ascii -> option A) :
  re_match (RSet neg rs) (a :: l) k = if in_set neg rs a then k l else None.
Proof. reflexivity. Qed.

Lemma re_match_seq {A : Type} r1 r2 l (k : list ascii -> option A) :
  re_match (RSeq r1 r2) l k = re_match r1 l (fun l' => re_match r2 l' k).
Proof. reflexivity. Qed.

Lemma re_match_star {A : Type} r l (k : list ascii -> option A) :
  re_match (RStar r) l k = star_loop (re_match r) k (S (List.length l)) l.
Proof. reflexivity. Qed.

Lemma star_set_greedy neg rs : forall n l,
  (List.length l < n)%nat ->
  exists l', star_loop (re_match (RSet neg rs)) (fun x => Some x) n l = Some l'
             /\ is_suffix l' l
             /\ match l' with a :: _ => in_set neg rs a = false | [] => True end.
Proof.
  induction n as [| n IH]; intros l Hn; [lia |].
  cbn [star_loop]. destruct l as [| a l].
  - exists []. repeat split. apply is_suffix_refl.
  - rewrite re_match_set_cons. destruct (in_set neg rs a) eqn:Ea.
    + cbn [List.length]. rewrite (proj2 (Nat.ltb_lt _ _) (Nat.lt_succ_diag_r _)).
      destruct (IH l) as (l' & E & S1 & P); [simpl in Hn; lia |].
      rewrite E. exists l'. repeat split; [| exact P].
      eapply is_suffix_trans; [exact S1 | now exists 1%nat].
    + exists (a :: l). repeat split; [apply is_suffix_refl | exact Ea].
Qed.

Lemma skipn_suffix (l' l : list ascii) :
  is_suffix l' l -> skipn (List.length l - List.length l') l = l'.
Proof.
  intros [j ->]. destruct (Nat.le_gt_cases j (List.length l)) as [H | H].
  - rewrite length_skipn.
    replace (List.length l - (List.length l - j))%nat with j by lia. reflexivity.
  - assert (E : skipn j l = []) by (apply skipn_all2; lia).
    rewrite E. simpl. rewrite Nat.sub_0_r. apply skipn_all.
Qed.

Lemma greedy_run_stops n1 rs1 neg rs c s c2 :
  regex_match (RSeq (RSet n1 rs1) (RStar (RSet neg rs))) c = Some (s, c2) ->
  match rest c2 with a :: _ => in_set neg rs a = false | [] => True end.
Proof.
  unfold regex_match.
  destruct (re_match _ (rest c) _) as [l' |] eqn:E; [| discriminate].
  intros H. injection H as _ <-. rewrite advance_rest.
  pose proof (re_match_inv _ _ _ _ E) as (l1 & E1 & S1). injection E1 as ->.
  rewrite (skipn_suffix _ _ S1).
  destruct (rest c) as [| a l]; [discriminate |].
  rewrite re_match_seq, re_match_set_cons in E.
  destruct (in_set n1 rs1 a); [| discriminate].
  rewrite re_match_star in E.
  destruct (star_set_greedy neg rs (S (List.length l)) l) as (l2 & E2 & _ & P); [lia |].
  rewrite E2 in E. injection E as <-. exact P.
Qed.

(** [SourceName + "@"] inside a [Combine] never matches. *)
Lemma src_at_fails es j da c :
  is_src_at es = true ->
  (parse defs0 ig0 j Adjacent da (And es) c = OutOfFuel
   \/ parse defs0 ig0 j Adjacent da (And es) c = Raise ParseException)
  /\ ((3 <= j)%nat -> parse defs0 ig0 j Adjacent da (And es) c = Raise ParseException).
Proof.
  destruct es as [| e1 es]; try discriminate.
  destruct e1 as [| | r | | | | | | | | | | | | | | |]; try discriminate.
  destruct r as [| | r1 r2 | |]; try discriminate.
  destruct r1 as [| n1 rs1 | | |]; try discriminate.
  destruct r2 as [| | | | r3]; try discriminate.
  destruct r3 as [| neg rs | | |]; try discriminate.
  destruct es as [| e2 es]; try discriminate.
  destruct e2 as [a | | | | | | | | | | | | | | | | |]; try discriminate.
  destruct es; try discriminate.
  cbn [is_src_at]. intros H. apply andb_prop in H. destruct H as [Ha Hin].
  apply String.eqb_eq in Ha. subst a.
  assert (Hfail : forall j', parse defs0 ig0 (S (S j')) Adjacent da
                                (And [Regex (RSeq (RSet n1 rs1) (RStar (RSet neg rs)));
                                      Literal "@"]) c = Raise ParseException).
  { intros j'. unfold parse. cbn [run call_parse parse_step parse_seq preParse
                                   skips_comments skips_white andb bind].
    destruct (regex_match _ c) as [[s c2] |] eqn:E; [| reflexivity].
    cbn [bind]. apply greedy_run_stops in E.
    destruct (rest c2) as [| b l]; [reflexivity |].
    cbn [list_ascii_of_string starts_with].
    destruct (Ascii.eqb "@" b) eqn:Eb; [| reflexivity].
    apply Ascii.eqb_eq in Eb. subst b. congruence. }
  split.
  - destruct j as [| [| j']]; [now left | now left | right; apply Hfail].
  - intros Hj. destruct j as [| [| j']]; try lia. apply Hfail.
Qed.

End Facts.

(** ** Fuel lifting *)

Section Lift.

Variable defs0 : fwd -> pe.
Variable ig0 : pe.

Lemma parse_fuel n n' m da e c r :
  parse defs0 ig0 n m da e c = r -> r <> OutOfFuel -> (n <= n')%nat ->
  parse defs0 ig0 n' m da e c = r.
Proof.
  intros E Hr Hn. destruct (le_parse _ _ (run_le defs0 ig0 n n' Hn) m da e c) as [H | H];
    unfold parse in *; congruence.
Qed.

Lemma many_fuel n n' m da e c acc r :
  many defs0 ig0 n m da e c acc = r -> r <> OutOfFuel -> (n <= n')%nat ->
  many defs0 ig0 n' m da e c acc = r.
Proof.
  intros E Hr Hn.
  destruct (le_many _ _ (run_le defs0 ig0 n n' Hn) m da e c acc) as [H | H];
    unfold many in *; congruence.
Qed.

Lemma skip_fuel n n' c r :
  skipIgnorables defs0 ig0 n c = r -> r <> OutOfFuel -> (n <= n')%nat ->
  skipIgnorables defs0 ig0 n' c = r.
Proof.
  intros E Hr Hn. destruct (le_skip _ _ (run_le defs0 ig0 n n' Hn) c) as [H | H];
    unfold skipIgnorables in *; congruence.
Qed.

End Lift.

(** ** At the end of the input *)

Lemma skip_end j c :
  (5 <= j)%nat -> rest c = [] -> skipIgnorables defs ignoreExpr j c = Ok c.
Proof.
  intros Hj Hc. destruct c as [p l]. simpl in Hc. subst l.
  apply (skip_fuel _ _ 5 j); [reflexivity | discriminate | exact Hj].
Qed.

Lemma many_end j c acc :
  (14 <= j)%nat -> rest c = [] ->
  many defs ignoreExpr j WsOnly true c_alts c acc = Ok (c, acc).
Proof.
  intros Hj Hc. destruct c as [p l]. simpl in Hc. subst l.
  apply (many_fuel _ _ 14 j); [reflexivity | discriminate | exact Hj].
Qed.

(** ** The appended comment *)

Lemma open_tail k p w t :
  all_white w = true ->
  parse_step defs k WsOnly true c_open (mkCursor p (w ++ brace :: t))
  = Ok (mkCursor (Some brace) t, one_token (PStr "{")).
Proof.
  intros Hw. unfold c_open. cbn [parse_step preParse skips_comments skips_white andb bind
                                  rest prev].
  rewrite skip_white_ext.
  pose proof (skip_white_all_white w p Hw) as E.
  destruct (skip_white p w) as [p1 l1]. simpl in E. subst l1.
  reflexivity.
Qed.

Lemma open_here k p t :
  parse_step defs k WsOnly true c_open (mkCursor p (brace :: t))
  = Ok (mkCursor (Some brace) t, one_token (PStr "{")).
Proof. exact (open_tail k p [] t eq_refl). Qed.

Lemma comment_def_unfold n c :
  parse defs ignoreExpr (S (S n)) WsOnly true Comment_def c
  = bind (parse_step defs (run defs ignoreExpr n) WsOnly true c_open c)
         (fun x => let (c1, r0) := x in
                   parse_seq (run defs ignoreExpr (S n)) WsOnly true [c_body; c_close] c1
                             (add_results no_results r0)).
Proof. reflexivity. Qed.

(** From some depth on, the comment grammar matches the appended comment
    to the end of the input, after any whitespace. *)
Lemma comment_tail (t : list ascii) :
  comment_text (brace :: t) ->
  exists n1, forall j, (n1 <= j)%nat -> forall p w, all_white w = true ->
    exists p' r,
      parse defs ignoreExpr j WsOnly true Comment_def (mkCursor p (w ++ brace :: t))
      = Ok (mkCursor p' [], r).
Proof.
  intros (n & p' & r & E). exists n. intros j Hj p w Hw. exists p', r.
  destruct n as [| n]; [discriminate E |].
  change (parse defs ignoreExpr n WsOnly true Comment_def (mkCursor None (brace :: t))
          = Ok (mkCursor p' [], r)) in E.
  apply (parse_fuel _ _ n j); [| discriminate | lia].
  destruct n as [| [| n]]; [discriminate E | discriminate E |].
  rewrite comment_def_unfold in *.
  rewrite open_tail by exact Hw. rewrite open_here in E. exact E.
Qed.

(** ** The parse of a text followed by a comment *)


Lemma good_suffix cm l' l : is_suffix l' l -> good cm l -> good cm l'.
Proof.
  intros S [Hi Hq]. split.
  - destruct (contains (str "import") l') eqn:E; [| reflexivity].
    rewrite (contains_suffix _ _ _ S E) in Hi. discriminate.
  - destruct Hq as [Hq | Hq]; [now left | right].
    eapply quote_free_suffix; eauto.
Qed.

Lemma all_white_nil_rest c : rest c = [] -> all_white (rest c) = true.
Proof. intros ->. reflexivity. Qed.

Lemma rel_adj_full cm c c' : rel_adj cm c c' -> rel_full cm c c'.
Proof.
  intros [H | [H1 H2]]; [now left | right]. split; [now apply all_white_nil_rest | exact H2].
Qed.

Lemma rel_skipped_full cm c c' : rel_skipped cm c c' -> rel_full cm c c'.
Proof. intros [[H _] | H]; [now left | now right]. Qed.

Lemma rel_adj_rel cm m c c' : rel_adj cm c c' -> rel cm m c c'.
Proof. unfold rel. destruct (is_adj m); [trivial | apply rel_adj_full]. Qed.

Lemma ext_rest_nonempty cm c a t : cm = a :: t -> rest (ext cm c) <> [].
Proof. intros ->. unfold ext. simpl. destruct (rest c); discriminate. Qed.

Lemma skip_white_nil_all_white l : forall p,
  rest (skip_white p l) = [] -> all_white l = true.
Proof.
  intros p H. destruct (all_white l) eqn:E; [reflexivity |].
  apply (skip_white_not_all_white l p) in E. rewrite H in E. discriminate.
Qed.

Lemma skip_white_nil p : skip_white p [] = mkCursor p [].
Proof. reflexivity. Qed.

Lemma skip_white_at_end c : rest c = [] -> skip_white (prev c) (rest c) = c.
Proof. destruct c as [p l]. simpl. intros ->. reflexivity. Qed.

(** Skipping whitespace on both sides. *)
Lemma skip_white_rel t c c' :
  rel_full (brace :: t) c c' ->
  rel_adj (brace :: t) (skip_white (prev c) (rest c)) (skip_white (prev c') (rest c'))
  /\ (all_white (rest c) = true -> rest (skip_white (prev c) (rest c)) = [])
  /\ (all_white (rest c) = false ->
      skip_white (prev c') (rest c') = ext (brace :: t) (skip_white (prev c) (rest c))
      /\ all_white (rest (skip_white (prev c) (rest c))) = false).
Proof.
  intros H. split; [| split].
  - destruct H as [-> | [H1 H2]].
    + left. cbn [ext prev rest]. apply skip_white_ext.
    + right. split; [now apply skip_white_all_white |].
      rewrite skip_white_at_end by exact H2. exact H2.
  - intros Hw. now apply skip_white_all_white.
  - intros Hw. destruct H as [-> | [H1 H2]]; [| congruence].
    split; [cbn [ext prev rest]; apply skip_white_ext | now apply skip_white_not_all_white].
Qed.

(** ** Tokens *)

Section Tokens.

Variable t : list ascii.
Local Abbreviation cm := (brace :: t).

Lemma lit_ok_inv s :
  lit_ok s = true ->
  no_brace (list_ascii_of_string s) = true
  /\ exists a s', list_ascii_of_string s = a :: s'.
Proof.
  unfold lit_ok. intros H. apply andb_prop in H. destruct H as [H1 H2].
  split; [exact H2 |]. destruct s as [| a s]; [discriminate H1 |].
  simpl. eauto.
Qed.

Lemma literal_tok s c c' :
  lit_ok s = true -> rel_adj cm c c' ->
  tok_ok cm
    (if starts_with (list_ascii_of_string s) (rest c)
     then Ok (advance (String.length s) c, one_token (PStr s))
     else Raise ParseException)
    (if starts_with (list_ascii_of_string s) (rest c')
     then Ok (advance (String.length s) c', one_token (PStr s))
     else Raise ParseException).
Proof.
  intros Hs Hr. destruct (lit_ok_inv s Hs) as (Hb & a & s' & Es).
  destruct Hr as [-> | [H1 H2]].
  - cbn [ext rest]. rewrite starts_with_ext by exact Hb.
    destruct (starts_with _ (rest c)) eqn:E; cbn [tok_ok]; [| now split].
    apply starts_with_length in E. rewrite length_list_ascii_of_string in E.
    now rewrite <- advance_ext by exact E.
  - rewrite H1, H2, Es. cbn [starts_with tok_ok]. now split.
Qed.

Lemma keyword_match_end s c :
  lit_ok s = true -> rest c = [] -> keyword_match s c = false.
Proof.
  intros Hs Hc. destruct (lit_ok_inv s Hs) as (_ & a & s' & Es).
  unfold keyword_match. now rewrite Hc, Es.
Qed.

Lemma keyword_tok s c c' :
  lit_ok s = true -> rel_adj cm c c' ->
  tok_ok cm
    (if keyword_match s c
     then Ok (advance (String.length s) c, one_token (PStr s))
     else Raise ParseException)
    (if keyword_match s c'
     then Ok (advance (String.length s) c', one_token (PStr s))
     else Raise ParseException).
Proof.
  intros Hs Hr. destruct (lit_ok_inv s Hs) as (Hb & _).
  destruct Hr as [-> | [H1 H2]].
  - rewrite keyword_match_ext by exact Hb.
    destruct (keyword_match s c) eqn:E; cbn [tok_ok]; [| now split].
    unfold keyword_match in E. apply andb_prop in E. destruct E as [E _].
    apply andb_prop in E. destruct E as [E _].
    apply starts_with_length in E. rewrite length_list_ascii_of_string in E.
    now rewrite <- advance_ext by exact E.
  - rewrite !keyword_match_end by assumption. cbn [tok_ok]. now split.
Qed.

Lemma one_of_match_end syms :
  forallb lit_ok syms = true -> one_of_match syms [] = None.
Proof.
  induction syms as [| s syms IH]; intros H; [reflexivity |].
  simpl in H. apply andb_prop in H. destruct H as [Hs H].
  destruct (lit_ok_inv s Hs) as (_ & a & s' & Es).
  cbn [one_of_match]. rewrite Es. cbn [starts_with]. now apply IH.
Qed.

Lemma lit_ok_no_brace syms :
  forallb lit_ok syms = true ->
  forallb (fun s => no_brace (list_ascii_of_string s)) syms = true.
Proof.
  induction syms as [| s syms IH]; intros H; [reflexivity |].
  simpl in *. apply andb_prop in H. destruct H as [Hs H].
  rewrite (proj1 (lit_ok_inv s Hs)). now apply IH.
Qed.

Lemma one_of_tok syms c c' :
  forallb lit_ok syms = true -> rel_adj cm c c' ->
  tok_ok cm
    (match one_of_match syms (rest c) with
     | Some s => Ok (advance (String.length s) c, one_token (PStr s))
     | None => Raise ParseException
     end)
    (match one_of_match syms (rest c') with
     | Some s => Ok (advance (String.length s) c', one_token (PStr s))
     | None => Raise ParseException
     end).
Proof.
  intros Hs Hr. destruct Hr as [-> | [H1 H2]].
  - cbn [ext rest]. rewrite one_of_match_ext by now apply lit_ok_no_brace.
    destruct (one_of_match syms (rest c)) as [s |] eqn:E; cbn [tok_ok]; [| now split].
    apply one_of_match_prefix, starts_with_length in E.
    rewrite length_list_ascii_of_string in E.
    now rewrite <- advance_ext by exact E.
  - rewrite H1, H2, one_of_match_end by exact Hs. cbn [tok_ok]. now split.
Qed.

Lemma regex_match_end r c :
  nullable r = false -> rest c = [] -> regex_match r c = None.
Proof.
  intros Hn Hc. unfold regex_match. rewrite Hc.
  now rewrite nullable_none by exact Hn.
Qed.

Lemma regex_ok_ext r l :
  regex_ok r = true -> good cm l -> regex_ext_ok t r l.
Proof.
  unfold regex_ok, regex_ext_ok. intros H [_ Hq].
  apply andb_prop in H. destruct H as [_ H]. apply orb_prop in H.
  destruct H as [H | H]; [now left | right]. now split.
Qed.

Lemma regex_tok r c c' :
  regex_ok r = true -> good cm (rest c) -> rel_adj cm c c' ->
  tok_ok cm
    (match regex_match r c with
     | Some (s, c2) => Ok (c2, one_token (PStr s))
     | None => Raise ParseException
     end)
    (match regex_match r c' with
     | Some (s, c2) => Ok (c2, one_token (PStr s))
     | None => Raise ParseException
     end).
Proof.
  intros Hr Hg Hrel. destruct Hrel as [-> | [H1 H2]].
  - rewrite regex_match_ext by now apply regex_ok_ext.
    destruct (regex_match r c) as [[s c2] |]; cbn [option_map fst snd tok_ok];
      [reflexivity | now split].
  - unfold regex_ok in Hr. apply andb_prop in Hr. destruct Hr as [Hn _].
    apply negb_true_iff in Hn.
    rewrite !regex_match_end by assumption. cbn [tok_ok]. now split.
Qed.

Lemma tok_sim_ok m R R' : tok_ok cm R R' -> sim_ok cm m R R'.
Proof.
  destruct R as [[d r] | x |]; cbn [tok_ok sim_ok].
  - intros ->. eexists. split; [reflexivity |]. apply rel_adj_rel. now left.
  - now intros [_ ->].
  - trivial.
Qed.

End Tokens.

(** ** One step of the interpreter *)

Section Step.

Variable t : list ascii.
Local Abbreviation cm := (brace :: t).

Variables F n : nat.
Local Abbreviation k := (run defs ignoreExpr n).
Local Abbreviation k' := (run defs ignoreExpr (n + F)).

Hypothesis HF : (14 <= F)%nat.
Hypothesis Htail : forall j p w,
  (F <= j)%nat -> all_white w = true ->
  exists p' r,
    parse defs ignoreExpr j WsOnly true Comment_def (mkCursor p (w ++ cm))
    = Ok (mkCursor p' [], r).
Hypothesis IH : sim cm k k'.

Lemma good_parse m da e c d r :
  good cm (rest c) -> call_parse k m da e c = Ok (d, r) -> good cm (rest d).
Proof.
  intros Hg E. eapply good_suffix; [| exact Hg].
  exact (suffix_parse _ (run_suffix defs ignoreExpr n) _ _ _ _ _ _ E).
Qed.

Lemma good_skip c d : good cm (rest c) -> call_skip k c = Ok d -> good cm (rest d).
Proof.
  intros Hg E. eapply good_suffix; [| exact Hg].
  exact (suffix_skip _ (run_suffix defs ignoreExpr n) _ _ E).
Qed.

Lemma good_preParse m w c d : good cm (rest c) -> preParse k m w c = Ok d -> good cm (rest d).
Proof.
  intros Hg E. eapply good_suffix; [| exact Hg].
  exact (preParse_suffix _ (run_suffix defs ignoreExpr n) _ _ _ _ E).
Qed.

Lemma not_WsOnly m : m <> WsOnly -> is_adj m = false -> m = Full.
Proof. destruct m; intros H1 H2; [reflexivity | contradiction | discriminate]. Qed.

Lemma preParse_sim m w c c' :
  m <> WsOnly -> good cm (rest c) -> rel cm m c c' ->
  match preParse k m w c with
  | Ok c1 =>
      exists c1', preParse k' m w c' = Ok c1'
                  /\ rel cm m c1 c1' /\ (w = true -> rel_adj cm c1 c1')
  | Raise x => preParse k' m w c' = Raise x
  | OutOfFuel => True
  end.
Proof.
  intros Hm Hg Hrel. destruct m; [| contradiction |].
  - unfold preParse. cbn [skips_comments skips_white]. rewrite andb_true_r.
    pose proof (sim_skip _ _ _ IH c c' Hg Hrel) as Hs.
    destruct (call_skip k c) as [d | x |]; cbn [skip_ok bind] in *;
      [| now rewrite Hs | exact I].
    destruct Hs as (d' & -> & Hd). cbn [bind]. eexists. split; [reflexivity |].
    destruct w.
    + destruct (skip_white_rel t d d' (rel_skipped_full _ _ _ Hd)) as (Ha & _).
      split; [apply rel_adj_full, Ha | intros _; exact Ha].
    + split; [apply rel_skipped_full, Hd | discriminate].
  - unfold preParse. cbn [skips_comments skips_white bind]. rewrite andb_false_r.
    exists c'. repeat split; trivial.
Qed.

Lemma parse_seq_sim m da es :
  m <> WsOnly -> forallb (wf (is_adj m)) es = true ->
  forall c c' acc, good cm (rest c) -> rel cm m c c' ->
    sim_ok cm m (parse_seq k m da es c acc) (parse_seq k' m da es c' acc).
Proof.
  intros Hm. induction es as [| e es IHes]; intros Hwf c c' acc Hg Hrel;
    cbn [parse_seq].
  - exists c'. now split.
  - cbn [forallb] in Hwf. apply andb_prop in Hwf. destruct Hwf as [He Hes].
    pose proof (sim_parse _ _ _ IH m da e c c' Hm He Hg Hrel) as H.
    destruct (call_parse k m da e c) as [[c1 r] | x |] eqn:E; cbn [sim_ok bind] in *;
      [| now rewrite H | exact I].
    destruct H as (c1' & -> & Hrel1). cbn [bind].
    apply IHes; [exact Hes | eapply good_parse; eauto | exact Hrel1].
Qed.

Lemma parse_alt_sim m da es c c' :
  m <> WsOnly -> forallb (wf (is_adj m)) es = true ->
  good cm (rest c) -> rel cm m c c' ->
  sim_ok cm m (parse_alt k m da es c) (parse_alt k' m da es c').
Proof.
  intros Hm Hwf Hg Hrel. induction es as [| e es IHes]; cbn [parse_alt].
  - reflexivity.
  - cbn [forallb] in Hwf. apply andb_prop in Hwf. destruct Hwf as [He Hes].
    pose proof (sim_parse _ _ _ IH m da e c c' Hm He Hg Hrel) as H.
    destruct (call_parse k m da e c) as [[c1 r] | x |]; cbn [sim_ok] in *;
      [| rewrite H | exact I].
    + destruct H as (c1' & -> & Hrel1). exists c1'. now split.
    + destruct (recoverable x); [now apply IHes | reflexivity].
Qed.

Ltac pre_step Hm Hg Hrel :=
  match goal with
  | |- sim_ok _ ?m (bind (preParse _ _ ?w ?c) _) (bind (preParse _ _ _ ?c') _) =>
      let H := fresh "Hp" in
      pose proof (preParse_sim m w c c' Hm Hg Hrel) as H;
      let E := fresh "Ep" in
      destruct (preParse k m w c) as [?c1 | ?x |] eqn:E; cbn [bind sim_ok];
      [ destruct H as (?c1' & -> & ?Hrel1 & ?Hadj); cbn [bind]
      | now rewrite H
      | exact I ]
  end.

Ltac call_step H :=
  match type of H with
  | sim_ok _ _ ?R _ =>
      let E := fresh "Ec" in
      destruct R as [[?c2 ?r2] | ?x |] eqn:E; cbn [sim_ok bind] in H |- *;
      [ destruct H as (?c2' & -> & ?Hrel2); cbn [bind]
      | try (rewrite H; cbn [bind sim_ok]; try reflexivity)
      | try exact I ]
  end.

Lemma import_sim m da es c c' :
  m <> WsOnly -> is_import es = true -> good cm (rest c) -> rel cm m c c' ->
  sim_ok cm m (parse_seq k m da es c no_results) (parse_seq k' m da es c' no_results).
Proof.
  intros Hm Hi Hg Hrel.
  destruct es as [| e1 es]; [discriminate |].
  destruct e1; try discriminate. destruct e1; try discriminate.
  cbn [is_import] in Hi. apply String.eqb_eq in Hi. subst s.
  cbn [parse_seq].
  pose proof (sim_parse _ _ _ IH m da (Suppress (Keyword "import")) c c' Hm eq_refl Hg Hrel)
    as H.
  destruct (call_parse k m da (Suppress (Keyword "import")) c) as [[c1 r] | x |] eqn:E;
    cbn [sim_ok bind] in *; [| now rewrite H | exact I].
  exfalso. apply (kw_contains defs ignoreExpr n) in E.
  destruct Hg as [Hc _]. unfold str in Hc. congruence.
Qed.

Lemma src_at_sim da es c c' :
  is_src_at es = true ->
  sim_ok cm Adjacent (parse_step defs k Adjacent da (And es) c)
                     (parse_step defs k' Adjacent da (And es) c').
Proof.
  intros Hs.
  destruct (src_at_fails defs ignoreExpr es (S n) da c Hs) as [Ho _].
  destruct (src_at_fails defs ignoreExpr es (S (n + F)) da c' Hs) as [_ Hx].
  change (parse_step defs k Adjacent da (And es) c)
    with (parse defs ignoreExpr (S n) Adjacent da (And es) c).
  change (parse_step defs k' Adjacent da (And es) c')
    with (parse defs ignoreExpr (S (n + F)) Adjacent da (And es) c').
  rewrite Hx by lia. destruct Ho as [-> | ->]; cbn [sim_ok]; trivial.
Qed.

Lemma parse_step_sim m da e c c' :
  m <> WsOnly -> wf (is_adj m) e = true -> good cm (rest c) -> rel cm m c c' ->
  sim_ok cm m (parse_step defs k m da e c) (parse_step defs k' m da e c').
Proof.
  intros Hm Hwf Hg Hrel. destruct e; cbn [wf] in Hwf.
  - (* Literal *)
    cbn [parse_step]. pre_step Hm Hg Hrel.
    apply tok_sim_ok, literal_tok; [exact Hwf | now apply Hadj].
  - (* Keyword *)
    cbn [parse_step]. pre_step Hm Hg Hrel.
    apply tok_sim_ok, keyword_tok; [exact Hwf | now apply Hadj].
  - (* Regex *)
    cbn [parse_step]. pre_step Hm Hg Hrel.
    apply tok_sim_ok, regex_tok;
      [exact Hwf | eapply good_preParse; eauto | now apply Hadj].
  - (* OneOf *)
    cbn [parse_step]. pre_step Hm Hg Hrel.
    apply tok_sim_ok, one_of_tok; [exact Hwf | now apply Hadj].
  - (* And *)
    apply orb_prop in Hwf. destruct Hwf as [Hwf | Hwf];
      [apply orb_prop in Hwf; destruct Hwf as [Hi | Hs] |].
    + cbn [parse_step]. now apply import_sim.
    + apply andb_prop in Hs. destruct Hs as [Ha Hs].
      destruct m; try discriminate Ha. now apply src_at_sim.
    + cbn [parse_step]. now apply parse_seq_sim.
  - (* MatchFirst *)
    cbn [parse_step]. now apply parse_alt_sim.
  - (* Optional *)
    cbn [parse_step]. pre_step Hm Hg Hrel.
    pose proof (sim_parse _ _ _ IH m da e c1 c1' Hm Hwf
                  (good_preParse _ _ _ _ Hg Ep) Hrel1) as H.
    call_step H.
    + exists c2'. now split.
    + destruct (recoverable x); [| reflexivity]. exists c1'. now split.
  - (* ZeroOrMore *)
    cbn [parse_step]. pre_step Hm Hg Hrel.
    pose proof (good_preParse _ _ _ _ Hg Ep) as Hg1.
    pose proof (sim_parse _ _ _ IH m da e c1 c1' Hm Hwf Hg1 Hrel1) as H.
    call_step H.
    + apply (sim_many _ _ _ IH); try assumption. eapply good_parse; eauto.
    + destruct (recoverable x); [| reflexivity]. exists c1'. now split.
  - (* OneOrMore *)
    cbn [parse_step].
    pose proof (sim_parse _ _ _ IH m da e c c' Hm Hwf Hg Hrel) as H.
    call_step H.
    apply (sim_many _ _ _ IH); try assumption. eapply good_parse; eauto.
  - (* NotAny *)
    cbn [parse_step]. pre_step Hm Hg Hrel.
    pose proof (sim_parse _ _ _ IH m false e c1 c1' Hm Hwf
                  (good_preParse _ _ _ _ Hg Ep) Hrel1) as H.
    call_step H.
    + reflexivity.
    + destruct x; try reflexivity; exists c1'; now split.
  - (* FollowedBy *)
    cbn [parse_step]. pre_step Hm Hg Hrel.
    pose proof (sim_parse _ _ _ IH m false e c1 c1' Hm Hwf
                  (good_preParse _ _ _ _ Hg Ep) Hrel1) as H.
    call_step H.
    + exists c1'. now split.
    + destruct x; reflexivity.
  - (* Group *)
    cbn [parse_step].
    pose proof (sim_parse _ _ _ IH m da e c c' Hm Hwf Hg Hrel) as H.
    call_step H. exists c2'. now split.
  - (* Suppress *)
    cbn [parse_step].
    pose proof (sim_parse _ _ _ IH m da e c c' Hm Hwf Hg Hrel) as H.
    call_step H. exists c2'. now split.
  - (* Combine *)
    cbn [parse_step]. pre_step Hm Hg Hrel.
    assert (Ha : Adjacent <> WsOnly) by discriminate.
    pose proof (sim_parse _ _ _ IH Adjacent da e c1 c1' Ha Hwf
                  (good_preParse _ _ _ _ Hg Ep) (Hadj eq_refl)) as H.
    call_step H.
    destruct (combine_tokens r2) as [r' | x |]; cbn [bind sim_ok]; trivial.
    exists c2'. split; [reflexivity | now apply rel_adj_rel].
  - (* ResultsName *)
    cbn [parse_step].
    pose proof (sim_parse _ _ _ IH m da e c c' Hm Hwf Hg Hrel) as H.
    call_step H. exists c2'. now split.
  - (* ParseAction *)
    cbn [parse_step].
    pose proof (sim_parse _ _ _ IH m da e c c' Hm Hwf Hg Hrel) as H.
    call_step H. destruct da.
    + destruct (f r2) as [o | x |]; cbn [bind sim_ok]; trivial.
      destruct o; exists c2'; now split.
    + exists c2'. now split.
  - (* Forward *)
    cbn [parse_step]. apply andb_prop in Hwf. destruct Hwf as [Ha Hf].
    apply negb_true_iff in Ha, Hf.
    apply (sim_parse _ _ _ IH); try assumption.
    rewrite Ha. now apply wf_defs.
  - discriminate Hwf.
Qed.

Lemma many_step_sim m da e c c' acc :
  m <> WsOnly -> wf (is_adj m) e = true -> good cm (rest c) -> rel cm m c c' ->
  sim_ok cm m (many_step k m da e c acc) (many_step k' m da e c' acc).
Proof.
  intros Hm Hwf Hg Hrel. unfold many_step.
  assert (Hs : match (if skips_comments m then call_skip k c else Ok c) with
               | Ok c1 => exists c1',
                   (if skips_comments m then call_skip k' c' else Ok c') = Ok c1'
                   /\ rel cm m c1 c1' /\ good cm (rest c1)
               | Raise x => (if skips_comments m then call_skip k' c' else Ok c') = Raise x
               | OutOfFuel => True
               end).
  { destruct m; [| contradiction |]; cbn [skips_comments].
    - pose proof (sim_skip _ _ _ IH c c' Hg Hrel) as H.
      destruct (call_skip k c) as [d | x |] eqn:E; cbn [skip_ok] in H; trivial.
      destruct H as (d' & -> & Hd). exists d'. split; [reflexivity |].
      split; [apply rel_skipped_full, Hd | eapply good_skip; eauto].
    - exists c'. split; [reflexivity | split; assumption]. }
  destruct (if skips_comments m then call_skip k c else Ok c) as [c1 | x |];
    cbn [bind sim_ok]; [| now rewrite Hs | exact I].
  destruct Hs as (c1' & -> & Hrel1 & Hg1). cbn [bind].
  pose proof (sim_parse _ _ _ IH m da e c1 c1' Hm Hwf Hg1 Hrel1) as H.
  call_step H.
  - apply (sim_many _ _ _ IH); try assumption. eapply good_parse; eauto.
  - destruct (recoverable x); [| reflexivity]. exists c'. now split.
Qed.

(** *** The comment grammar *)

Lemma c_open_step kk c :
  parse_step defs kk WsOnly true c_open c
  = (let c1 := skip_white (prev c) (rest c) in
     if starts_with [brace] (rest c1)
     then Ok (advance 1 c1, one_token (PStr "{")) else Raise ParseException).
Proof. reflexivity. Qed.

Lemma c_close_step kk c :
  parse_step defs kk WsOnly true c_close c
  = (let c1 := skip_white (prev c) (rest c) in
     if starts_with (list_ascii_of_string "}") (rest c1)
     then Ok (advance (String.length "}") c1, one_token (PStr "}"))
     else Raise ParseException).
Proof. reflexivity. Qed.

Lemma regex_step kk r c :
  parse_step defs kk WsOnly true (Regex r) c
  = (let c1 := skip_white (prev c) (rest c) in
     match regex_match r c1 with
     | Some (s, c2) => Ok (c2, one_token (PStr s))
     | None => Raise ParseException
     end).
Proof. reflexivity. Qed.

Lemma c_body_step kk c :
  parse_step defs kk WsOnly true c_body c
  = (let c1 := skip_white (prev c) (rest c) in
     match call_parse kk WsOnly true c_alts c1 with
     | Ok (c2, r) => call_many kk WsOnly true c_alts c2 r
     | Raise x => if recoverable x then Ok (c1, no_results) else Raise x
     | OutOfFuel => OutOfFuel
     end).
Proof. reflexivity. Qed.

Lemma c_alts_step kk c :
  parse_step defs kk WsOnly true c_alts c
  = parse_alt kk WsOnly true [Shared String_; Shared Char; Comment; c_text] c.
Proof. reflexivity. Qed.

Lemma comment_def_step kk c :
  parse_step defs kk WsOnly true Comment_def c
  = bind (call_parse kk WsOnly true c_open c)
      (fun x1 => let (c1, r1) := x1 in
         bind (call_parse kk WsOnly true c_body c1)
           (fun x2 => let (c2, r2) := x2 in
              bind (call_parse kk WsOnly true c_close c2)
                (fun x3 => let (c3, r3) := x3 in
                   Ok (c3, add_results
                             (add_results (add_results no_results r1) r2) r3)))).
Proof. reflexivity. Qed.

Lemma ignore_step kk c :
  parse_step defs kk WsOnly true ignoreExpr c
  = bind (call_parse kk WsOnly true Comment c)
      (fun x => let (c1, _) := x in Ok (c1, no_results)).
Proof. reflexivity. Qed.

Lemma c_many_step kk c acc :
  many_step kk WsOnly true c_alts c acc
  = match call_parse kk WsOnly true c_alts c with
    | Ok (c2, r) => call_many kk WsOnly true c_alts c2 (add_results acc r)
    | Raise x => if recoverable x then Ok (c, acc) else Raise x
    | OutOfFuel => OutOfFuel
    end.
Proof. reflexivity. Qed.

Lemma tok_csim c c' R R' : tok_ok cm R R' -> csim_ok cm StrictPE c c' R R'.
Proof.
  destruct R as [[d r] | x |]; cbn [tok_ok csim_ok]; trivial.
  - intros ->. split; [| discriminate]. exists (ext cm d), r. split; [reflexivity | now left].
  - intros [-> ->]. destruct (all_white (rest c)); [now split | reflexivity].
Qed.

Lemma sim_csim c c' R R' : sim_ok cm Full R R' -> csim_ok cm Strict c c' R R'.
Proof.
  destruct R as [[d r] | x |]; cbn [sim_ok csim_ok]; trivial.
  - intros (d' & -> & Hd). split; [| discriminate]. now exists d', r.
  - intros ->. now destruct (all_white (rest c)).
Qed.

Lemma cmany_csim c c' R R' : cmany_ok cm R R' -> csim_ok cm Strict c c' R R'.
Proof.
  destruct R as [[d r] | x |]; cbn [cmany_ok csim_ok]; trivial.
  - intros H. split; [exact H | discriminate].
  - intros ->. now destruct (all_white (rest c)).
Qed.

Lemma good_skip_white c :
  good cm (rest c) -> good cm (rest (skip_white (prev c) (rest c))).
Proof. apply good_suffix, skip_white_suffix. Qed.

Lemma c_open_sim c c' :
  rel_full cm c c' ->
  csim_ok cm Opener c c' (parse_step defs k WsOnly true c_open c)
                         (parse_step defs k' WsOnly true c_open c').
Proof.
  intros Hrel. rewrite !c_open_step. cbv zeta.
  destruct (skip_white_rel t c c' Hrel) as (_ & Hw & Hn).
  destruct (all_white (rest c)) eqn:Ew.
  - rewrite (Hw eq_refl). cbn [starts_with csim_ok]. rewrite Ew.
    split; [reflexivity |]. intros Hc'.
    rewrite skip_white_at_end by exact Hc'. now rewrite Hc'.
  - destruct (Hn eq_refl) as [-> Hw1].
    destruct (skip_white (prev c) (rest c)) as [p1 l1]. cbn [rest ext prev] in *.
    destruct l1 as [| a l1]; [discriminate Hw1 |].
    cbn [app starts_with advance rest]. rewrite andb_true_r.
    destruct (Ascii.eqb brace a); cbn [csim_ok].
    + split; [| intros _; exact Ew]. eexists _, _. split; [reflexivity |].
      left. destruct l1; reflexivity.
    + now rewrite Ew.
Qed.

Lemma c_close_sim c c' :
  rel_full cm c c' ->
  csim_ok cm StrictPE c c' (parse_step defs k WsOnly true c_close c)
                           (parse_step defs k' WsOnly true c_close c').
Proof.
  intros Hrel. rewrite !c_close_step. cbv zeta.
  destruct (skip_white_rel t c c' Hrel) as (Ha & _).
  now apply tok_csim, literal_tok.
Qed.

Lemma c_text_sim c c' :
  good cm (rest c) -> rel_full cm c c' ->
  csim_ok cm StrictPE c c' (parse_step defs k WsOnly true c_text c)
                           (parse_step defs k' WsOnly true c_text c').
Proof.
  intros Hg Hrel. unfold c_text. rewrite !regex_step. cbv zeta.
  destruct (skip_white_rel t c c' Hrel) as (Ha & _).
  apply tok_csim, regex_tok; [reflexivity | now apply good_skip_white | exact Ha].
Qed.

Lemma shared_sim e c c' :
  wf false e = true -> good cm (rest c) -> rel_full cm c c' ->
  csim_ok cm Strict c c' (parse_step defs k WsOnly true (Shared e) c)
                         (parse_step defs k' WsOnly true (Shared e) c').
Proof.
  intros He Hg Hrel. cbn [parse_step]. apply sim_csim.
  apply (sim_parse _ _ _ IH); [discriminate | exact He | exact Hg | exact Hrel].
Qed.

Lemma many_at_end d acc :
  rest d = [] -> call_many k' WsOnly true c_alts d acc = Ok (d, acc).
Proof. intros Hd. apply (many_end (n + F) d acc); [lia | exact Hd]. Qed.

Lemma skip_at_end d : rest d = [] -> call_skip k' d = Ok d.
Proof. intros Hd. apply (skip_end (n + F) d); [lia | exact Hd]. Qed.

Lemma strict_raise kd c c' x R' :
  kd = Strict \/ kd = StrictPE ->
  csim_ok cm kd c c' (Raise x) R' -> R' = Raise x.
Proof.
  cbn [csim_ok]. intros [-> | ->]; destruct (all_white (rest c)); intuition.
Qed.

Lemma c_body_sim c c' :
  good cm (rest c) -> rel_full cm c c' ->
  csim_ok cm Strict c c' (parse_step defs k WsOnly true c_body c)
                         (parse_step defs k' WsOnly true c_body c').
Proof.
  intros Hg Hrel. rewrite !c_body_step. cbv zeta.
  destruct (skip_white_rel t c c' Hrel) as (Ha & _).
  apply rel_adj_full in Ha.
  pose proof (good_skip_white c Hg) as Hg1.
  set (c1 := skip_white (prev c) (rest c)) in *.
  set (c1' := skip_white (prev c') (rest c')) in *.
  pose proof (sim_celem _ _ _ IH c_alts Loose c1 c1' ce_alts Hg1 Ha) as H.
  destruct (call_parse k WsOnly true c_alts c1) as [[c2 r] | x |] eqn:E;
    cbn [csim_ok] in H; [| | exact I].
  - destruct H as [(d' & r' & -> & Hd) _]. apply cmany_csim.
    apply (sim_cmany _ _ _ IH); [eapply good_parse; eauto | exact Hd].
  - assert (Hsame : call_parse k' WsOnly true c_alts c1' = Raise x ->
              csim_ok cm Strict c c'
                (if recoverable x then Ok (c1, no_results) else Raise x)
                (match call_parse k' WsOnly true c_alts c1' with
                 | Ok (c2, r) => call_many k' WsOnly true c_alts c2 r
                 | Raise x0 => if recoverable x0 then Ok (c1', no_results) else Raise x0
                 | OutOfFuel => OutOfFuel
                 end)).
    { intros ->. destruct (recoverable x); cbn [csim_ok].
      - split; [| discriminate]. now exists c1', no_results.
      - now destruct (all_white (rest c)). }
    destruct (all_white (rest c1)) eqn:Ew; [| now apply Hsame].
    destruct H as [H | (Hx & d' & r' & -> & Hd)]; [now apply Hsame |].
    rewrite Hx, many_at_end by exact Hd. cbn [csim_ok].
    split; [| discriminate]. exists d', r'. split; [reflexivity | now right].
Qed.

Lemma ignore_sim c c' :
  good cm (rest c) -> rel_full cm c c' ->
  csim_ok cm Exact c c' (parse_step defs k WsOnly true ignoreExpr c)
                        (parse_step defs k' WsOnly true ignoreExpr c').
Proof.
  intros Hg Hrel. rewrite !ignore_step.
  pose proof (sim_celem _ _ _ IH Comment Exact c c' ce_fwd Hg Hrel) as H.
  destruct (call_parse k WsOnly true Comment c) as [[c1 r] | x |];
    cbn [csim_ok bind] in *; [| | exact I].
  - destruct H as [(d' & r' & -> & Hd) _]. cbn [bind].
    split; [| discriminate]. now exists d', no_results.
  - destruct (all_white (rest c)); [| now rewrite H].
    destruct H as (-> & Hext & Hend). split; [reflexivity | split].
    + intros Hc. destruct (Hext Hc) as (d' & r' & -> & Hd). cbn [bind].
      now exists d', no_results.
    + intros Hc. now rewrite (Hend Hc).
Qed.

Lemma comment_def_sim c c' :
  good cm (rest c) -> rel_full cm c c' ->
  csim_ok cm Exact c c' (parse_step defs k WsOnly true Comment_def c)
                        (parse_step defs k' WsOnly true Comment_def c').
Proof.
  intros Hg Hrel. rewrite (comment_def_step k c).
  pose proof (sim_celem _ _ _ IH c_open Opener c c' ce_open Hg Hrel) as Ho.
  destruct (call_parse k WsOnly true c_open c) as [[c1 r1] | x |] eqn:E1;
    cbn [csim_ok bind] in *; [| | exact I].
  - (* the comment opens in the text *)
    destruct Ho as [(d1 & r1' & Eo & Hd1) Hw]. specialize (Hw eq_refl).
    rewrite comment_def_step, Eo. cbn [bind].
    pose proof (good_parse _ _ _ _ _ _ Hg E1) as Hg1.
    pose proof (sim_celem _ _ _ IH c_body Strict c1 d1 ce_body Hg1 Hd1) as Hb.
    destruct (call_parse k WsOnly true c_body c1) as [[c2 r2] | x |] eqn:E2;
      cbn [bind]; [| | exact I].
    + destruct Hb as [(d2 & r2' & -> & Hd2) _]. cbn [bind].
      pose proof (good_parse _ _ _ _ _ _ Hg1 E2) as Hg2.
      pose proof (sim_celem _ _ _ IH c_close StrictPE c2 d2 ce_close Hg2 Hd2) as Hc.
      destruct (call_parse k WsOnly true c_close c2) as [[c3 r3] | x |] eqn:E3;
        cbn [bind]; [| | exact I].
      * destruct Hc as [(d3 & r3' & -> & Hd3) _]. cbn [bind csim_ok].
        split; [| discriminate]. eexists _, _. split; [reflexivity | exact Hd3].
      * apply strict_raise in Hc; [| now right]. rewrite Hc. cbn [bind csim_ok].
        now rewrite Hw.
    + apply strict_raise in Hb; [| now left]. rewrite Hb. cbn [bind csim_ok].
      now rewrite Hw.
  - (* it does not *)
    destruct (all_white (rest c)) eqn:Ew.
    + destruct Ho as [-> Hend]. split; [reflexivity | split].
      * intros ->.
        destruct (Htail (S (n + F)) (prev c) (rest c) ltac:(lia) Ew) as (p' & r & E).
        exists (mkCursor p' []), r. split; [exact E | reflexivity].
      * intros Hc. now rewrite comment_def_step, (Hend Hc).
    + now rewrite comment_def_step, Ho.
Qed.

Lemma alt_strict e es c c' :
  csim_ok cm Strict c c' (call_parse k WsOnly true e c) (call_parse k' WsOnly true e c') ->
  csim_ok cm Loose c c' (parse_alt k WsOnly true es c) (parse_alt k' WsOnly true es c') ->
  csim_ok cm Loose c c' (parse_alt k WsOnly true (e :: es) c)
                        (parse_alt k' WsOnly true (e :: es) c').
Proof.
  intros He Hes. cbn [parse_alt].
  destruct (call_parse k WsOnly true e c) as [[d r] | x |]; [| | exact I].
  - destruct He as [(d' & r' & -> & Hd) _]. split; [| discriminate]. now exists d', r'.
  - apply strict_raise in He; [| now left]. rewrite He.
    destruct (recoverable x); [exact Hes |].
    cbn [csim_ok]. destruct (all_white (rest c)); [now left | reflexivity].
Qed.

Lemma alt_tail c c' :
  good cm (rest c) -> rel_full cm c c' ->
  csim_ok cm Loose c c' (parse_alt k WsOnly true [Comment; c_text] c)
                        (parse_alt k' WsOnly true [Comment; c_text] c').
Proof.
  intros Hg Hrel. cbn [parse_alt].
  pose proof (sim_celem _ _ _ IH Comment Exact c c' ce_fwd Hg Hrel) as Hc.
  pose proof (sim_celem _ _ _ IH c_text StrictPE c c' ce_text Hg Hrel) as Ht.
  destruct (call_parse k WsOnly true Comment c) as [[d r] | x3 |]; [| | exact I].
  - destruct Hc as [(d' & r' & -> & Hd) _]. split; [| discriminate]. now exists d', r'.
  - cbn [csim_ok] in Hc. destruct (all_white (rest c)) eqn:Ew.
    + destruct Hc as (-> & Hext & Hend). cbn [recoverable].
      destruct Hrel as [Hc' | [_ Hc']].
      * (* the appended comment is read here *)
        destruct (Hext Hc') as (d' & r' & -> & Hd').
        destruct (call_parse k WsOnly true c_text c) as [[d r] | x4 |] eqn:E4;
          cbn [csim_ok] in *; [| | exact I].
        -- split; [| discriminate]. exists d', r'. split; [reflexivity | right].
           split; [| exact Hd'].
           eapply all_white_suffix; [| exact Ew].
           exact (suffix_parse _ (run_suffix defs ignoreExpr n) _ _ _ _ _ _ E4).
        -- rewrite Ew in *. destruct Ht as [-> _]. cbn [recoverable csim_ok].
           rewrite Ew. right. split; [reflexivity | now exists d', r'].
      * rewrite (Hend Hc'). cbn [recoverable].
        destruct (call_parse k WsOnly true c_text c) as [[d r] | x4 |];
          cbn [csim_ok] in *; [| | exact I].
        -- destruct Ht as [(d' & r' & -> & Hd) _]. split; [| discriminate].
           now exists d', r'.
        -- rewrite Ew in *. destruct Ht as [-> ->]. cbn [recoverable csim_ok].
           rewrite Ew. now left.
    + rewrite Hc. destruct (recoverable x3); [| cbn [csim_ok]; now rewrite Ew].
      destruct (call_parse k WsOnly true c_text c) as [[d r] | x4 |];
        cbn [csim_ok] in *; [| | exact I].
      * destruct Ht as [(d' & r' & -> & Hd) _]. split; [| discriminate].
        now exists d', r'.
      * rewrite Ew in Ht. rewrite Ht.
        destruct (recoverable x4); cbn [csim_ok]; now rewrite Ew.
Qed.

Lemma c_alts_sim c c' :
  good cm (rest c) -> rel_full cm c c' ->
  csim_ok cm Loose c c' (parse_step defs k WsOnly true c_alts c)
                        (parse_step defs k' WsOnly true c_alts c').
Proof.
  intros Hg Hrel. rewrite !c_alts_step.
  apply alt_strict; [now apply (sim_celem _ _ _ IH _ _ _ _ ce_string) |].
  apply alt_strict; [now apply (sim_celem _ _ _ IH _ _ _ _ ce_char) |].
  now apply alt_tail.
Qed.

Lemma c_many_sim c c' acc acc' :
  good cm (rest c) -> rel_full cm c c' ->
  cmany_ok cm (many_step k WsOnly true c_alts c acc)
              (many_step k' WsOnly true c_alts c' acc').
Proof.
  intros Hg Hrel. rewrite !c_many_step.
  pose proof (sim_celem _ _ _ IH c_alts Loose c c' ce_alts Hg Hrel) as H.
  destruct (call_parse k WsOnly true c_alts c) as [[c2 r] | x |] eqn:E;
    cbn [csim_ok] in H; [| | exact I].
  - destruct H as [(d' & r' & -> & Hd) _].
    apply (sim_cmany _ _ _ IH); [eapply good_parse; eauto | exact Hd].
  - assert (Hsame : call_parse k' WsOnly true c_alts c' = Raise x ->
              cmany_ok cm
                (if recoverable x then Ok (c, acc) else Raise x)
                (match call_parse k' WsOnly true c_alts c' with
                 | Ok (c2, r) => call_many k' WsOnly true c_alts c2 (add_results acc' r)
                 | Raise x0 => if recoverable x0 then Ok (c', acc') else Raise x0
                 | OutOfFuel => OutOfFuel
                 end)).
    { intros ->. destruct (recoverable x); cbn [cmany_ok]; [| reflexivity].
      now exists c', acc'. }
    destruct (all_white (rest c)) eqn:Ew; [| now apply Hsame].
    destruct H as [H | (Hx & d' & r' & -> & Hd)]; [now apply Hsame |].
    rewrite Hx, many_at_end by exact Hd. cbn [cmany_ok].
    eexists _, _. split; [reflexivity | now right].
Qed.

Lemma skip_step_sim c c' :
  good cm (rest c) -> rel_full cm c c' ->
  skip_ok cm (skip_step ignoreExpr k c) (skip_step ignoreExpr k' c').
Proof.
  intros Hg Hrel. unfold skip_step.
  pose proof (sim_celem _ _ _ IH ignoreExpr Exact c c' ce_ignore Hg Hrel) as H.
  destruct (call_parse k WsOnly true ignoreExpr c) as [[c1 r] | x |] eqn:E;
    cbn [csim_ok] in H; [| | exact I].
  - destruct H as [(d' & r' & -> & Hd) _].
    apply (sim_skip _ _ _ IH); [eapply good_parse; eauto | exact Hd].
  - destruct (all_white (rest c)) eqn:Ew.
    + destruct H as (-> & Hext & Hend). destruct Hrel as [Hc | [_ Hc]].
      * destruct (Hext Hc) as (d' & r' & -> & Hd).
        rewrite skip_at_end by exact Hd. exists d'. split; [reflexivity | now right].
      * rewrite (Hend Hc). exists c'. split; [reflexivity | now right].
    + rewrite H. destruct x; cbn [skip_ok]; try reflexivity.
      exists c'. split; [reflexivity |]. left. split; [| exact Ew].
      destruct Hrel as [Hc | [Hw _]]; [exact Hc | congruence].
Qed.

Lemma celem_step_sim e kd c c' :
  celem e kd -> good cm (rest c) -> rel_full cm c c' ->
  csim_ok cm kd c c' (parse_step defs k WsOnly true e c)
                     (parse_step defs k' WsOnly true e c').
Proof.
  intros He Hg Hrel. destruct He.
  - now apply c_open_sim.
  - now apply c_close_sim.
  - now apply c_text_sim.
  - apply shared_sim; [apply wf_String | exact Hg | exact Hrel].
  - apply shared_sim; [apply wf_String | exact Hg | exact Hrel].
  - now apply c_body_sim.
  - now apply comment_def_sim.
  - exact (sim_celem _ _ _ IH Comment_def Exact c c' ce_def Hg Hrel).
  - now apply ignore_sim.
  - now apply c_alts_sim.
Qed.

Lemma step_sim : sim cm (run defs ignoreExpr (S n)) (run defs ignoreExpr (S n + F)).
Proof.
  change (S n + F)%nat with (S (n + F)).
  split; intros; cbn [run call_parse call_many call_skip].
  - now apply parse_step_sim.
  - now apply many_step_sim.
  - now apply skip_step_sim.
  - now apply celem_step_sim.
  - now apply c_many_sim.
Qed.

End Step.

(** ** The whole run *)

Lemma run_sim (t : list ascii) (F : nat) :
  (14 <= F)%nat ->
  (forall j p w,
      (F <= j)%nat -> all_white w = true ->
      exists p' r,
        parse defs ignoreExpr j WsOnly true Comment_def (mkCursor p (w ++ brace :: t))
        = Ok (mkCursor p' [], r)) ->
  forall n, sim (brace :: t) (run defs ignoreExpr n) (run defs ignoreExpr (n + F)).
Proof.
  intros HF Htail. induction n as [| n IHn].
  - split; intros; exact I.
  - now apply step_sim.
Qed.

(** Appending a comment to the text does not change what [parseString]
    returns for [e]. *)
Lemma parseString_sim (t l : list ascii) (e : pe) :
  comment_text (brace :: t) -> wf false e = true -> good (brace :: t) l ->
  exists F, forall n c1 r c2,
    parse defs ignoreExpr n Full true e (mkCursor None l) = Ok (c1, r) ->
    skipIgnorables defs ignoreExpr n c1 = Ok c2 ->
    rest (skip_white (prev c2) (rest c2)) = [] ->
    exists c1' c2',
      parse defs ignoreExpr (n + F) Full true e (mkCursor None (l ++ brace :: t))
      = Ok (c1', r)
      /\ skipIgnorables defs ignoreExpr (n + F) c1' = Ok c2'
      /\ rest (skip_white (prev c2') (rest c2')) = [].
Proof.
  intros Hcm He Hg. destruct (comment_tail _ Hcm) as (n1 & Htail).
  exists (14 + n1)%nat. intros n c1 r c2 E1 E2 E3.
  assert (Hsim : sim (brace :: t) (run defs ignoreExpr n)
                     (run defs ignoreExpr (n + (14 + n1)))).
  { apply run_sim; [lia |]. intros j p w Hj Hw. apply Htail; [lia | exact Hw]. }
  assert (Hfull : Full <> WsOnly) by discriminate.
  pose proof (sim_parse _ _ _ Hsim Full true e (mkCursor None l)
                (mkCursor None (l ++ brace :: t)) Hfull He Hg (or_introl eq_refl)) as H1.
  unfold parse in E1. rewrite E1 in H1. destruct H1 as (c1' & E1' & Hrel1).
  assert (Hg1 : good (brace :: t) (rest c1)).
  { eapply good_suffix; [| exact Hg].
    exact (suffix_parse _ (run_suffix defs ignoreExpr n) _ _ _ _ _ _ E1). }
  pose proof (sim_skip _ _ _ Hsim c1 c1' Hg1 Hrel1) as H2.
  unfold skipIgnorables in E2. rewrite E2 in H2. destruct H2 as (c2' & E2' & Hrel2).
  exists c1', c2'. split; [exact E1' | split; [exact E2' |]].
  apply skip_white_nil_all_white in E3.
  destruct Hrel2 as [[_ Hw] | [_ Hc]]; [congruence |].
  now rewrite skip_white_at_end.
Qed.

(** ** Tab expansion *)

Lemma expandtabs_from_app (l1 l2 : list ascii) : forall col,
  exists col', expandtabs_from col (l1 ++ l2)
               = expandtabs_from col l1 ++ expandtabs_from col' l2.
Proof.
  induction l1 as [| a l1 IH]; intros col; cbn [app expandtabs_from].
  - now exists col.
  - destruct (Ascii.eqb a (chr 9)); [| destruct (_ || _)].
    + destruct (IH 0%nat) as (col' & ->). exists col'. now rewrite app_assoc.
    + destruct (IH 0%nat) as (col' & ->). now exists col'.
    + destruct (IH (S col mod 8)) as (col' & ->). now exists col'.
Qed.

Lemma quote_free_app l1 l2 :
  quote_free (l1 ++ l2) = quote_free l1 && quote_free l2.
Proof. apply forallb_app. Qed.

Lemma quote_free_spaces j : quote_free (repeat " "%char j) = true.
Proof. induction j as [| j IH]; [reflexivity | exact IH]. Qed.

Lemma quote_free_expandtabs (l : list ascii) : forall col,
  quote_free l = true -> quote_free (expandtabs_from col l) = true.
Proof.
  induction l as [| a l IH]; intros col H; [reflexivity |].
  cbn [quote_free forallb] in H. apply andb_prop in H. destruct H as [Ha H].
  cbn [expandtabs_from].
  destruct (Ascii.eqb a (chr 9)); [| destruct (_ || _)].
  - rewrite quote_free_app, quote_free_spaces. now apply IH.
  - cbn [quote_free forallb]. rewrite Ha. now apply IH.
  - cbn [quote_free forallb]. rewrite Ha. now apply IH.
Qed.

Lemma tab_width col : exists j, (8 - col mod 8 = S j)%nat.
Proof.
  pose proof (Nat.mod_upper_bound col 8 ltac:(lia)) as H.
  exists (7 - col mod 8)%nat. lia.
Qed.

(** A word without whitespace that the expanded text has was in the text. *)
Lemma starts_with_expandtabs (pat : list ascii) :
  forallb (fun a => negb (is_white a)) pat = true ->
  forall col l, starts_with pat (expandtabs_from col l) = true ->
                starts_with pat l = true.
Proof.
  induction pat as [| a pat IH]; intros Hp col l H; [reflexivity |].
  cbn [forallb] in Hp. apply andb_prop in Hp. destruct Hp as [Ha Hp].
  destruct l as [| b l]; [discriminate H |].
  cbn [expandtabs_from] in H. cbn [starts_with].
  destruct (Ascii.eqb b (chr 9)); [| destruct (_ || _)].
  - destruct (tab_width col) as (j & Ej). rewrite Ej in H.
    cbn [repeat app starts_with] in H.
    apply andb_prop in H. destruct H as [H _]. apply Ascii.eqb_eq in H. subst a.
    discriminate Ha.
  - cbn [starts_with] in H. apply andb_prop in H. destruct H as [-> H].
    now apply (IH Hp) in H.
  - cbn [starts_with] in H. apply andb_prop in H. destruct H as [-> H].
    now apply (IH Hp) in H.
Qed.

Lemma contains_cons pat a l :
  contains pat (a :: l) = starts_with pat (a :: l) || contains pat l.
Proof. reflexivity. Qed.

Lemma contains_spaces a pat j l :
  is_white a = false ->
  contains (a :: pat) (repeat " "%char j ++ l) = contains (a :: pat) l.
Proof.
  intros Ha. induction j as [| j IH]; [reflexivity |].
  cbn [repeat app]. rewrite contains_cons, IH. cbn [starts_with].
  destruct (Ascii.eqb a " ") eqn:E; [| reflexivity].
  apply Ascii.eqb_eq in E. subst a. discriminate Ha.
Qed.

Lemma contains_expandtabs a pat (l : list ascii) :
  forallb (fun a => negb (is_white a)) (a :: pat) = true ->
  forall col, contains (a :: pat) l = false ->
              contains (a :: pat) (expandtabs_from col l) = false.
Proof.
  intros Hp. induction l as [| b l IH]; intros col H; [exact H |].
  rewrite contains_cons in H. apply orb_false_elim in H. destruct H as [Hs Hc].
  pose proof (starts_with_expandtabs _ Hp col (b :: l)) as Hst.
  assert (Ha : is_white a = false).
  { cbn [forallb] in Hp. apply andb_prop in Hp. now apply negb_true_iff. }
  cbn [expandtabs_from] in *.
  destruct (Ascii.eqb b (chr 9)); [| destruct (_ || _)].
  - rewrite contains_spaces by exact Ha. now apply IH.
  - rewrite contains_cons, IH by exact Hc.
    destruct (starts_with (a :: pat) (b :: expandtabs_from 0 l)); [| reflexivity].
    rewrite Hst in Hs by reflexivity. discriminate Hs.
  - rewrite contains_cons, IH by exact Hc.
    destruct (starts_with (a :: pat) (b :: expandtabs_from (S col mod 8) l));
      [| reflexivity].
    rewrite Hst in Hs by reflexivity. discriminate Hs.
Qed.

Lemma expandtabs_tab_free (l : list ascii) : forall col,
  tab_free l = true -> expandtabs_from col l = l.
Proof.
  induction l as [| a l IH]; intros col H; [reflexivity |].
  cbn [tab_free forallb] in H. apply andb_prop in H. destruct H as [Ha H].
  apply negb_true_iff in Ha. cbn [expandtabs_from]. rewrite Ha.
  destruct (_ || _); now rewrite IH.
Qed.

(** ** The trailing comment *)

Lemma parse_stmt_Ok (n : nat) (text : string) (res : list pyval) :
  parse_stmt n text = Ok res ->
  exists c1 r c2,
    parse defs ignoreExpr n Full true Sentences
      (mkCursor None (expandtabs (list_ascii_of_string text))) = Ok (c1, r)
    /\ skipIgnorables defs ignoreExpr n c1 = Ok c2
    /\ rest (skip_white (prev c2) (rest c2)) = []
    /\ toks r = res.
Proof.
  unfold parse_stmt, parseString. intros H.
  apply bind_Ok in H. destruct H as (r0 & H & H0). injection H0 as <-.
  apply bind_Ok in H. destruct H as ([c1 r] & E1 & H).
  apply bind_Ok in H. destruct H as (c2 & E2 & H).
  exists c1, r, c2.
  destruct (rest (skip_white (prev c2) (rest c2))); [| discriminate H].
  injection H as <-. now repeat split.
Qed.

(** A text without tabs that the comment grammar matches is a comment. *)
Lemma is_comment_tab_free (c t : list ascii) (n : nat) (p' : option ascii) (r : results) :
  c = brace :: t -> tab_free c = true ->
  parse defs ignoreExpr n WsOnly true Comment (mkCursor None c) = Ok (mkCursor p' [], r) ->
  is_comment c.
Proof.
  intros Hc Ht E. split; [now exists t |].
  intros col. rewrite expandtabs_tab_free by exact Ht. now exists n, p', r.
Qed.


(** * The claims of the specification *)

Ltac conjuncts := repeat match goal with |- _ /\ _ => split end.
Ltac by_parse_expr n :=
  apply (parse_expr_evaluates n); [vm_compute; reflexivity | discriminate].
Ltac by_parse_stmt n :=
  apply (parse_stmt_evaluates n); [vm_compute; reflexivity | discriminate].

(** C1 (the code departs from the claim).  A chain of three operands at one
    left-associative level does not parse to a left-leaning tree: the group
    of five tokens reaches [parse_as_binary], whose three-way unpacking
    raises [ValueError], and the error leaves [parse_expr]. *)
Theorem C1_chain_of_three_raises :
  parse_expression "a*b*c" (Raise ValueError)
  /\ parse_expression "1+2+3" (Raise ValueError).
Proof. conjuncts; by_parse_expr 200%nat. Qed.

(** C2 (the code departs from the claim).  An identifier that merely begins
    with a keyword is rejected: [NotAny(KEYWORDS)] fails as soon as a
    keyword is a prefix of the text, so [parse_expr] raises an ordinary
    parse error on [iffy], [variable] and [forever]. *)
Theorem C2_keyword_prefix_rejected :
  parse_expression "iffy" (Raise ParseException)
  /\ parse_expression "variable" (Raise ParseException)
  /\ parse_expression "forever" (Raise ParseException).
Proof. conjuncts; by_parse_expr 200%nat. Qed.

(** C3 (the code departs from the claim).  A [while] statement that names
    its block is matched by the grammar, but [WhileNode.__init__] has no
    [block_name] parameter: the call raises [TypeError], which [Node.parse]
    turns into the failure of [assert False]. *)
Theorem C3_named_while_fails :
  parse_program "while w (true) break w end while" (Raise AssertionError)
  /\ parse_program "while (true) break end while"
       (Ok [WhileNode (PBool true) PNone [BreakNode PNone]]).
Proof. conjuncts; by_parse_stmt 200%nat. Qed.

(** C4 (the code departs from the claim).  [Func] has no parse action and
    [nodes.py] no node for a function definition: the name, the parameter
    names and types, the return type and the body group are returned as
    loose tokens of the sentence sequence. *)
Theorem C4_func_yields_loose_tokens :
  parse_program "func f(a: int, b: float): int return 1 end func"
    (Ok [SymbolNode "f"; SymbolNode "a"; SymbolNode "int";
         SymbolNode "b"; SymbolNode "float"; SymbolNode "int";
         PResults [ReturnNode (PInt 1)] []]).
Proof. by_parse_stmt 200%nat. Qed.

(** C5 (the code departs from the claim).  A qualified name is not accepted
    as a complete expression: [ClassName] takes the longest dotted chain, so
    the [.] that [VariableName] requires after it is never there, and
    [SourceName] takes every character up to the next blank, so the [@]
    after it is never there; the bare first identifier is matched and the
    rest of the input is left over. *)
Theorem C5_qualified_names_rejected :
  parse_expression "Foo.bar" (Raise ParseException)
  /\ parse_expression "Mod@Klass.baz" (Raise ParseException)
  /\ parse_expression "EColor#Red" (Raise ParseException).
Proof. conjuncts; by_parse_expr 200%nat. Qed.

(** ** Enum values *)

Lemma enum_init_results (name : pyval) (members : list (pyval * pyval)) :
  EnumNode_init (kwargs_of (enum_results name members))
  = (ms <- enum_members (PInt 0) (map (fun kv => PTuple [fst kv; snd kv]) members) ;;
     Ok (EnumNode name ms)).
Proof. reflexivity. Qed.

(** C6.  The members of an enum are numbered in textual order from a
    counter that starts at 0: a member without a value takes the counter,
    a member with [:: N] takes [N], and in both cases the next counter is
    one more; the example of the specification parses to
    Red=0, Blue=1, Green=5, Yellow=6. *)
Theorem C6_enum_member_values :
  parse_program "enum EColor Red Blue Green :: 5 Yellow end enum"
    (Ok [EnumNode (SymbolNode "EColor")
           [(SymbolNode "Red", PInt 0); (SymbolNode "Blue", PInt 1);
            (SymbolNode "Green", PInt 5); (SymbolNode "Yellow", PInt 6)]])
  /\ (forall name members,
         Node_parse EnumNode_init (enum_results name members)
         = match enum_members (PInt 0) (map (fun kv => PTuple [fst kv; snd kv]) members) with
           | Ok ms => Ok (Some [EnumNode name ms])
           | Raise TypeError => Raise AssertionError
           | Raise e => Raise e
           | OutOfFuel => OutOfFuel
           end)
  /\ (forall key counter rest,
         enum_members (PInt counter) (PTuple [key; PNone] :: rest)
         = (tl <- enum_members (PInt (counter + 1)) rest ;; Ok ((key, PInt counter) :: tl)))
  /\ (forall key counter N rest,
         enum_members counter (PTuple [key; PInt N] :: rest)
         = (tl <- enum_members (PInt (N + 1)) rest ;; Ok ((key, PInt N) :: tl))).
Proof.
  conjuncts.
  - by_parse_stmt 200%nat.
  - intros name members. unfold Node_parse. rewrite enum_init_results.
    destruct (enum_members _ _) as [ms | [] | ]; reflexivity.
  - reflexivity.
  - reflexivity.
Qed.

(** ** Numeric literals *)

(** C7 (the code departs from the claim).  The examples of the claim behave
    as it says, but a digit outside the radix's alphabet is not always
    fatal: [int(body, radix)] skips a base prefix, so [2#0B1] and [8#0O17]
    are accepted although [B] and [O] are not digits of radix 2 and 8. *)
Theorem C7_base_prefix_is_accepted :
  parse_expression "2#0B1" (Ok (PInt 1))
  /\ parse_expression "8#0O17" (Ok (PInt 15))
  /\ parse_expression "16#FFF" (Raise ParseFatalException)
  /\ parse_expression "10#123" (Raise ParseFatalException)
  /\ parse_expression "1#0" (Raise ParseFatalException)
  /\ parse_expression "8#9" (Raise ParseFatalException)
  /\ parse_expression "#fff" (Raise ParseException)
  /\ parse_expression "2#" (Raise ParseException).
Proof. conjuncts; by_parse_expr 200%nat. Qed.

Lemma split_once_absent_after (a b : ascii) (l x y : list ascii) :
  split_once a l = None -> split_once b l = Some (x, y) -> split_once a y = None.
Proof.
  revert x y. induction l as [| c l IH]; intros x y Ha Hb; simpl in *.
  - discriminate.
  - destruct (Ascii.eqb c a); [discriminate |].
    destruct (split_once a l) as [[? ?] |] eqn:Ea; [discriminate |].
    destruct (Ascii.eqb c b).
    + injection Hb as <- <-. exact Ea.
    + destruct (split_once b l) as [[x' y'] |]; [| discriminate].
      injection Hb as <- <-. now apply (IH x' y').
Qed.

(** C8.  Integer literals are evaluated in their radix ([#] alone is radix
    16), and a literal without a fractional part and without an exponent
    gives an integer whenever [number_action] returns. *)
Theorem C8_integer_literals :
  parse_expression "2#1000" (Ok (PInt 8))
  /\ parse_expression "8#777" (Ok (PInt 511))
  /\ parse_expression "#FFF" (Ok (PInt 4095))
  /\ parse_expression "36#Z" (Ok (PInt 35))
  /\ parse_expression "#1" (Ok (PInt 1))
  /\ (forall sign body v,
         split_once "." (list_ascii_of_string body) = None ->
         number_action (number_results sign body None) = Ok (Some v) ->
         exists z, v = [PInt z]).
Proof.
  conjuncts; try by_parse_expr 200%nat.
  intros sign body v Hdot.
  assert (Hbody : r_item (number_results sign body None) "body" = Ok (PStr body))
    by (destruct sign; reflexivity).
  assert (Hprec : r_get (number_results sign body None) "precision" (PStr EmptyString)
                  = PStr EmptyString) by (destruct sign; reflexivity).
  unfold number_action. rewrite Hbody, Hprec. cbn [bind truthy String.eqb negb].
  set (sg := r_get _ "sign" _). clearbody sg.
  destruct (split_once "#" (list_ascii_of_string body)) as [[radix rest_] |] eqn:Eh.
  - pose proof (split_once_absent_after _ _ _ _ _ Hdot Eh) as Hrest.
    destruct radix as [| r0 radix].
    + cbn [bind]. rewrite Hrest.
      destruct (py_int rest_ 16) as [n |]; cbn [bind]; [| discriminate].
      intros H. injection H as <-.
      destruct (match sg with PStr s => String.eqb s "-" | _ => false end);
        eexists; reflexivity.
    + destruct (py_int (r0 :: radix) 10) as [rx |]; [| discriminate].
      destruct (negb _ || _ || _); [discriminate |].
      cbn [bind]. rewrite Hrest.
      destruct (py_int rest_ rx) as [n |]; cbn [bind]; [| discriminate].
      intros H. injection H as <-.
      destruct (match sg with PStr s => String.eqb s "-" | _ => false end);
        eexists; reflexivity.
  - cbn [bind]. rewrite Hdot.
    destruct (py_int _ 10) as [n |]; cbn [bind]; [| discriminate].
    intros H. injection H as <-.
    destruct (match sg with PStr s => String.eqb s "-" | _ => false end);
      eexists; reflexivity.
Qed.

Lemma C8_integer_literals_witness : exists z, [PInt 511] = [PInt z].
Proof.
  apply (proj2 (proj2 (proj2 (proj2 (proj2 C8_integer_literals))))
           None "8#777" [PInt 511]); reflexivity.
Defined.

(** ** Enum members with a value that is not a number *)

(** C9, counterexample.  A comment appended to a valid program can change
    the parse.  The source name of an [import] is every character up to the
    next whitespace, so it takes the comment in: [import foo] gives [foo],
    and followed by [{x}] it gives [foo{x}].  And the regular expression of
    a string literal backtracks: a literal that ends in a backslash and its
    closing quote goes on, once a comment with a quote follows, to the
    quote in the comment, and the rest of the comment no longer parses. *)
Lemma C9_trailing_comment_counterexample :
  (is_comment (str "{x}")
   /\ parse_program "import foo" (Ok [PStr "foo"])
   /\ parse_program ("import foo" ++ "{x}") (Ok [PStr "foo{x}"])
   /\ ~ parse_program ("import foo" ++ "{x}") (Ok [PStr "foo"]))
  /\ (is_comment (str ("{" ++ quote_str ++ "x" ++ quote_str ++ "}"))
      /\ parse_program ("do " ++ quote_str ++ "a" ++ backslash_str ++ quote_str)
           (Ok [DoNode (PStr ("a" ++ backslash_str))])
      /\ parse_program
           (("do " ++ quote_str ++ "a" ++ backslash_str ++ quote_str)
            ++ ("{" ++ quote_str ++ "x" ++ quote_str ++ "}"))
           (Raise ParseException)).
Proof.
  assert (H : parse_program ("import foo" ++ "{x}") (Ok [PStr "foo{x}"]))
    by by_parse_stmt 200%nat.
  conjuncts; try by_parse_stmt 200%nat; try exact H.
  - eapply (is_comment_tab_free _ _ 40%nat);
      [reflexivity | reflexivity | vm_compute; reflexivity].
  - intros H'. pose proof (evaluates_unique _ _ _ H H'). discriminate.
  - eapply (is_comment_tab_free _ _ 40%nat);
      [reflexivity | reflexivity | vm_compute; reflexivity].
Qed.

(** C9, amended.  Appending a comment [c] to a valid program [s] does not
    change the parse when [s] does not contain the word [import] and the
    program or the comment has no quote character: then [s] followed by [c]
    parses, to the sentences of [s]. *)
Theorem C9_trailing_comment_keeps_parse (s c : string) (res : list pyval) :
  is_comment (str c) ->
  contains (str "import") (str s) = false ->
  quote_free (str c) = true \/ quote_free (str s) = true ->
  parse_program s (Ok res) -> parse_program (s ++ c) (Ok res).
Proof.
  intros [[t Ht] Hc] Hi Hq [_ [n0 Hn0]].
  specialize (Hn0 n0 (le_n _)).
  apply parse_stmt_Ok in Hn0. destruct Hn0 as (c1 & r & c2 & E1 & E2 & E3 & <-).
  destruct (expandtabs_from_app (str s) (str c) 0) as (col & Eapp).
  specialize (Hc col). rewrite Ht in Hc, Eapp.
  assert (Eb : expandtabs_from col (brace :: t)
               = brace :: expandtabs_from (S col mod 8) t) by reflexivity.
  rewrite Eb in Hc, Eapp.
  set (t2 := expandtabs_from (S col mod 8) t) in *.
  assert (Hg : good (brace :: t2) (expandtabs (str s))).
  { split.
    - now apply (contains_expandtabs "i"%char (str "mport")).
    - destruct Hq as [Hq | Hq]; [left | right].
      + rewrite <- Eb, <- Ht. now apply quote_free_expandtabs.
      + now apply quote_free_expandtabs. }
  destruct (parseString_sim t2 _ Sentences Hc wf_Sentences Hg) as (F & HF).
  destruct (HF n0 c1 r c2 E1 E2 E3) as (c1' & c2' & E1' & E2' & E3').
  apply (parse_stmt_evaluates (n0 + F)); [| discriminate].
  unfold parse_stmt, parseString. rewrite list_ascii_of_string_app.
  unfold expandtabs, str in *. rewrite Ht, Eapp, E1'. cbn [bind].
  rewrite E2'. cbn [bind]. now rewrite E3'.
Qed.

Lemma C9_trailing_comment_witness :
  parse_program
    ("do a :: 1" ++ ("{ " ++ quote_str ++ "}" ++ quote_str ++ " {nested} }"))
    (Ok [DoNode (ExprNode (SymbolNode "::") [SymbolNode "`a`"; PInt 1])]).
Proof.
  apply (C9_trailing_comment_keeps_parse "do a :: 1"
           ("{ " ++ quote_str ++ "}" ++ quote_str ++ " {nested} }")).
  - eapply (is_comment_tab_free _ _ 40%nat);
      [reflexivity | reflexivity | vm_compute; reflexivity].
  - reflexivity.
  - right. reflexivity.
  - by_parse_stmt 200%nat.
Defined.

Lemma py_add1_number (v : pyval) :
  is_number v = true -> exists w, py_add1 v = Ok w /\ is_number w = true.
Proof.
  destruct v; try discriminate; intros _; eexists; split; reflexivity.
Qed.

Lemma py_add1_not_number (v : pyval) :
  is_number v = false -> py_add1 v = Raise TypeError.
Proof. destruct v; try discriminate; reflexivity. Qed.

(** The loop of [EnumNode.__init__] stops with [TypeError] at the first
    member whose explicit value is not a number. *)
Lemma enum_members_TypeError (members : list (pyval * pyval)) :
  forall counter,
    is_number counter = true ->
    (exists key value, In (key, value) members
                       /\ value <> PNone /\ is_number value = false) ->
    enum_members counter (map (fun kv => PTuple [fst kv; snd kv]) members)
    = Raise TypeError.
Proof.
  induction members as [| [k v] members IH]; intros counter Hc (key & value & Hin & Hv & Hn).
  - destruct Hin.
  - cbn [map fst snd enum_members unpack py_iter bind List.length Nat.eqb].
    destruct (is_number (match v with PNone => counter | _ => v end)) eqn:En.
    + destruct (py_add1_number _ En) as (w & -> & Hw). cbn [bind].
      rewrite (IH w Hw); [reflexivity |].
      destruct Hin as [Heq | Hin].
      * injection Heq as -> ->. exfalso.
        destruct value; try congruence; discriminate.
      * now exists key, value.
    + now rewrite (py_add1_not_number _ En).
Qed.

(** C10, counterexample.  A boolean is not a numeric literal, yet an enum
    member valued [:: true] parses: Python's [True + 1] is [2]. *)
Lemma C10_boolean_value_counterexample :
  parse_program "enum E A :: true end enum"
    (Ok [EnumNode (SymbolNode "E") [(SymbolNode "A", PBool true)]])
  /\ ~ parse_program "enum E A :: true end enum" (Raise AssertionError).
Proof.
  assert (H : parse_program "enum E A :: true end enum"
                (Ok [EnumNode (SymbolNode "E") [(SymbolNode "A", PBool true)]]))
    by by_parse_stmt 200%nat.
  split; [exact H |].
  intros H'. pose proof (evaluates_unique _ _ _ H H'). discriminate.
Qed.

(** C10, amended.  If a member of an enum carries an explicit value that is
    not a number (an integer, a real, or a boolean, which Python counts as
    an integer), building the node fails with an assertion failure: the
    [TypeError] of advancing the counter past that value is turned into the
    failure of [assert False] by [Node.parse].  So it is for
    [enum E A :: x end enum] and for a member valued [:: 1 + 2]. *)
Theorem C10_non_number_value_fails_assertion :
  (forall name members key value,
      In (key, value) members -> value <> PNone -> is_number value = false ->
      Node_parse EnumNode_init (enum_results name members) = Raise AssertionError)
  /\ parse_program "enum E A :: x end enum" (Raise AssertionError)
  /\ parse_program "enum E A :: 1 + 2 end enum" (Raise AssertionError).
Proof.
  conjuncts; try by_parse_stmt 200%nat.
  intros name members key value Hin Hv Hn.
  unfold Node_parse. rewrite enum_init_results.
  rewrite (enum_members_TypeError members (PInt 0) eq_refl); [reflexivity |].
  now exists key, value.
Qed.

Lemma C10_non_number_value_witness :
  Node_parse EnumNode_init
    (enum_results (SymbolNode "E") [(SymbolNode "A", SymbolNode "x")])
  = Raise AssertionError.
Proof.
  apply (proj1 C10_non_number_value_fails_assertion
           (SymbolNode "E") [(SymbolNode "A", SymbolNode "x")]
           (SymbolNode "A") (SymbolNode "x")).
  - left; reflexivity.
  - discriminate.
  - reflexivity.
Defined.

(** * Further properties of the code *)

(** ** Blank programs *)

Lemma is_white_cases (a : ascii) :
  is_white a = true -> a = " "%char \/ a = chr 10 \/ a = chr 9 \/ a = chr 13.
Proof.
  unfold is_white. intros H.
  repeat (apply orb_prop in H; destruct H as [H | H]);
    apply Ascii.eqb_eq in H; auto.
Qed.

Lemma skip_white_blank (l : list ascii) : forall p,
  all_white l = true -> after_blank p ->
  exists p', skip_white p l = mkCursor p' [] /\ after_blank p'.
Proof.
  induction l as [| a l IH]; intros p Hl Hp.
  - now exists p.
  - cbn [all_white forallb] in Hl. apply andb_prop in Hl. destruct Hl as [Ha Hl].
    cbn [skip_white]. rewrite Ha. apply IH; [exact Hl |].
    right. now exists a.
Qed.

Lemma all_white_spaces j : all_white (repeat " "%char j) = true.
Proof. induction j as [| j IH]; [reflexivity | exact IH]. Qed.

Lemma all_white_expandtabs (l : list ascii) : forall col,
  all_white l = true -> all_white (expandtabs_from col l) = true.
Proof.
  induction l as [| a l IH]; intros col H; [reflexivity |].
  cbn [all_white forallb] in H. apply andb_prop in H. destruct H as [Ha H].
  cbn [expandtabs_from].
  destruct (Ascii.eqb a (chr 9)); [| destruct (_ || _)].
  - unfold all_white. rewrite forallb_app. fold (all_white (repeat " "%char (8 - col mod 8))).
    rewrite all_white_spaces. now apply IH.
  - cbn [all_white forallb]. rewrite Ha. now apply IH.
  - cbn [all_white forallb]. rewrite Ha. now apply IH.
Qed.

Lemma open_blank kk c :
  all_white (rest c) = true ->
  parse_step defs kk WsOnly true c_open c = Raise ParseException.
Proof.
  intros H. rewrite c_open_step. cbv zeta.
  now rewrite (skip_white_all_white _ (prev c) H).
Qed.

(** Nothing is skipped where only whitespace is left. *)
Lemma skip_blank j c :
  (5 <= j)%nat -> all_white (rest c) = true ->
  skipIgnorables defs ignoreExpr j c = Ok c.
Proof.
  intros Hj Hc. apply (skip_fuel _ _ 5 j); [| discriminate | exact Hj].
  unfold skipIgnorables.
  change (call_skip (run defs ignoreExpr 5) c)
    with (skip_step ignoreExpr (run defs ignoreExpr 4) c).
  unfold skip_step.
  change (call_parse (run defs ignoreExpr 4) WsOnly true ignoreExpr c)
    with (parse_step defs (run defs ignoreExpr 3) WsOnly true ignoreExpr c).
  rewrite ignore_step.
  change (call_parse (run defs ignoreExpr 3) WsOnly true Comment c)
    with (parse_step defs (run defs ignoreExpr 1) WsOnly true Comment_def c).
  rewrite comment_def_step.
  change (call_parse (run defs ignoreExpr 1) WsOnly true c_open c)
    with (parse_step defs (run defs ignoreExpr 0) WsOnly true c_open c).
  now rewrite open_blank.
Qed.

(** No sentence starts at the end of the text. *)
Lemma sentence_at_end p j :
  after_blank p -> (60 <= j)%nat ->
  parse defs ignoreExpr j Full true Sentence (mkCursor p []) = Raise ParseException.
Proof.
  intros Hp Hj. apply (parse_fuel _ _ 60 j); [| discriminate | exact Hj].
  destruct Hp as [-> | (a & -> & Ha)]; [vm_compute; reflexivity |].
  destruct (is_white_cases a Ha) as [-> | [-> | [-> | ->]]]; vm_compute; reflexivity.
Qed.

Lemma sentences_unfold j c :
  parse defs ignoreExpr (S (S j)) Full true Sentences c
  = (c1 <- preParse (run defs ignoreExpr j) Full true c ;;
     match call_parse (run defs ignoreExpr j) Full true Sentence c1 with
     | Ok (c2, r) => call_many (run defs ignoreExpr j) Full true Sentence c2 r
     | Raise x => if recoverable x then Ok (c1, no_results) else Raise x
     | OutOfFuel => OutOfFuel
     end).
Proof. reflexivity. Qed.

Lemma sentences_step j c :
  parse defs ignoreExpr (S (S j)) Full true Sentences c
  = (c0 <- skipIgnorables defs ignoreExpr j c ;;
     match parse defs ignoreExpr j Full true Sentence
             (skip_white (prev c0) (rest c0)) with
     | Ok (c2, r) => many defs ignoreExpr j Full true Sentence c2 r
     | Raise x =>
         if recoverable x then Ok (skip_white (prev c0) (rest c0), no_results)
         else Raise x
     | OutOfFuel => OutOfFuel
     end).
Proof.
  rewrite sentences_unfold. unfold preParse, skipIgnorables, parse, many.
  cbn [skips_comments skips_white andb].
  destruct (call_skip (run defs ignoreExpr j) c); reflexivity.
Qed.

Lemma sentences_blank (l : list ascii) :
  all_white l = true ->
  exists p', after_blank p'
    /\ parse defs ignoreExpr 200 Full true Sentences (mkCursor None l)
       = Ok (mkCursor p' [], no_results).
Proof.
  intros Hl.
  destruct (skip_white_blank l None Hl (or_introl eq_refl)) as (p' & Es & Hp').
  exists p'. split; [exact Hp' |].
  rewrite (sentences_step 198).
  rewrite skip_blank by (trivial; lia). cbn [bind prev rest]. rewrite Es.
  rewrite sentence_at_end by (trivial; lia). reflexivity.
Qed.

(** X1.  A text of whitespace alone is the empty program. *)
Theorem blank_program_is_empty (w : string) :
  all_white (str w) = true -> parse_program w (Ok []).
Proof.
  intros Hw. apply (parse_stmt_evaluates 200); [| discriminate].
  unfold parse_stmt, parseString.
  destruct (sentences_blank (expandtabs (str w))) as (p' & Hp' & E).
  { now apply all_white_expandtabs. }
  unfold str in E. rewrite E. cbn [bind].
  rewrite skip_end by (trivial; lia). reflexivity.
Qed.

Lemma blank_program_is_empty_witness : parse_program "   " (Ok []).
Proof. apply (blank_program_is_empty "   "). reflexivity. Defined.

Lemma contains_blank a pat (l : list ascii) :
  is_white a = false -> all_white l = true -> contains (a :: pat) l = false.
Proof.
  intros Ha. induction l as [| b l IH]; intros Hl; [reflexivity |].
  cbn [all_white forallb] in Hl. apply andb_prop in Hl. destruct Hl as [Hb Hl].
  rewrite contains_cons, (IH Hl). cbn [starts_with].
  destruct (Ascii.eqb a b) eqn:E; [| reflexivity].
  apply Ascii.eqb_eq in E. subst. congruence.
Qed.

Lemma quote_free_blank (l : list ascii) : all_white l = true -> quote_free l = true.
Proof.
  induction l as [| b l IH]; intros Hl; [reflexivity |].
  cbn [all_white forallb] in Hl. apply andb_prop in Hl. destruct Hl as [Hb Hl].
  cbn [quote_free forallb]. fold (quote_free l). rewrite (IH Hl).
  destruct (is_white_cases b Hb) as [-> | [-> | [-> | ->]]]; reflexivity.
Qed.

(** X2.  A comment alone, or after whitespace, is the empty program. *)
Theorem comment_alone_is_empty (w c : string) :
  all_white (str w) = true -> is_comment (str c) ->
  parse_program (w ++ c) (Ok []).
Proof.
  intros Hw [[t Ht] Hc].
  destruct (expandtabs_from_app (str w) (str c) 0) as (col & Eapp).
  specialize (Hc col). rewrite Ht in Hc, Eapp.
  assert (Eb : expandtabs_from col (brace :: t)
               = brace :: expandtabs_from (S col mod 8) t) by reflexivity.
  rewrite Eb in Hc, Eapp.
  set (t2 := expandtabs_from (S col mod 8) t) in *.
  pose proof (all_white_expandtabs (str w) 0 Hw) as Hl.
  assert (Hg : good (brace :: t2) (expandtabs (str w))).
  { split; [| right; apply quote_free_blank; exact Hl].
    apply (contains_blank "i"%char (str "mport")); [reflexivity | exact Hl]. }
  destruct (sentences_blank _ Hl) as (p' & Hp' & E1).
  destruct (parseString_sim t2 _ Sentences Hc wf_Sentences Hg) as (F & HF).
  destruct (HF 200%nat (mkCursor p' []) no_results (mkCursor p' []) E1)
    as (c1' & c2' & E1' & E2' & E3'); [apply skip_end; [lia | reflexivity] | reflexivity |].
  apply (parse_stmt_evaluates (200 + F)); [| discriminate].
  unfold parse_stmt, parseString. rewrite list_ascii_of_string_app.
  unfold expandtabs, str in *. rewrite Ht, Eapp, E1'. cbn [bind].
  rewrite E2'. cbn [bind]. now rewrite E3'.
Qed.

Lemma comment_alone_is_empty_witness :
  parse_program (" " ++ "{ note {nested} }") (Ok []).
Proof.
  apply (comment_alone_is_empty " " "{ note {nested} }"); [reflexivity |].
  eapply (is_comment_tab_free _ _ 40%nat);
    [reflexivity | reflexivity | vm_compute; reflexivity].
Defined.

(** ** Names and keywords *)

Lemma skip_white_at_word c : at_word c = true -> skip_white (prev c) (rest c) = c.
Proof.
  destruct c as [p [| a l]]; cbn [at_word rest prev skip_white]; [discriminate |].
  intros H. apply andb_prop in H. destruct H as [H _]. apply negb_true_iff in H.
  now rewrite H.
Qed.

Lemma open_at_word kk c :
  at_word c = true -> parse_step defs kk WsOnly true c_open c = Raise ParseException.
Proof.
  intros H. rewrite c_open_step. cbv zeta. rewrite skip_white_at_word by exact H.
  destruct c as [p [| a l]]; [discriminate H |].
  cbn [at_word rest] in H. apply andb_prop in H. destruct H as [_ H].
  apply negb_true_iff in H. cbn [rest starts_with].
  rewrite Ascii.eqb_sym in H. now rewrite H.
Qed.

(** No comment is skipped where a word starts. *)
Lemma skip_at_word j c :
  (5 <= j)%nat -> at_word c = true -> skipIgnorables defs ignoreExpr j c = Ok c.
Proof.
  intros Hj Hc. apply (skip_fuel _ _ 5 j); [| discriminate | exact Hj].
  unfold skipIgnorables.
  change (call_skip (run defs ignoreExpr 5) c)
    with (skip_step ignoreExpr (run defs ignoreExpr 4) c).
  unfold skip_step.
  change (call_parse (run defs ignoreExpr 4) WsOnly true ignoreExpr c)
    with (parse_step defs (run defs ignoreExpr 3) WsOnly true ignoreExpr c).
  rewrite ignore_step.
  change (call_parse (run defs ignoreExpr 3) WsOnly true Comment c)
    with (parse_step defs (run defs ignoreExpr 1) WsOnly true Comment_def c).
  rewrite comment_def_step.
  change (call_parse (run defs ignoreExpr 1) WsOnly true c_open c)
    with (parse_step defs (run defs ignoreExpr 0) WsOnly true c_open c).
  now rewrite open_at_word.
Qed.

Lemma preParse_at_word j m w c :
  (5 <= j)%nat -> at_word c = true -> preParse (run defs ignoreExpr j) m w c = Ok c.
Proof.
  intros Hj Hc. unfold preParse.
  assert (E : (if skips_comments m then call_skip (run defs ignoreExpr j) c else Ok c)
              = Ok c).
  { destruct (skips_comments m); [| reflexivity]. now apply skip_at_word. }
  rewrite E. cbn [bind]. destruct (w && skips_white m); [| reflexivity].
  now rewrite skip_white_at_word.
Qed.

Lemma starts_with_app (s l : list ascii) : starts_with s (s ++ l) = true.
Proof.
  induction s as [| a s IH]; [reflexivity |].
  cbn [app starts_with]. now rewrite Ascii.eqb_refl.
Qed.

Lemma one_of_match_some (syms : list string) (s : string) (l : list ascii) :
  In s syms -> starts_with (list_ascii_of_string s) l = true ->
  exists s', one_of_match syms l = Some s'.
Proof.
  induction syms as [| s0 syms IH]; intros Hin Hs; [contradiction |].
  cbn [one_of_match]. destruct Hin as [-> | Hin].
  - rewrite Hs. destruct (one_of_match syms l) as [s' |]; [| now exists s].
    destruct (String.length s <? String.length s')%nat; eauto.
  - destruct (IH Hin Hs) as (s' & ->).
    destruct (starts_with (list_ascii_of_string s0) l); [| now exists s'].
    destruct (String.length s0 <? String.length s')%nat; eauto.
Qed.

Lemma keyword_at_word (kw : string) (p : option ascii) (l : list ascii) :
  In kw keyword_list -> at_word (mkCursor p (list_ascii_of_string kw ++ l)) = true.
Proof.
  unfold keyword_list. cbn [In]. intros H.
  repeat (destruct H as [<- | H]; [reflexivity |]). contradiction.
Qed.

Lemma name_unfold j m da c :
  parse defs ignoreExpr (S (S (S (S j)))) m da Name c
  = ('(c2, r) <-
       ('(c1, r0) <-
          (c0 <- preParse (run defs ignoreExpr (S j)) m false c ;;
           match parse_step defs (run defs ignoreExpr j) m false KEYWORDS c0 with
           | Ok _ => Raise ParseException
           | Raise x =>
               match x with
               | ParseException | IndexError | ParseFatalException => Ok (c0, no_results)
               | _ => Raise x
               end
           | OutOfFuel => OutOfFuel
           end) ;;
        parse_seq (run defs ignoreExpr (S (S j))) m da [Regex name_re] c1
                  (add_results no_results r0)) ;;
     if da
     then o <- SymbolNode_parse r ;;
          match o with
          | Some l => Ok (c2, mkResults l [])
          | None => Ok (c2, r)
          end
     else Ok (c2, r)).
Proof. reflexivity. Qed.

(** X3.  A name is never read where the text starts with a keyword, whatever
    follows the keyword: [NotAny(KEYWORDS)] looks for the keyword as a
    prefix, not as a whole word. *)
Theorem Name_rejects_keyword_prefix (kw : string) (l : list ascii)
    (p : option ascii) (m : mode) (da : bool) (j : nat) :
  In kw keyword_list -> (9 <= j)%nat ->
  parse defs ignoreExpr j m da Name (mkCursor p (list_ascii_of_string kw ++ l))
  = Raise ParseException.
Proof.
  intros Hkw Hj. apply (parse_fuel _ _ 9 j); [| discriminate | exact Hj].
  pose proof (keyword_at_word kw p l Hkw) as Hw.
  rewrite (name_unfold 5). rewrite preParse_at_word by (trivial; lia). cbn [bind].
  unfold KEYWORDS. cbn [parse_step].
  rewrite preParse_at_word by (trivial; lia). cbn [bind rest].
  destruct (one_of_match_some keyword_list kw (list_ascii_of_string kw ++ l) Hkw
              (starts_with_app _ _)) as (s' & ->).
  reflexivity.
Qed.

Lemma Name_rejects_keyword_prefix_witness :
  parse defs ignoreExpr 9 Full true Name (mkCursor None (list_ascii_of_string "if" ++ str "fy"))
  = Raise ParseException.
Proof.
  apply (Name_rejects_keyword_prefix "if" (str "fy") None Full true 9).
  - left. reflexivity.
  - apply le_n.
Defined.

(** ** Comments without quotes and braces *)

Lemma in_range_self_false (q a : ascii) : Ascii.eqb a q = false -> in_range q q a = false.
Proof.
  intros H. destruct (in_range q q a) eqn:E; [| reflexivity].
  apply in_range_same in E. subst. now rewrite Ascii.eqb_refl in H.
Qed.

Lemma comment_char_in_set (a : ascii) :
  comment_char a = true -> in_set true text_set a = true.
Proof.
  unfold comment_char, is_quote. intros H.
  apply andb_prop in H. destruct H as [H H3].
  apply andb_prop in H. destruct H as [H H2].
  apply negb_true_iff, orb_false_elim in H. destruct H as [H0 H1].
  apply negb_true_iff in H2, H3.
  unfold in_set, text_set. cbn [existsb fst snd].
  now rewrite !in_range_self_false by assumption.
Qed.

Lemma star_set_run neg rs (b : list ascii) x l :
  forallb (in_set neg rs) b = true -> in_set neg rs x = false ->
  forall n, (List.length (b ++ x :: l) < n)%nat ->
    star_loop (re_match (RSet neg rs)) (fun y => Some y) n (b ++ x :: l) = Some (x :: l).
Proof.
  intros Hb Hx. induction b as [| a b IH]; intros n Hn.
  - destruct n as [| n]; [cbn in Hn; lia |].
    cbn [app star_loop]. now rewrite re_match_set_cons, Hx.
  - cbn [forallb] in Hb. apply andb_prop in Hb. destruct Hb as [Ha Hb].
    destruct n as [| n]; [cbn in Hn; lia |].
    cbn [app star_loop]. rewrite re_match_set_cons, Ha.
    cbn [app List.length] in *. rewrite (proj2 (Nat.ltb_lt _ _) (Nat.lt_succ_diag_r _)).
    rewrite (IH Hb) by lia. reflexivity.
Qed.

(** [[...]+] reads the whole run of characters of the set. *)
Lemma plus_set_match neg rs p a (b : list ascii) x l :
  in_set neg rs a = true -> forallb (in_set neg rs) b = true ->
  in_set neg rs x = false ->
  exists s c2,
    regex_match (RPlus (RSet neg rs)) (mkCursor p (a :: b ++ x :: l)) = Some (s, c2)
    /\ rest c2 = x :: l.
Proof.
  intros Ha Hb Hx. unfold regex_match, RPlus. cbn [rest].
  rewrite re_match_seq, re_match_set_cons, Ha, re_match_star.
  rewrite (star_set_run neg rs b x l Hb Hx) by lia.
  eexists _, _. split; [reflexivity |].
  rewrite advance_rest. cbn [rest].
  apply skipn_suffix. exists (S (List.length b)).
  cbn [skipn]. rewrite skipn_app, skipn_all, Nat.sub_diag. reflexivity.
Qed.

Lemma plus_set_fails neg rs p x l :
  in_set neg rs x = false ->
  regex_match (RPlus (RSet neg rs)) (mkCursor p (x :: l)) = None.
Proof.
  intros Hx. unfold regex_match, RPlus. cbn [rest].
  now rewrite re_match_seq, re_match_set_cons, Hx.
Qed.

Lemma regex_quoted_fails (r : regex) (c : cursor) :
  quoted r = true -> no_quote_ahead c = true -> regex_match r c = None.
Proof.
  intros Hr Hc. destruct (quoted_shape r Hr) as (q & body & -> & Hq).
  unfold no_quote_ahead in Hc. unfold regex_match.
  destruct (rest c) as [| a l]; [discriminate Hc |].
  apply negb_true_iff in Hc.
  now rewrite re_match_seq, re_match_set_cons, (not_quote_in_set q a Hq Hc).
Qed.

Lemma shared_regex_unfold j f r c :
  parse defs ignoreExpr (S (S (S j))) WsOnly true (Shared (ParseAction f (Regex r))) c
  = ('(c1, r1) <-
       (c0 <- preParse (run defs ignoreExpr j) Full true c ;;
        match regex_match r c0 with
        | Some (s, c2) => Ok (c2, one_token (PStr s))
        | None => Raise ParseException
        end) ;;
     o <- f r1 ;;
     match o with
     | Some l => Ok (c1, mkResults l [])
     | None => Ok (c1, r1)
     end).
Proof. reflexivity. Qed.

(** A string or character literal does not start at a character that is
    not a quote. *)
Lemma shared_literal_fails j f r c :
  (8 <= j)%nat -> quoted r = true -> at_word c = true -> no_quote_ahead c = true ->
  parse defs ignoreExpr j WsOnly true (Shared (ParseAction f (Regex r))) c
  = Raise ParseException.
Proof.
  intros Hj Hr Hw Hq. apply (parse_fuel _ _ 8 j); [| discriminate | exact Hj].
  rewrite (shared_regex_unfold 5). rewrite preParse_at_word by (trivial; lia).
  cbn [bind]. now rewrite regex_quoted_fails.
Qed.

Lemma comment_unfold j c :
  parse defs ignoreExpr (S (S (S j))) WsOnly true Comment c
  = bind (parse_step defs (run defs ignoreExpr j) WsOnly true c_open c)
      (fun x1 => let (c1, r1) := x1 in
         bind (parse defs ignoreExpr (S j) WsOnly true c_body c1)
           (fun x2 => let (c2, r2) := x2 in
              bind (parse_step defs (run defs ignoreExpr j) WsOnly true c_close c2)
                (fun x3 => let (c3, r3) := x3 in
                   Ok (c3, add_results
                             (add_results (add_results no_results r1) r2) r3)))).
Proof. reflexivity. Qed.

(** No comment starts at a character that is not an opening brace. *)
Lemma comment_fails j c :
  (3 <= j)%nat -> at_word c = true ->
  parse defs ignoreExpr j WsOnly true Comment c = Raise ParseException.
Proof.
  intros Hj Hw. apply (parse_fuel _ _ 3 j); [| discriminate | exact Hj].
  rewrite (comment_unfold 0). now rewrite open_at_word.
Qed.

Lemma c_text_unfold j c :
  parse defs ignoreExpr (S j) WsOnly true c_text c
  = match regex_match (RPlus (RSet true text_set)) (skip_white (prev c) (rest c)) with
    | Some (s, c2) => Ok (c2, one_token (PStr s))
    | None => Raise ParseException
    end.
Proof. reflexivity. Qed.

Lemma c_alts_unfold j c :
  parse defs ignoreExpr (S j) WsOnly true c_alts c
  = match parse defs ignoreExpr j WsOnly true (Shared String_) c with
    | Raise x1 =>
        if recoverable x1 then
          match parse defs ignoreExpr j WsOnly true (Shared Char) c with
          | Raise x2 =>
              if recoverable x2 then
                match parse defs ignoreExpr j WsOnly true Comment c with
                | Raise x3 =>
                    if recoverable x3 then
                      match parse defs ignoreExpr j WsOnly true c_text c with
                      | Raise x4 =>
                          if recoverable x4 then Raise ParseException else Raise x4
                      | other => other
                      end
                    else Raise x3
                | other => other
                end
              else Raise x2
          | other => other
          end
        else Raise x1
    | other => other
    end.
Proof. reflexivity. Qed.

(** The alternatives of a comment's body, where no literal and no comment
    starts: what is left is the run of plain characters. *)
Lemma c_alts_at_word j c :
  (9 <= j)%nat -> at_word c = true -> no_quote_ahead c = true ->
  parse defs ignoreExpr j WsOnly true c_alts c
  = match regex_match (RPlus (RSet true text_set)) c with
    | Some (s, c2) => Ok (c2, one_token (PStr s))
    | None => Raise ParseException
    end.
Proof.
  intros Hj Hw Hq.
  assert (E : parse defs ignoreExpr 9 WsOnly true c_alts c
              = match regex_match (RPlus (RSet true text_set)) c with
                | Some (s, c2) => Ok (c2, one_token (PStr s))
                | None => Raise ParseException
                end).
  { rewrite (c_alts_unfold 8). unfold String_, Char.
    rewrite !shared_literal_fails by (trivial; lia). cbn [recoverable].
    rewrite comment_fails by (trivial; lia). cbn [recoverable].
    rewrite (c_text_unfold 7), skip_white_at_word by exact Hw.
    destruct (regex_match _ c) as [[s c2] |]; reflexivity. }
  apply (parse_fuel _ _ 9 j); [exact E | | exact Hj].
  destruct (regex_match _ c) as [[s c2] |]; discriminate.
Qed.

Lemma skip_white_split (f : ascii -> bool) (l : list ascii) x t : forall p,
  is_white x = false -> forallb f l = true ->
  exists p1 b,
    skip_white p (l ++ x :: t) = mkCursor p1 (b ++ x :: t)
    /\ forallb f b = true
    /\ match b with a :: _ => is_white a = false | [] => True end.
Proof.
  induction l as [| a l IH]; intros p Hx Hl.
  - exists p, []. cbn [app skip_white]. rewrite Hx. now repeat split.
  - cbn [forallb] in Hl. apply andb_prop in Hl. destruct Hl as [Ha Hl].
    cbn [app skip_white]. destruct (is_white a) eqn:Ew.
    + now apply IH.
    + exists p, (a :: l). cbn [forallb]. rewrite Ha, Hl. now repeat split.
Qed.

Lemma c_body_unfold j c :
  parse defs ignoreExpr (S j) WsOnly true c_body c
  = match parse defs ignoreExpr j WsOnly true c_alts (skip_white (prev c) (rest c)) with
    | Ok (c2, r) => many defs ignoreExpr j WsOnly true c_alts c2 r
    | Raise x =>
        if recoverable x then Ok (skip_white (prev c) (rest c), no_results) else Raise x
    | OutOfFuel => OutOfFuel
    end.
Proof. reflexivity. Qed.

Lemma c_many_unfold j c acc :
  many defs ignoreExpr (S j) WsOnly true c_alts c acc
  = match parse defs ignoreExpr j WsOnly true c_alts c with
    | Ok (c2, r) => many defs ignoreExpr j WsOnly true c_alts c2 (add_results acc r)
    | Raise x => if recoverable x then Ok (c, acc) else Raise x
    | OutOfFuel => OutOfFuel
    end.
Proof. reflexivity. Qed.

Lemma c_alts_at_close j p t :
  (9 <= j)%nat ->
  parse defs ignoreExpr j WsOnly true c_alts (mkCursor p ("}"%char :: t))
  = Raise ParseException.
Proof.
  intros Hj. rewrite c_alts_at_word by (trivial; lia).
  now rewrite plus_set_fails.
Qed.

(** The body of a comment made of plain characters is read up to the
    closing brace. *)
Lemma c_body_plain j p (body : list ascii) t :
  (12 <= j)%nat -> forallb comment_char body = true ->
  exists p' r,
    parse defs ignoreExpr j WsOnly true c_body (mkCursor p (body ++ "}"%char :: t))
    = Ok (mkCursor p' ("}"%char :: t), r).
Proof.
  intros Hj Hb.
  destruct (skip_white_split comment_char body "}"%char t p eq_refl Hb)
    as (p1 & b & Es & Hb1 & Hw).
  assert (E : exists p' r,
             parse defs ignoreExpr 12 WsOnly true c_body
               (mkCursor p (body ++ "}"%char :: t))
             = Ok (mkCursor p' ("}"%char :: t), r)).
  { rewrite (c_body_unfold 11). cbn [prev rest]. rewrite Es.
    destruct b as [| a b].
    - cbn [app]. rewrite c_alts_at_close by lia. cbn [recoverable]. eauto.
    - cbn [forallb] in Hb1. apply andb_prop in Hb1. destruct Hb1 as [Ha Hb1].
      assert (Hq : is_quote a = false /\ Ascii.eqb a brace = false).
      { unfold comment_char in Ha. apply andb_prop in Ha. destruct Ha as [Ha _].
        apply andb_prop in Ha. destruct Ha as [H1 H2].
        now apply negb_true_iff in H1, H2. }
      destruct Hq as [Hq Hbr]. cbn [app].
      rewrite c_alts_at_word; [| lia | | ].
      + destruct (plus_set_match true text_set p1 a b "}"%char t) as (s & c2 & -> & Hc2).
        * now apply comment_char_in_set.
        * apply forallb_forall. intros y Hy. apply comment_char_in_set.
          rewrite forallb_forall in Hb1. now apply Hb1.
        * reflexivity.
        * destruct c2 as [p2 l2]. cbn [rest] in Hc2. subst l2.
          rewrite (c_many_unfold 10), c_alts_at_close by lia. cbn [recoverable]. eauto.
      + cbn [at_word rest app]. now rewrite Hw, Hbr.
      + cbn [no_quote_ahead rest app]. now rewrite Hq. }
  destruct E as (p' & r & E). exists p', r.
  apply (parse_fuel _ _ 12 j); [exact E | discriminate | exact Hj].
Qed.

Lemma plain_comment_text (body : list ascii) :
  forallb comment_char body = true -> comment_text (brace :: body ++ ["}"%char]).
Proof.
  intros Hb. exists 15%nat.
  rewrite (comment_unfold 12), open_here. cbn [bind].
  destruct (c_body_plain 13 (Some brace) body [] (ltac:(lia)) Hb) as (p' & r & ->).
  cbn [bind]. rewrite c_close_step. cbn.
  eexists _, _. reflexivity.
Qed.

Lemma comment_char_spaces j : forallb comment_char (repeat " "%char j) = true.
Proof. induction j as [| j IH]; [reflexivity | exact IH]. Qed.

Lemma comment_char_expandtabs (l : list ascii) : forall col,
  forallb comment_char l = true -> forallb comment_char (expandtabs_from col l) = true.
Proof.
  induction l as [| a l IH]; intros col H; [reflexivity |].
  cbn [forallb] in H. apply andb_prop in H. destruct H as [Ha H].
  cbn [expandtabs_from].
  destruct (Ascii.eqb a (chr 9)); [| destruct (_ || _)].
  - rewrite forallb_app, comment_char_spaces. now apply IH.
  - cbn [forallb]. rewrite Ha. now apply IH.
  - cbn [forallb]. rewrite Ha. now apply IH.
Qed.

(** X4.  Any text without quotes and braces, put between [{] and [}], is a
    comment. *)
Theorem plain_text_in_braces_is_comment (body : list ascii) :
  forallb comment_char body = true ->
  is_comment (brace :: body ++ ["}"%char]).
Proof.
  intros Hb. split; [now exists (body ++ ["}"%char]) |].
  intros col.
  assert (E : exists col1 col2,
             expandtabs_from col (brace :: body ++ ["}"%char])
             = brace :: expandtabs_from col1 body ++ expandtabs_from col2 ["}"%char]).
  { exists (S col mod 8)%nat.
    destruct (expandtabs_from_app body ["}"%char] (S col mod 8)) as (col2 & E).
    exists col2.
    change (expandtabs_from col (brace :: body ++ ["}"%char]))
      with (brace :: expandtabs_from (S col mod 8) (body ++ ["}"%char])).
    now rewrite E. }
  destruct E as (col1 & col2 & ->).
  apply plain_comment_text. now apply comment_char_expandtabs.
Qed.

Lemma plain_text_in_braces_is_comment_witness :
  is_comment (brace :: str " not yet: end if " ++ ["}"%char]).
Proof.
  apply (plain_text_in_braces_is_comment (str " not yet: end if ")). reflexivity.
Defined.

(** ** Numeric literals: sign, radix and range *)

Lemma number_results_body sign body p :
  r_item (number_results sign body p) "body" = Ok (PStr body).
Proof. destruct sign, p; reflexivity. Qed.

Lemma number_results_precision sign body p :
  r_get (number_results sign body p) "precision" (PStr EmptyString)
  = match p with Some x => x | None => PStr EmptyString end.
Proof. destruct sign, p; reflexivity. Qed.

Lemma number_results_sign sign body p :
  r_get (number_results sign body p) "sign" (PStr EmptyString)
  = match sign with Some s => PStr s | None => PStr EmptyString end.
Proof. destruct sign, p; reflexivity. Qed.

Lemma split_once_at (a : ascii) (x y : list ascii) :
  no_char a x = true -> split_once a (x ++ a :: y) = Some (x, y).
Proof.
  induction x as [| b x IH]; intros H; cbn [app split_once].
  - now rewrite Ascii.eqb_refl.
  - cbn [no_char forallb] in H. apply andb_prop in H. destruct H as [Hb H].
    apply negb_true_iff in Hb. rewrite Hb. now rewrite (IH H).
Qed.

(** X5.  A literal [R#digits] whose radix [R] is below 2, above 36, or is 10
    or 16 (which must be written without a radix) is a fatal parse error,
    whatever the digits, the sign and the exponent. *)
Theorem number_radix_is_checked (sign : option string) (radix_text digits : list ascii)
    (p : option pyval) (n : Z) :
  radix_text <> [] -> no_char "#" radix_text = true ->
  py_int radix_text 10 = Some n -> bad_radix n = true ->
  number_action
    (number_results sign (string_of_list_ascii (radix_text ++ "#"%char :: digits)) p)
  = Raise ParseFatalException.
Proof.
  intros Hne Hno Hn Hbad. unfold number_action.
  rewrite number_results_body. cbn [bind].
  rewrite list_ascii_of_string_of_list_ascii, split_once_at by exact Hno.
  destruct radix_text as [| r0 radix_text]; [contradiction |].
  rewrite Hn. unfold bad_radix in Hbad. now rewrite Hbad.
Qed.

Lemma number_radix_is_checked_witness :
  number_action (number_results None "16#FFF" None) = Raise ParseFatalException.
Proof.
  apply (number_radix_is_checked None ["1"; "6"]%char ["F"; "F"; "F"]%char None 16);
    [discriminate | reflexivity | reflexivity | reflexivity].
Defined.

(** X6.  The sign of a literal only negates its value: with [-] the result is
    the negation of the result without a sign, and with [+] it is the
    same. *)
Theorem number_sign_negates (body : string) (p : option pyval) :
  number_action (number_results (Some "-") body p)
  = match number_action (number_results None body p) with
    | Ok (Some [v]) => Ok (Some [negate v])
    | other => other
    end
  /\ number_action (number_results (Some "+") body p)
     = number_action (number_results None body p).
Proof.
  unfold number_action.
  rewrite !number_results_body, !number_results_precision, !number_results_sign.
  cbn [bind String.eqb Ascii.eqb Bool.eqb].
  destruct (match split_once "#" (list_ascii_of_string body) with
            | Some (radix, body0) => _
            | None => _
            end) as [[radix body0] | e |]; cbn [bind]; [| now split | now split].
  destruct (match split_once "." body0 with
            | Some (ipart, fpart) => _
            | None => _
            end) as [num | e |]; cbn [bind]; [| now split | now split].
  destruct (if truthy _ then _ else _) as [num' | e |]; cbn [bind]; now split.
Qed.

Lemma in_range_lower (lo hi c : ascii) :
  in_range lo hi c = true -> (N_of_ascii lo <= N_of_ascii c)%N.
Proof.
  unfold in_range. intros H. apply andb_prop in H. destruct H as [H _].
  now apply N.leb_le.
Qed.

Lemma digit_value_nonneg (c : ascii) (d : Z) : digit_value c = Some d -> (0 <= d)%Z.
Proof.
  unfold digit_value. cbv zeta.
  destruct (in_range "0" "9" c) eqn:E1;
    [| destruct (in_range "A" "Z" c) eqn:E2;
       [| destruct (in_range "a" "z" c) eqn:E3; [| discriminate]]];
    intros H.
  - assert (Hd : d = (Z.of_N (N_of_ascii c) - 48)%Z) by congruence.
    apply in_range_lower in E1. change (N_of_ascii "0") with 48%N in E1. lia.
  - assert (Hd : d = (Z.of_N (N_of_ascii c) - 55)%Z) by congruence.
    apply in_range_lower in E2. change (N_of_ascii "A") with 65%N in E2. lia.
  - assert (Hd : d = (Z.of_N (N_of_ascii c) - 87)%Z) by congruence.
    apply in_range_lower in E3. change (N_of_ascii "a") with 97%N in E3. lia.
Qed.

Lemma digits_value_nonneg (radix : Z) (l : list ascii) : forall acc v,
  (0 <= radix)%Z -> (0 <= acc)%Z -> digits_value radix l acc = Some v -> (0 <= v)%Z.
Proof.
  induction l as [| c l IH]; intros acc v Hr Ha H; cbn [digits_value] in H.
  - now injection H as <-.
  - destruct (digit_value c) as [d |] eqn:Ed; [| discriminate].
    destruct (d <? radix)%Z; [| discriminate].
    apply digit_value_nonneg in Ed.
    apply (IH _ _ Hr) in H; [exact H | nia].
Qed.

Lemma py_int_nonneg (text : list ascii) (radix n : Z) :
  (0 <= radix)%Z -> py_int text radix = Some n -> (0 <= n)%Z.
Proof.
  intros Hr. unfold py_int.
  destruct (match text with
            | z :: c :: l' => _
            | _ => text
            end) as [| a digits]; [discriminate |].
  now apply digits_value_nonneg.
Qed.

(** X7.  An integer literal without a sign, or with [+], is never negative,
    and with [-] it is never positive. *)
Theorem integer_literal_sign (sign : option string) (body : string) (z : Z) :
  number_action (number_results sign body None) = Ok (Some [PInt z]) ->
  if match sign with Some s => String.eqb s "-" | None => false end
  then (z <= 0)%Z else (0 <= z)%Z.
Proof.
  unfold number_action.
  rewrite number_results_body, number_results_precision, number_results_sign.
  cbn [bind truthy String.eqb negb].
  assert (Hs : (match match sign with Some s => PStr s | None => PStr EmptyString end with
                | PStr s => String.eqb s "-" | _ => false end)
               = match sign with Some s => String.eqb s "-" | None => false end)
    by (destruct sign; reflexivity).
  rewrite Hs. clear Hs.
  set (neg := match sign with Some s => String.eqb s "-" | None => false end).
  clearbody neg.
  assert (Hfin : forall radix digits,
            (0 <= radix)%Z ->
            bind (match split_once "." digits with
                  | Some (ipart, fpart) =>
                      match py_int ipart radix, py_int fpart radix with
                      | Some i, Some f =>
                          Ok (PFloat (inject_Z i
                                      + inject_Z f / Qpower (inject_Z radix)
                                                            (Z.of_nat (List.length fpart))))
                      | _, _ => Raise ParseFatalException
                      end
                  | None =>
                      match py_int digits radix with
                      | Some n => Ok (PInt n)
                      | None => Raise ParseFatalException
                      end
                  end)
              (fun num => bind (Ok num)
                 (fun num0 => Ok (Some [if neg then negate num0 else num0])))
            = Ok (Some [PInt z]) ->
            if neg then (z <= 0)%Z else (0 <= z)%Z).
  { intros radix digits Hr.
    destruct (split_once "." digits) as [[ipart fpart] |].
    - destruct (py_int ipart radix), (py_int fpart radix); cbn [bind];
        try discriminate. destruct neg; discriminate.
    - destruct (py_int digits radix) as [n |] eqn:En; cbn [bind]; [| discriminate].
      apply py_int_nonneg in En; [| exact Hr].
      destruct neg; cbn [negate]; intros H; injection H as <-; lia. }
  destruct (split_once "#" (list_ascii_of_string body)) as [[radix rest_] |].
  - destruct radix as [| r0 radix].
    + cbn [bind]. apply Hfin. lia.
    + destruct (py_int (r0 :: radix) 10) as [rx |]; [| discriminate].
      destruct (negb ((2 <=? rx)%Z && (rx <=? 36)%Z)) eqn:E; [discriminate |].
      cbn [orb]. destruct ((rx =? 10)%Z || (rx =? 16)%Z); [discriminate |].
      cbn [bind]. apply Hfin.
      apply negb_false_iff, andb_prop in E. destruct E as [E _].
      apply Z.leb_le in E. lia.
  - cbn [bind]. apply Hfin. lia.
Qed.

Lemma integer_literal_sign_witness : (-511 <= 0)%Z.
Proof.
  exact (integer_literal_sign (Some "-") "8#777" (-511) eq_refl).
Defined.

(** X8.  An exponent of zero is ignored, so an integer literal stays an
    integer, while any other integer exponent makes the literal a float. *)
Theorem number_exponent_zero_is_ignored (sign : option string) (body : string) :
  number_action (number_results sign body (Some (PInt 0)))
  = number_action (number_results sign body None)
  /\ forall e v, e <> 0%Z ->
       number_action (number_results sign body (Some (PInt e))) = Ok (Some [v]) ->
       exists q, v = PFloat q.
Proof.
  unfold number_action.
  rewrite !number_results_body, !number_results_precision.
  split.
  - rewrite !number_results_sign. reflexivity.
  - intros e v He. apply Z.eqb_neq in He.
    rewrite number_results_body, number_results_precision, number_results_sign.
    cbn [bind].
    match goal with
    | |- context [bind ?m _] => destruct m as [[radix body0] | x |]
    end; cbn [bind]; try discriminate.
    match goal with
    | |- context [bind ?m _] => destruct m as [num | x |]
    end; cbn [bind]; try discriminate.
    cbn [truthy int_of bind]. rewrite He. cbn [negb bind].
    destruct (match match sign with Some s => PStr s | None => PStr EmptyString end with
              | PStr s => String.eqb s "-" | _ => false end);
      intros H; injection H as <-; eexists; reflexivity.
Qed.

Lemma number_exponent_zero_is_ignored_witness :
  exists q, PFloat (inject_Z 5 * Qpower (inject_Z 10) 2) = PFloat q.
Proof.
  apply (proj2 (number_exponent_zero_is_ignored None "5") 2%Z
           (PFloat (inject_Z 5 * Qpower (inject_Z 10) 2))).
  - discriminate.
  - reflexivity.
Defined.

(** ** String and character literals *)

Lemma unescape_plain (l : list ascii) :
  no_char backslash l = true -> unescape l = l.
Proof.
  induction l as [| a l IH]; intros H; [reflexivity |].
  cbn [no_char forallb] in H. apply andb_prop in H. destruct H as [Ha H].
  apply negb_true_iff in Ha. cbn [unescape]. rewrite Ha. now rewrite (IH H).
Qed.

Lemma unescape_length (n : nat) : forall l,
  (List.length l <= n)%nat -> (List.length (unescape l) <= List.length l)%nat.
Proof.
  induction n as [| n IH]; intros l Hl.
  - destruct l; [reflexivity | cbn in Hl; lia].
  - destruct l as [| a l]; [reflexivity |].
    cbn [unescape]. cbn [List.length] in Hl.
    destruct (Ascii.eqb a backslash).
    + destruct l as [| c l]; [reflexivity |].
      cbn [List.length] in Hl.
      destruct (Ascii.eqb c (chr 10)).
      * cbn [List.length]. specialize (IH (c :: l)). cbn [List.length] in IH.
        specialize (IH ltac:(lia)). lia.
      * cbn [List.length]. specialize (IH l ltac:(lia)). lia.
    + cbn [List.length]. specialize (IH l ltac:(lia)). lia.
Qed.

(** X9.  [string_action] returns the text between the quotes as it is when
    that text has no backslash. *)
Theorem string_action_plain (q1 q2 : ascii) (body : list ascii) :
  no_char backslash body = true ->
  string_action (one_token (PStr (string_of_list_ascii (q1 :: body ++ [q2]))))
  = Ok (Some [PStr (string_of_list_ascii body)]).
Proof.
  intros H. unfold string_action. cbn [toks one_token].
  rewrite list_ascii_of_string_of_list_ascii. cbn [tl].
  now rewrite removelast_last, unescape_plain.
Qed.

Lemma string_action_plain_witness :
  string_action (one_token (PStr (string_of_list_ascii
                                    (dquote :: ["a"; "b"; "c"]%char ++ [dquote]))))
  = Ok (Some [PStr "abc"]).
Proof.
  apply (string_action_plain dquote dquote ["a"; "b"; "c"]%char). reflexivity.
Defined.

Lemma removelast_length {A : Type} (l : list A) :
  List.length (removelast l) = (List.length l - 1)%nat.
Proof.
  induction l as [| a l IH]; [reflexivity |].
  destruct l as [| b l]; [reflexivity |].
  change (removelast (a :: b :: l)) with (a :: removelast (b :: l)).
  cbn [List.length] in *. rewrite IH. lia.
Qed.

Lemma string_length_of_list (l : list ascii) :
  String.length (string_of_list_ascii l) = List.length l.
Proof. induction l as [| a l IH]; [reflexivity | cbn; now rewrite IH]. Qed.

(** X10.  What [string_action] returns is never longer than the literal
    without its two quotes: an escape only shortens the text. *)
Theorem string_action_never_longer (s v : string) (r : results) (rest_ : list pyval) :
  toks r = PStr s :: rest_ ->
  string_action r = Ok (Some [PStr v]) ->
  (String.length v <= String.length s - 2)%nat.
Proof.
  intros Hr. unfold string_action. rewrite Hr. intros H. injection H as <-.
  rewrite string_length_of_list.
  etransitivity; [apply (unescape_length _ _ (le_n _)) |].
  rewrite removelast_length, <- length_list_ascii_of_string.
  destruct (list_ascii_of_string s); cbn [tl List.length]; lia.
Qed.

Lemma string_action_never_longer_witness :
  (String.length "a" <= String.length "'\a'" - 2)%nat.
Proof.
  apply (string_action_never_longer "'\a'" "a" (one_token (PStr "'\a'")) []);
    reflexivity.
Defined.

Lemma kw_find_In (k : string) (kw : list (string * pyval)) :
  kw_find k kw <> None -> In k (map fst kw).
Proof.
  induction kw as [| [k' v] kw IH]; cbn [kw_find map fst In]; [congruence |].
  destruct (String.eqb k k') eqn:E.
  - apply String.eqb_eq in E. intros _. now left.
  - intros H. right. now apply IH.
Qed.

Lemma existsb_eqb_In (k : string) (l : list string) :
  existsb (String.eqb k) l = true <-> In k l.
Proof.
  rewrite existsb_exists. split.
  - intros (x & Hx & E). apply String.eqb_eq in E. now subst.
  - intros H. exists k. split; [exact H | apply String.eqb_refl].
Qed.

Lemma bind_kwargs_unexpected (req opt : list string) (kw : list (string * pyval)) k :
  kw_find k kw <> None -> ~ In k (req ++ opt) ->
  bind_kwargs req opt kw = Raise TypeError.
Proof.
  intros Hk Hn. unfold bind_kwargs.
  destruct (forallb _ kw) eqn:E; [| reflexivity]. exfalso.
  apply kw_find_In, in_map_iff in Hk. destruct Hk as ([k' v] & <- & Hin).
  rewrite forallb_forall in E. specialize (E _ Hin). cbn [fst] in *.
  now apply existsb_eqb_In in E.
Qed.

Lemma bind_kwargs_missing (req opt : list string) (kw : list (string * pyval)) k :
  In k req -> kw_find k kw = None ->
  bind_kwargs req opt kw = Raise TypeError.
Proof.
  intros Hk Hn. unfold bind_kwargs.
  destruct (forallb (fun k0 => _) req) eqn:E; [| now rewrite andb_false_r].
  rewrite forallb_forall in E. specialize (E _ Hk). now rewrite Hn in E.
Qed.

(** X11.  [Node.parse] fails with an assertion failure whenever the named
    results carry a name that the constructor does not take, or lack one
    that it requires. *)
Theorem Node_parse_checks_keywords init req opt (r : results) (k : string) :
  In (init, (req, opt)) signatures ->
  (kw_find k (kwargs_of r) <> None /\ ~ In k (req ++ opt))
  \/ (In k req /\ kw_find k (kwargs_of r) = None) ->
  Node_parse init r = Raise AssertionError.
Proof.
  intros Hin H.
  assert (Hb : bind_kwargs req opt (kwargs_of r) = Raise TypeError).
  { destruct H as [[H1 H2] | [H1 H2]];
      [now apply (bind_kwargs_unexpected _ _ _ k) | now apply (bind_kwargs_missing _ _ _ k)]. }
  unfold signatures in Hin. cbn [In] in Hin.
  repeat (destruct Hin as [Hin | Hin];
          [injection Hin as <- <- <-;
           unfold Node_parse, ArrayNode_init, NewNode_init, IfNode_init, SwitchNode_init,
             WhileNode_init, ForNode_init, ForeachNode_init, TryNode_init, IfdefNode_init,
             BlockNode_init, DoNode_init, BreakNode_init, ContinueNode_init,
             ReturnNode_init, AssertNode_init, ThrowNode_init, FuncNode_init,
             VarNode_init, ConstNode_init, AliasNode_init, ArrayTypeNode_init,
             ClassNode_init, EnumNode_init;
           rewrite Hb; reflexivity |]).
  contradiction.
Qed.

Lemma Node_parse_checks_keywords_witness :
  Node_parse WhileNode_init
    (mkResults [SymbolNode "w"; PBool true]
               [("block_name", (false, SymbolNode "w")); ("cond", (false, PBool true))])
  = Raise AssertionError.
Proof.
  apply (Node_parse_checks_keywords WhileNode_init ["cond"] ["skip"; "body"] _ "block_name").
  - unfold signatures. do 4 right. left. reflexivity.
  - left. split; [discriminate |]. cbn. intros [H | [H | [H | []]]]; discriminate H.
Defined.

(** ** Enum members *)

Lemma enum_members_plain (keys : list pyval) : forall c,
  enum_members (PInt c) (plain_members keys) = Ok (numbered c keys).
Proof.
  induction keys as [| key keys IH]; intros c; [reflexivity |].
  cbn [plain_members map enum_members unpack py_iter List.length Nat.eqb bind py_add1].
  fold (plain_members keys). now rewrite IH.
Qed.

(** X12.  An enum whose members give no value numbers them 0, 1, 2, ... in
    the order they are written. *)
Theorem enum_without_values_counts_from_zero (name : pyval) (keys : list pyval) :
  Node_parse EnumNode_init (enum_results name (map (fun key => (key, PNone)) keys))
  = Ok (Some [EnumNode name (numbered 0 keys)])
  /\ map fst (numbered 0 keys) = keys
  /\ forall i key, nth_error keys i = Some key ->
                   nth_error (numbered 0 keys) i = Some (key, PInt (Z.of_nat i)).
Proof.
  split; [| split].
  - unfold Node_parse. rewrite enum_init_results, map_map. cbn [fst snd].
    fold (plain_members keys). now rewrite enum_members_plain.
  - generalize 0%Z. induction keys as [| key keys IH]; intros c; [reflexivity |].
    cbn [numbered map fst]. now rewrite IH.
  - assert (H : forall c i key, nth_error keys i = Some key ->
                nth_error (numbered c keys) i = Some (key, PInt (c + Z.of_nat i))).
    { induction keys as [| key0 keys IH]; intros c i key Hi.
      - destruct i; discriminate Hi.
      - destruct i as [| i]; cbn [nth_error numbered] in *.
        + injection Hi as ->. now rewrite Z.add_0_r.
        + rewrite (IH (c + 1)%Z i key Hi). do 3 f_equal. lia. }
    intros i key Hi. now rewrite (H 0%Z i key Hi).
Qed.

Lemma enum_without_values_counts_from_zero_witness :
  nth_error (numbered 0 [SymbolNode "A"; SymbolNode "B"]) 1
  = Some (SymbolNode "B", PInt 1).
Proof.
  exact (proj2 (proj2 (enum_without_values_counts_from_zero
                         (SymbolNode "E") [SymbolNode "A"; SymbolNode "B"]))
           1%nat (SymbolNode "B") eq_refl).
Defined.

(** X13.  When the loop of [EnumNode.__init__] ends, it has kept the keys in
    order, each value that was given, and only numbers as values. *)
Theorem enum_members_keeps_keys_and_values (members : list (pyval * pyval)) :
  forall counter out,
    enum_members counter (map (fun kv => PTuple [fst kv; snd kv]) members) = Ok out ->
    Forall2 (fun kv kv' => fst kv' = fst kv
                           /\ (snd kv <> PNone -> snd kv' = snd kv)
                           /\ is_number (snd kv') = true) members out.
Proof.
  induction members as [| [key value] members IH]; intros counter out H.
  - injection H as <-. constructor.
  - cbn [map fst snd enum_members unpack py_iter List.length Nat.eqb bind] in H.
    set (value' := match value with PNone => counter | _ => value end) in *.
    destruct (is_number value') eqn:En.
    + destruct (py_add1_number _ En) as (next & Ea & _). rewrite Ea in H. cbn [bind] in H.
      destruct (enum_members next _) as [tl | x |] eqn:Et; try discriminate H.
      injection H as <-. constructor; [| now apply (IH next)].
      cbn [fst snd]. split; [reflexivity | split; [| exact En]].
      intros Hv. subst value'. destruct value; congruence.
    + rewrite (py_add1_not_number _ En) in H. discriminate H.
Qed.

Lemma enum_members_keeps_keys_and_values_witness :
  Forall2 (fun kv kv' => fst kv' = fst kv
                         /\ (snd kv <> PNone -> snd kv' = snd kv)
                         /\ is_number (snd kv') = true)
    [(SymbolNode "A", PNone); (SymbolNode "B", PInt 5)]
    [(SymbolNode "A", PInt 0); (SymbolNode "B", PInt 5)].
Proof.
  apply (enum_members_keeps_keys_and_values
           [(SymbolNode "A", PNone); (SymbolNode "B", PInt 5)] (PInt 0)).
  reflexivity.
Defined.

(** ** The parse actions of operator expressions *)

(** X14.  [parse_as_unary] builds a node from a group of exactly two tokens and
    [parse_as_binary] and [parse_as_ternary] from a group of exactly three;
    with any other number of tokens in the group the unpacking raises
    [ValueError], which leaves the parse action. *)
Theorem parse_as_arity (l : list pyval) (nm : list (string * (bool * pyval)))
    (r : results) (rest_ : list pyval) :
  toks r = PResults l nm :: rest_ ->
  (List.length l <> 2%nat -> parse_as_unary r = Raise ValueError)
  /\ (List.length l <> 3%nat ->
      parse_as_binary r = Raise ValueError /\ parse_as_ternary r = Raise ValueError)
  /\ (forall a b, l = [a; b] -> parse_as_unary r = Ok (Some [ExprNode a [b]]))
  /\ (forall a b c, l = [a; b; c] ->
        parse_as_binary r = Ok (Some [ExprNode b [a; c]])
        /\ parse_as_ternary r = Ok (Some [ExprNode ternary_op [a; b; c]])).
Proof.
  intros Hr.
  unfold parse_as_unary, parse_as_binary, parse_as_ternary, first_token.
  rewrite Hr. cbn [bind unpack py_iter].
  split; [| split; [| split]].
  - intros Hl. apply Nat.eqb_neq in Hl. now rewrite Hl.
  - intros Hl. apply Nat.eqb_neq in Hl. now rewrite Hl.
  - now intros a b ->.
  - now intros a b c ->.
Qed.

Lemma parse_as_arity_witness :
  parse_as_binary (one_token (PResults [PInt 1; SymbolNode "+"; PInt 2;
                                        SymbolNode "+"; PInt 3] []))
  = Raise ValueError.
Proof.
  apply (proj1 (proj1 (proj2 (parse_as_arity
           [PInt 1; SymbolNode "+"; PInt 2; SymbolNode "+"; PInt 3] []
           (one_token (PResults [PInt 1; SymbolNode "+"; PInt 2;
                                 SymbolNode "+"; PInt 3] [])) [] eq_refl))
           ltac:(discriminate))).
Defined.

(** ** Statements *)

Lemma bind_kwargs_cases (req opt : list string) (kw : list (string * pyval)) :
  bind_kwargs req opt kw = Ok tt \/ bind_kwargs req opt kw = Raise TypeError.
Proof. unfold bind_kwargs. destruct (_ && _); [now left | now right]. Qed.

Lemma assert_symbol_cases (v : pyval) :
  assert_symbol v = Ok tt \/ assert_symbol v = Raise AssertionError.
Proof. destruct v; cbn; auto. Qed.

(** X15.  A [switch] without any [case] or [default] cannot be built:
    [SwitchNode.__init__] iterates over [case], whose default is [None], and
    the [TypeError] becomes the failure of [assert False] in [Node.parse]. *)
Theorem switch_without_case_fails :
  (forall r : results,
      kw_find "case" (kwargs_of r) = None ->
      Node_parse SwitchNode_init r = Raise AssertionError)
  /\ parse_program "switch (n) end switch" (Raise AssertionError).
Proof.
  split; [| by_parse_stmt 200%nat].
  intros r H. unfold Node_parse, SwitchNode_init.
  destruct (bind_kwargs_cases ["target"] ["case"; "block_name"] (kwargs_of r)) as [-> | ->];
    [| reflexivity].
  cbn [bind].
  destruct (assert_symbol_cases (kw_get (kwargs_of r) "block_name" PNone)) as [-> | ->];
    [| reflexivity].
  cbn [bind]. unfold kw_get at 1. now rewrite H.
Qed.

Lemma switch_without_case_fails_witness :
  Node_parse SwitchNode_init
    (mkResults [SymbolNode "n"] [("target", (false, SymbolNode "n"))])
  = Raise AssertionError.
Proof.
  apply (proj1 switch_without_case_fails). reflexivity.
Defined.

Lemma zip3_length (a b c : list pyval) :
  List.length (zip3 a b c)
  = Nat.min (List.length a) (Nat.min (List.length b) (List.length c)).
Proof.
  revert b c. induction a as [| x a IH]; intros [| y b] [| z c]; cbn [zip3 List.length];
    try lia.
  rewrite IH. lia.
Qed.

(** X16.  [ClassNode.__init__] pairs the members with the visibility marks and
    the override marks by [zip]: when marks were collected, the node keeps
    as many members as the shortest of the three lists has, the marks going
    to the first members.  So a class whose second member alone is marked
    private keeps its first member only, as private. *)
Theorem class_members_are_zipped :
  (forall kw ms nm vs nv os no,
      bind_kwargs ["name"] ["parent"; "member"; "visibility"; "override"] kw = Ok tt ->
      kw_get kw "member" PNone = PResults ms nm -> ms <> [] ->
      kw_get kw "visibility" PNone = PResults vs nv ->
      kw_get kw "override" PNone = PResults os no ->
      exists members,
        ClassNode_init kw
        = Ok (ClassNode (kw_get kw "name" PNone) (kw_get kw "parent" PNone) members)
        /\ List.length members
           = Nat.min (List.length ms) (Nat.min (List.length vs) (List.length os)))
  /\ parse_program "class C var A : int -var B : int end class"
       (Ok [ClassNode (SymbolNode "C") PNone
              [ClassMember (VarNode (SymbolNode "A") (SymbolNode "int") PNone)
                           (PStr "-") false]]).
Proof.
  split; [| by_parse_stmt 200%nat].
  intros kw ms nm vs nv os no Hb Hm Hne Hv Ho.
  unfold ClassNode_init. rewrite Hb, Hm, Hv, Ho. cbn [bind truthy].
  destruct ms as [| m ms]; [contradiction |].
  cbn [py_iter py_len bind]. eexists. split; [reflexivity |].
  now rewrite length_map, zip3_length.
Qed.

Lemma class_members_are_zipped_witness :
  exists members,
    ClassNode_init [("name", SymbolNode "C");
                    ("visibility", PResults [PStr "-"] []);
                    ("override", PResults [PStr "*"] []);
                    ("member", PResults [PInt 1; PInt 2] [])]
    = Ok (ClassNode (SymbolNode "C") PNone members)
    /\ List.length members = 1%nat.
Proof.
  apply (proj1 class_members_are_zipped
           [("name", SymbolNode "C");
            ("visibility", PResults [PStr "-"] []);
            ("override", PResults [PStr "*"] []);
            ("member", PResults [PInt 1; PInt 2] [])]
           [PInt 1; PInt 2] [] [PStr "-"] [] [PStr "*"] []);
    try reflexivity.
  discriminate.
Defined.

Lemma kw_find_app (k k0 : string) (v : pyval) (kw : list (string * pyval)) :
  kw_find k (kw ++ [(k0, v)])
  = match kw_find k kw with
    | Some x => Some x
    | None => if String.eqb k k0 then Some v else None
    end.
Proof.
  induction kw as [| [k' v'] kw IH]; cbn [app kw_find]; [reflexivity |].
  destruct (String.eqb k k'); [reflexivity | exact IH].
Qed.

Lemma kw_get_app_other (k k0 : string) (v d : pyval) (kw : list (string * pyval)) :
  String.eqb k k0 = false -> kw_get (kw ++ [(k0, v)]) k d = kw_get kw k d.
Proof.
  intros H. unfold kw_get. rewrite kw_find_app, H. now destruct (kw_find k kw).
Qed.

Lemma forallb_agree {A : Type} (f g : A -> bool) (l : list A) :
  (forall x, In x l -> f x = g x) -> forallb f l = forallb g l.
Proof.
  induction l as [| a l IH]; intros H; [reflexivity |].
  cbn [forallb]. rewrite (H a) by now left.
  rewrite IH; [reflexivity |]. intros x Hx. apply H. now right.
Qed.

Lemma bind_kwargs_app (req opt : list string) (k0 : string) (v : pyval)
    (kw : list (string * pyval)) :
  In k0 opt -> ~ In k0 req ->
  bind_kwargs req opt (kw ++ [(k0, v)]) = bind_kwargs req opt kw.
Proof.
  intros Ho Hr. unfold bind_kwargs. rewrite forallb_app. cbn [forallb fst].
  replace (existsb (String.eqb k0) (req ++ opt)) with true
    by (symmetry; apply existsb_eqb_In, in_or_app; now right).
  rewrite !andb_true_r.
  replace (forallb (fun k => match kw_find k (kw ++ [(k0, v)]) with
                             | Some _ => true | None => false end) req)
    with (forallb (fun k => match kw_find k kw with
                            | Some _ => true | None => false end) req);
    [reflexivity |].
  apply forallb_agree. intros k Hk. symmetry. rewrite kw_find_app.
  destruct (kw_find k kw); [reflexivity |].
  destruct (String.eqb k k0) eqn:E; [| reflexivity].
  apply String.eqb_eq in E. subst. contradiction.
Qed.

(** X17.  An [else] whose body is empty leaves no trace in the [If] node: the
    node is the one built without the [else]. *)
Theorem if_empty_else_is_dropped (kw : kwargs) (nm : list (string * (bool * pyval))) :
  kw_find "else_body" kw = None ->
  IfNode_init (kw ++ [("else_body", PResults [] nm)]) = IfNode_init kw.
Proof.
  intros H. unfold IfNode_init.
  rewrite bind_kwargs_app; [| cbn; tauto | cbn; intros [E | []]; discriminate E].
  rewrite !kw_get_app_other by reflexivity.
  replace (truthy (kw_get (kw ++ [("else_body", PResults [] nm)]) "else_body" PNone))
    with false by (unfold kw_get; now rewrite kw_find_app, H).
  replace (truthy (kw_get kw "else_body" PNone))
    with false by (unfold kw_get; now rewrite H).
  reflexivity.
Qed.

Lemma if_empty_else_is_dropped_witness :
  IfNode_init ([("then_cond", PBool true)] ++ [("else_body", PResults [] [])])
  = IfNode_init [("then_cond", PBool true)].
Proof.
  apply (if_empty_else_is_dropped [("then_cond", PBool true)] []). reflexivity.
Defined.
